(** * Surveyor: the exploration scheduler of angr (surveyor.py)

    A shallow embedding of [Surveyor] and of the module-level control flags
    [STOP_RUNS] / [PAUSE_RUNS].  Python integers are [Z], Python lists are
    [list], and the methods that call into collaborators (paths, hooks, the
    debugger) are written in a small state-and-fault monad: a call either
    returns normally with a value and the new state, or raises a fault and
    leaves the state it had reached.  The calls to the logger [l] change
    nothing the scheduler looks at and are left out.

    The scheduler is modelled twice.  First with its lists as values and
    with overloadable methods that leave the scheduler alone, as the
    methods of the class do; then, in [Live], with its lists as objects of a
    store and the overloadable methods as calls on the whole state, for an
    analysis that seeds or parks paths from within a method.  Where both
    apply the two agree ([tick_agrees], [trim_agrees], [run_agrees]). *)

From Stdlib Require Import List ZArith Bool Lia Permutation.
From Stdlib Require String Ascii DecimalString DecimalZ DecimalPos.
Import ListNotations.
Import String.StringSyntax Ascii.AsciiSyntax.

Set Implicit Arguments.

Local Open Scope Z_scope.

(** ** Python sequences *)

(** [l[:k]] and [l[k:]] for an integer [k]: a negative bound counts from the
    end of the list and is clamped at the front. *)
Definition slice_start {A : Type} (k : Z) (l : list A) : nat :=
  if 0 <=? k then Z.to_nat k else (length l - Z.to_nat (- k))%nat.

Definition slice_to {A : Type} (k : Z) (l : list A) : list A :=
  firstn (slice_start k l) l.

Definition slice_from {A : Type} (k : Z) (l : list A) : list A :=
  skipn (slice_start k l) l.

(** [len(l)] as a Python integer. *)
Definition len {A : Type} (l : list A) : Z := Z.of_nat (length l).

(** ** Calls that may raise *)

Section Outcome.
Variable Fault : Type.

(** The result of a call on a state of type [S]. *)
Inductive Outcome (S A : Type) : Type :=
| Ok (a : A) (s : S)
| Raise (f : Fault) (s : S).

Arguments Ok {S A} a s.
Arguments Raise {S A} f s.

Definition Call (S A : Type) : Type := S -> Outcome S A.

Definition ret {S A : Type} (a : A) : Call S A := fun s => Ok a s.

Definition bind {S A B : Type} (m : Call S A) (k : A -> Call S B) : Call S B :=
  fun s => match m s with
           | Ok a s' => k a s'
           | Raise f s' => Raise f s'
           end.

Definition gets {S A : Type} (f : S -> A) : Call S A := fun s => Ok (f s) s.

Definition modify {S : Type} (f : S -> S) : Call S unit := fun s => Ok tt (f s).

(** A call on a component [S] of a larger state [T]. *)
Definition lift {S T A : Type} (get : T -> S) (set : S -> T -> T)
           (m : Call S A) : Call T A :=
  fun t => match m (get t) with
           | Ok a s' => Ok a (set s' t)
           | Raise f s' => Raise f (set s' t)
           end.

Definition final_state {S A : Type} (o : Outcome S A) : S :=
  match o with Ok _ s => s | Raise _ s => s end.

Definition returns {S A : Type} (o : Outcome S A) : bool :=
  match o with Ok _ _ => true | Raise _ _ => false end.

Definition fault_of {S A : Type} (o : Outcome S A) : option Fault :=
  match o with Ok _ _ => None | Raise f _ => Some f end.
End Outcome.

Arguments Ok {Fault S A} a s.
Arguments Raise {Fault S A} f s.
Arguments ret {Fault S A} a _.
Arguments bind {Fault S A B} m k _.
Arguments gets {Fault S A} f _.
Arguments modify {Fault S} f _.
Arguments lift {Fault S T A} get set m _.
Arguments final_state {Fault S A} o.
Arguments returns {Fault S A} o.
Arguments fault_of {Fault S A} o.

Declare Scope call_scope.
Delimit Scope call_scope with call.
Notation "x <- m ;; k" := (bind m (fun x => k))
  (at level 61, m at next level, right associativity) : call_scope.
Notation "m ;; k" := (bind m (fun _ => k))
  (at level 61, right associativity) : call_scope.

Local Open Scope call_scope.

(** ** The scheduler *)

Section Surveyor.
(** Collaborators of the module, opaque to the scheduler: the project, its
    exits, the paths ([from . import Path]) with their error records, the
    state of everything outside the scheduler, and the faults a call can
    raise. *)
Variables Project Exit Path ErrorRecord World Fault : Type.

(** [Path(project=..., entry=e)], [project.initial_exit()] and the
    attribute [p.errored], read from the world as it is at that moment. *)
Variable Path_new : Project -> Exit -> Path.
Variable initial_exit : Project -> Exit.
Variable Path_errored : Path -> World -> list ErrorRecord.

(** *** Module globals *)

Record Env : Type := mkEnv {
  STOP_RUNS : bool;
  PAUSE_RUNS : bool;
  world : World
}.

Definition enable_singlestep (e : Env) : Env :=
  mkEnv (STOP_RUNS e) true (world e).
Definition disable_singlestep (e : Env) : Env :=
  mkEnv (STOP_RUNS e) false (world e).
Definition stop_analyses (e : Env) : Env :=
  mkEnv true (PAUSE_RUNS e) (world e).
Definition result_analyses (e : Env) : Env :=
  mkEnv false (PAUSE_RUNS e) (world e).

(** [handler(signum, frame)], installed for the two user signals, whose
    numbers come from the [signal] module. *)
Variables SIGUSR1 SIGUSR2 : Z.

Definition handler (signum : Z) (e : Env) : Env :=
  if signum =? SIGUSR1 then stop_analyses e
  else if signum =? SIGUSR2 then enable_singlestep e
  else e.

(** The interactive [pdb.set_trace()]: whatever the session does, it does
    outside the scheduler. *)
Variable pdb_set_trace : Call Fault Env unit.

(** *** The object *)

Record Surveyor : Type := mkSurveyor {
  _project : Project;
  _max_concurrency : Z;
  active : list Path;
  deadended : list Path;
  trimmed : list Path;
  errored : list Path;
  _current_tick : Z
}.

Definition set_active (l : list Path) (sv : Surveyor) : Surveyor :=
  mkSurveyor (_project sv) (_max_concurrency sv) l (deadended sv)
             (trimmed sv) (errored sv) (_current_tick sv).
Definition set_deadended (l : list Path) (sv : Surveyor) : Surveyor :=
  mkSurveyor (_project sv) (_max_concurrency sv) (active sv) l
             (trimmed sv) (errored sv) (_current_tick sv).
Definition set_trimmed (l : list Path) (sv : Surveyor) : Surveyor :=
  mkSurveyor (_project sv) (_max_concurrency sv) (active sv) (deadended sv)
             l (errored sv) (_current_tick sv).
Definition set_errored (l : list Path) (sv : Surveyor) : Surveyor :=
  mkSurveyor (_project sv) (_max_concurrency sv) (active sv) (deadended sv)
             (trimmed sv) l (_current_tick sv).
Definition set_current_tick (k : Z) (sv : Surveyor) : Surveyor :=
  mkSurveyor (_project sv) (_max_concurrency sv) (active sv) (deadended sv)
             (trimmed sv) (errored sv) k.

(** The scheduler together with everything around it. *)
Record State : Type := mkState {
  self : Surveyor;
  env : Env
}.

Definition set_env (e : Env) (s : State) : State := mkState (self s) e.
Definition set_world (w : World) (e : Env) : Env :=
  mkEnv (STOP_RUNS e) (PAUSE_RUNS e) w.
Definition on_self (f : Surveyor -> Surveyor) (s : State) : State :=
  mkState (f (self s)) (env s).

(** A call into the environment made from a method. *)
Definition outside {A : Type} (m : Call Fault Env A) : Call Fault State A :=
  lift env set_env m.

(** *** The overloadable methods

    [tick_path], [trim_path] and [done] call out of the scheduler;
    [trim_paths] is handed the sequence and works on the scheduler itself
    (the one of the class parks the overflow in [self.trimmed]).  This is
    the interface of an analysis whose step, filter and [done] leave the
    scheduler alone; [Live.Methods] is the one of an analysis that uses
    [self] in them. *)
Record Hooks : Type := mkHooks {
  tick_path : Path -> Call Fault Env (list Path);
  trim_path : Path -> Call Fault Env bool;
  trim_paths : list Path -> Call Fault State (list Path);
  done : Surveyor -> Call Fault Env bool
}.

(** *** __init__ *)

Definition analyze_exit (e : Exit) (sv : Surveyor) : Surveyor :=
  set_active (active sv ++ [Path_new (_project sv) e]) sv.

Definition init (project : Project) (start : option Exit)
           (starts : option (list Exit)) (max_concurrency : option Z)
  : Surveyor :=
  let sv0 := mkSurveyor project
               (match max_concurrency with None => 10 | Some m => m end)
               [] [] [] [] 0 in
  let sv1 := match start with
             | Some e => analyze_exit e sv0
             | None => sv0
             end in
  let sv2 := match starts with
             | Some es => fold_left (fun sv e => analyze_exit e sv) es sv1
             | None => sv1
             end in
  match start, starts with
  | None, None => analyze_exit (initial_exit project) sv2
  | _, _ => sv2
  end.

(** *** tick *)

Section Methods.
Variable h : Hooks.

(** The body of [for p in self.active], with [new_active] as
    accumulator.  No step changes the list here, so that the loop goes
    over the paths [ps] that were active when it began. *)
Fixpoint tick_loop (ps : list Path) (new_active : list Path)
  : Call Fault State (list Path) :=
  match ps with
  | [] => ret new_active
  | p :: rest =>
      successors <- outside (tick_path h p) ;;
      errs <- gets (fun s => Path_errored p (world (env s))) ;;
      (if 0 <? len errs
       then modify (on_self (fun sv => set_errored (errored sv ++ [p]) sv))
       else ret tt) ;;
      (if len successors =? 0
       then modify (on_self (fun sv => set_deadended (deadended sv ++ [p]) sv))
       else ret tt) ;;
      tick_loop rest (new_active ++ successors)
  end.

Definition tick : Call Fault State Surveyor :=
  ps <- gets (fun s => active (self s)) ;;
  new_active <- tick_loop ps [] ;;
  modify (on_self (set_active new_active)) ;;
  modify (on_self (fun sv => set_current_tick (_current_tick sv + 1) sv)) ;;
  gets self.

(** *** trim *)

(** [[ p for p in self.active if not self.trim_path(p) ]] *)
Fixpoint trim_each (ps : list Path) : Call Fault State (list Path) :=
  match ps with
  | [] => ret []
  | p :: rest =>
      excluded <- outside (trim_path h p) ;;
      kept <- trim_each rest ;;
      ret (if excluded then kept else p :: kept)
  end.

Definition trim : Call Fault State unit :=
  ps <- gets (fun s => active (self s)) ;;
  new_active <- trim_each ps ;;
  new_active <- trim_paths h new_active ;;
  modify (on_self (set_active new_active)).

(** *** untrim *)

Definition untrim_self (sv : Surveyor) : Surveyor :=
  let available := _max_concurrency sv - len (active sv) in
  if (0 <? available) && (0 <? len (trimmed sv))
  then set_trimmed (slice_from available (trimmed sv))
         (set_active (active sv ++ slice_to available (trimmed sv)) sv)
  else sv.

Definition untrim : Call Fault State unit := modify (on_self untrim_self).

(** *** run *)

(** [not self.done and (n is None or n > 0)] *)
Definition run_guard (n : option Z) : Call Fault State bool :=
  d <- (fun s => outside (done h (self s)) s) ;;
  ret (negb d && match n with None => true | Some k => 0 <? k end).

(** One pass through the body of the [while]: [None] is the [break],
    [Some n'] carries the budget on. *)
Definition run_body (n : option Z) : Call Fault State (option (option Z)) :=
  tick ;;
  trim ;;
  untrim ;;
  stop <- gets (fun s => STOP_RUNS (env s)) ;;
  if stop then ret None
  else
    pause <- gets (fun s => PAUSE_RUNS (env s)) ;;
    (if pause then outside pdb_set_trace else ret tt) ;;
    ret (Some (match n with None => None | Some k => Some (k - 1) end)).

(** The loop, with [fuel] bounding the number of passes the model
    follows; [None] says the fuel ran out before the loop ended. *)
Fixpoint run (fuel : nat) (n : option Z) (s : State)
  : option (Outcome Fault State Surveyor) :=
  match fuel with
  | O => None
  | S fuel' =>
      match run_guard n s with
      | Raise f s1 => Some (Raise f s1)
      | Ok false s1 => Some (Ok (self s1) s1)
      | Ok true s1 =>
          match run_body n s1 with
          | Raise f s2 => Some (Raise f s2)
          | Ok None s2 => Some (Ok (self s2) s2)
          | Ok (Some n') s2 => run fuel' n' s2
          end
      end
  end.

(** *** What a round looks like from outside the scheduler

    The definitions from here to the end of the section are not methods
    of the class: they name, for the statements below, the calls a round
    makes into its environment and the parts of the loop body. *)

(** The steps of [tick] over the paths [ps] in order: for each path the
    successors its step returned and whether [p.errored] was non-empty
    when the step came back. *)
Fixpoint step_all (ps : list Path)
  : Call Fault Env (list (list Path * bool)) :=
  match ps with
  | [] => ret []
  | p :: rest =>
      successors <- tick_path h p ;;
      errs <- gets (fun e => Path_errored p (world e)) ;;
      obs <- step_all rest ;;
      ret ((successors, 0 <? len errs) :: obs)
  end.

(** The answers of the per-path filter of [trim] over [ps] in order. *)
Fixpoint exclude_all (ps : list Path) : Call Fault Env (list bool) :=
  match ps with
  | [] => ret []
  | p :: rest =>
      excluded <- trim_path h p ;;
      answers <- exclude_all rest ;;
      ret (excluded :: answers)
  end.

(** One round: the first three statements of the loop body of [run]. *)
Definition one_round : Call Fault State unit :=
  tick ;; trim ;; untrim.

(** The budget after one more pass. *)
Definition spent (n : option Z) : option Z :=
  match n with None => None | Some k => Some (k - 1) end.

(** The rest of the loop body, behind the round. *)
Definition after_round (n : option Z)
  : Call Fault State (option (option Z)) :=
  fun s2 =>
    if STOP_RUNS (env s2) then Ok None s2
    else if PAUSE_RUNS (env s2)
         then match pdb_set_trace (env s2) with
              | Ok _ e3 => Ok (Some (spent n)) (mkState (self s2) e3)
              | Raise f e3 => Raise f (mkState (self s2) e3)
              end
         else Ok (Some (spent n)) s2.
End Methods.

(** The paths of [ps] whose observation satisfies [sel], in order. *)
Definition chosen {B : Type} (sel : B -> bool) (ps : list Path)
           (obs : list B) : list Path :=
  map fst (filter (fun po => sel (snd po)) (combine ps obs)).

Definition had_errors (o : list Path * bool) : bool := snd o.
Definition no_successors (o : list Path * bool) : bool := len (fst o) =? 0.

(** The scheduler after the paths [ps] were stepped with the observations
    [obs]: the paths with errors logged in [errored], the ones without
    successors in [deadended]. *)
Definition logged (ps : list Path) (obs : list (list Path * bool))
           (sv : Surveyor) : Surveyor :=
  set_deadended (deadended sv ++ chosen no_successors ps obs)
    (set_errored (errored sv ++ chosen had_errors ps obs) sv).

(** Two schedulers that differ at most in their logs of dead-ended and
    errored paths. *)
Definition same_but_logs (sv sv' : Surveyor) : Prop :=
  _project sv' = _project sv /\
  _max_concurrency sv' = _max_concurrency sv /\
  active sv' = active sv /\
  trimmed sv' = trimmed sv /\
  _current_tick sv' = _current_tick sv.

(** The paths of [ps] the filter kept. *)
Definition kept_of (ps : list Path) (answers : list bool) : list Path :=
  chosen negb ps answers.

(** Clearing the stop flag from the state of a halted run. *)
Definition resume (s : State) : State :=
  set_env (result_analyses (env s)) s.

(** *** The methods of the class itself *)

Variable Path_continue_path : Path -> Call Fault Env (list Path).

Definition Surveyor_tick_path (p : Path) : Call Fault Env (list Path) :=
  Path_continue_path p.

Definition Surveyor_trim_path (p : Path) : Call Fault Env bool := ret false.

Definition Surveyor_trim_paths (paths : list Path)
  : Call Fault State (list Path) :=
  mc <- gets (fun s => _max_concurrency (self s)) ;;
  modify (on_self (fun sv => set_trimmed (trimmed sv ++ slice_from mc paths) sv)) ;;
  ret (slice_to mc paths).

Definition Surveyor_done (sv : Surveyor) : Call Fault Env bool :=
  ret (len (active sv) =? 0).

Definition Surveyor_hooks : Hooks :=
  mkHooks Surveyor_tick_path Surveyor_trim_path Surveyor_trim_paths
          Surveyor_done.

(** A subclass that overloads the step, the per-path filter and [done],
    and keeps the [trim_paths] of the class. *)
Definition overloading (tp : Path -> Call Fault Env (list Path))
           (fp : Path -> Call Fault Env bool)
           (d : Surveyor -> Call Fault Env bool) : Hooks :=
  mkHooks tp fp Surveyor_trim_paths d.
End Surveyor.

Arguments Surveyor_hooks {Project Path World Fault} Path_continue_path.
Arguments overloading {Project Path World Fault} tp fp d.
Arguments untrim {Project Path World Fault} _.
Arguments chosen {Path B} sel ps obs.
Arguments had_errors {Path} o.
Arguments no_successors {Path} o.
Arguments kept_of {Path} ps answers.
Arguments Surveyor_trim_paths {Project Path World Fault} paths _.
Arguments Surveyor_trim_path {Path World Fault} p _.
Arguments Surveyor_done {Project Path World Fault} sv _.

(** ** A small concrete instance

    Paths are numbered; the world is the log of the error records the paths
    have accumulated.  What a path does when stepped is read off its number
    modulo 4: it dead-ends and records an error, forks into three, raises, or
    records an error and goes on. *)

Module Demo.
Definition Project : Type := unit.
Definition Exit : Type := nat.
Definition Path : Type := nat.
Definition ErrorRecord : Type := nat.
Definition Fault : Type := nat.
Definition World : Type := list (Path * ErrorRecord).

Definition Path_new (_ : Project) (e : Exit) : Path := e.
Definition initial_exit (_ : Project) : Exit := 0%nat.

Definition Path_errored (p : Path) (w : World) : list ErrorRecord :=
  map snd (filter (fun r => Nat.eqb (fst r) p) w).

Definition step (p : Path) : Call Fault World (list Path) :=
  fun w =>
    match Nat.modulo p 4 with
    | 0%nat => Ok [] (w ++ [(p, 1%nat)])
    | 1%nat => Ok [4 * p + 1; 4 * p + 5; 4 * p + 9]%nat w
    | 2%nat => Raise p w
    | _ => Ok [p + 4]%nat (w ++ [(p, 7%nat)])
    end.

(** [p.continue_path()]: a step works on the world and leaves the flags. *)
Definition continue_path (p : Path) : Call Fault (Env World) (list Path) :=
  lift (@world World) (@set_world World) (step p).

(** The debugger session: the user switches single-stepping off and lets
    the loop go on. *)
Definition pdb_set_trace : Call Fault (Env World) unit :=
  modify (@disable_singlestep World).

Definition hooks : Hooks Project Path World Fault :=
  Surveyor_hooks continue_path.

(** A step during which a stop request arrives. *)
Definition interrupted_tick_path (p : Path)
  : Call Fault (Env World) (list Path) :=
  modify (@stop_analyses World) ;; Surveyor_tick_path continue_path p.

(** An analysis that is never done and whose step is interrupted. *)
Definition interrupted_hooks : Hooks Project Path World Fault :=
  mkHooks interrupted_tick_path (@Surveyor_trim_path Path World Fault)
          Surveyor_trim_paths (fun _ => ret false).

(** An analysis that is never done. *)
Definition endless_hooks : Hooks Project Path World Fault :=
  mkHooks (Surveyor_tick_path continue_path)
          (@Surveyor_trim_path Path World Fault)
          Surveyor_trim_paths (fun _ => ret false).

Definition env0 : Env World := mkEnv false false [].

Definition start (sv : Surveyor Project Path) : State Project Path World :=
  mkState sv env0.

(** Three active paths: one that dead-ends with an error, one that forks,
    one that goes on with an error; and what their steps show. *)
Definition sv_mixed : Surveyor Project Path :=
  mkSurveyor tt 2 [0; 1; 3]%nat [] [] [] 0.
Definition obs_mixed : list (list Path * bool) :=
  [([], true); ([5; 9; 13]%nat, false); ([7]%nat, true)].
Definition env_mixed : Env World :=
  mkEnv false false [(0, 1); (3, 7)]%nat.

(** Three active paths under a limit of 2, and under a limit of -1. *)
Definition sv_full : Surveyor Project Path :=
  mkSurveyor tt 2 [1; 5; 9]%nat [] [] [] 0.
Definition sv_negative : Surveyor Project Path :=
  mkSurveyor tt (-1) [1; 2; 3]%nat [] [] [] 0.

(** One forking path under a limit of 2, and the state one round later
    when a stop request arrived during the round. *)
Definition sv_seed : Surveyor Project Path :=
  init Path_new initial_exit tt (Some 1%nat) None (Some 2).
Definition stopped_after_one_round : State Project Path World :=
  mkState (mkSurveyor tt 2 [5; 9]%nat [] [13]%nat [] 1)
          (mkEnv true false []).

Definition tick (h : Hooks Project Path World Fault) := tick Path_errored h.
Definition run (h : Hooks Project Path World Fault) :=
  run Path_errored pdb_set_trace h.
Definition one_round (h : Hooks Project Path World Fault) :=
  one_round Path_errored h.
End Demo.

(** ** The rest of the class *)

Delimit Scope string_scope with string.

(** [%d] of a Python integer. *)
Definition decimal (z : Z) : String.string :=
  DecimalString.NilZero.string_of_int (Z.to_int z).

(** Whether a string is made of decimal digits only. *)
Fixpoint all_digits (u : String.string) : bool :=
  match u with
  | String.EmptyString => true
  | String.String c r =>
      match DecimalString.uint_of_char c (Some Decimal.Nil) with
      | Some _ => all_digits r
      | None => false
      end
  end.

Section Reports.
Variables Project Exit Path World Fault Arg : Type.

(** [p.flat_exits(reachable=..., concrete=..., symbolic=...)], with the
    three keyword values opaque ([None] when left out). *)
Variable Path_flat_exits :
  Path -> option Arg -> option Arg -> option Arg ->
  Call Fault (Env World) (list Exit).

Section ActiveExits.
Variables reachable concrete symbolic : option Arg.

(** The body of [for p in self.active] in [active_exits], with [all_exits]
    as accumulator. *)
Fixpoint active_exits_loop (ps : list Path) (all_exits : list Exit)
  : Call Fault (State Project Path World) (list Exit) :=
  match ps with
  | [] => ret all_exits
  | p :: rest =>
      es <- outside (Path_flat_exits p reachable concrete symbolic) ;;
      active_exits_loop rest (all_exits ++ es)
  end.

Definition active_exits : Call Fault (State Project Path World) (list Exit) :=
  ps <- gets (fun s => active (self s)) ;;
  active_exits_loop ps [].

(** Not a method: the calls of [flat_exits] over [ps] in order, as the
    environment sees them. *)
Fixpoint flat_exits_all (ps : list Path)
  : Call Fault (Env World) (list (list Exit)) :=
  match ps with
  | [] => ret []
  | p :: rest =>
      es <- Path_flat_exits p reachable concrete symbolic ;;
      ess <- flat_exits_all rest ;;
      ret (es :: ess)
  end.
End ActiveExits.

(** [__str__] *)
Definition __str__ (sv : Surveyor Project Path) : String.string :=
  String.append (decimal (len (active sv)))
    (String.append " active, "
       (String.append (decimal (len (trimmed sv)))
          (String.append " trimmed, "
             (String.append (decimal (len (deadended sv)))
                (String.append " deadended, "
                   (String.append (decimal (len (errored sv)))
                      " errored")))))).

(** Not in the module: the signals [signums] delivered one after the other
    to [handler]. *)
Definition deliver (SIGUSR1 SIGUSR2 : Z) (signums : list Z) (e : Env World)
  : Env World :=
  fold_left (fun e0 signum => handler SIGUSR1 SIGUSR2 signum e0) signums e.

(** A scheduler [sv'] that a scheduler [sv] can have become: same project
    and limit, a tick counter that is not smaller, and the two logs of [sv]
    with paths appended. *)
Definition grown (sv sv' : Surveyor Project Path) : Prop :=
  _project sv' = _project sv /\
  _max_concurrency sv' = _max_concurrency sv /\
  _current_tick sv <= _current_tick sv' /\
  (exists l, errored sv' = errored sv ++ l) /\
  (exists l, deadended sv' = deadended sv ++ l).
End Reports.

Arguments active_exits {Project Exit Path World Fault Arg}
  Path_flat_exits reachable concrete symbolic _.
Arguments flat_exits_all {Exit Path World Fault Arg}
  Path_flat_exits reachable concrete symbolic ps _.
Arguments __str__ {Project Path} sv.
Arguments deliver {World} SIGUSR1 SIGUSR2 signums e.
Arguments grown {Project Path} sv sv'.

(** ** More concrete cases *)

Module Cases.
Import Demo.

(** A filter that excludes the even paths and raises on path 9. *)
Definition picky_trim_path (p : Path) : Call Fault (Env World) bool :=
  fun e => if Nat.eqb p 9 then Raise 99%nat e else Ok (Nat.even p) e.

Definition picky_hooks : Hooks Project Path World Fault :=
  overloading continue_path picky_trim_path Surveyor_done.

(** A step under which every path dead-ends. *)
Definition dead_end (p : Path) : Call Fault (Env World) (list Path) :=
  ret [].

Definition dead_end_hooks : Hooks Project Path World Fault :=
  overloading dead_end (@Surveyor_trim_path Path World Fault) Surveyor_done.

(** Three active paths of which the second raises when stepped, and the
    state the tick leaves. *)
Definition sv_raising : Surveyor Project Path :=
  mkSurveyor tt 2 [0; 2; 1]%nat [] [] [] 0.
Definition after_raise : State Project Path World :=
  mkState (mkSurveyor tt 2 [0; 2; 1]%nat [0]%nat [] [0]%nat 0)
          (mkEnv false false [(0, 1)]%nat).

(** Three active paths of which the third makes the filter raise. *)
Definition sv_picky : Surveyor Project Path :=
  mkSurveyor tt 2 [1; 4; 9]%nat [] [] [] 0.

(** Two active and three parked paths under a limit of 2; the parked path 4
    holds an error record. *)
Definition sv_parked : Surveyor Project Path :=
  mkSurveyor tt 2 [1; 2]%nat [] [3; 4; 5]%nat [] 0.
Definition env_parked : Env World := mkEnv false false [(4, 1)]%nat.

(** One active path under a limit of 0. *)
Definition sv_zero : Surveyor Project Path :=
  mkSurveyor tt 0 [1]%nat [] [] [] 0.

(** One active and three parked paths under a limit of 2. *)
Definition sv_room : Surveyor Project Path :=
  mkSurveyor tt 2 [1]%nat [] [3; 4; 5]%nat [] 0.

(** The forking path of [sv_seed] two rounds later. *)
Definition after_two_rounds : State Project Path World :=
  mkState (mkSurveyor tt 2 [21; 25]%nat []
                      [13; 29; 37; 41; 45]%nat [] 2)
          env0.

(** The exits of a path: its number and the next. *)
Definition flat_exits (p : Path) (reachable concrete symbolic : option bool)
  : Call Fault (Env World) (list Exit) :=
  ret [p; S p].
End Cases.

(** ** The scheduler and its lists as objects

    The four path lists of a scheduler are Python list objects, and
    [tick_path], [trim_path], [trim_paths] and [done] are methods of the
    class: an analysis that overloads them has [self] at hand.  It can seed
    a path with [self.analyze_exit] while a tick is under way, or park a path
    in [self.trimmed] as the docstring of [trim_path] asks.  Whether such a
    method changes a list in place ([append], [+=]) or binds the attribute
    to another list ([self.active = ...]) makes a difference to a loop that
    is walking the list: [for p in self.active] holds on to the list object
    it started with, looks at its length before every step, and so reaches a
    path appended to that object during the loop, but none of a list the
    attribute was bound to in the meantime.

    Here the lists live in a store, the attributes of the scheduler are
    references into it, and the overloadable methods are calls on the whole
    state.  A loop over a list that can grow need not end: [tick] and [trim]
    take fuel, like [run]. *)

Module Live.
Section Objects.
Variables Project Exit Path ErrorRecord World Fault : Type.
Variable Path_new : Project -> Exit -> Path.
Variable initial_exit : Project -> Exit.
Variable Path_errored : Path -> World -> list ErrorRecord.

(** A reference to a list object: its place in the store. *)
Definition Ref : Type := nat.

Record Surveyor : Type := mkSurveyor {
  _project : Project;
  _max_concurrency : Z;
  active : Ref;
  deadended : Ref;
  trimmed : Ref;
  errored : Ref;
  _current_tick : Z
}.

Definition set_active (r : Ref) (sv : Surveyor) : Surveyor :=
  mkSurveyor (_project sv) (_max_concurrency sv) r (deadended sv)
             (trimmed sv) (errored sv) (_current_tick sv).
Definition set_trimmed (r : Ref) (sv : Surveyor) : Surveyor :=
  mkSurveyor (_project sv) (_max_concurrency sv) (active sv) (deadended sv)
             r (errored sv) (_current_tick sv).
Definition set_current_tick (k : Z) (sv : Surveyor) : Surveyor :=
  mkSurveyor (_project sv) (_max_concurrency sv) (active sv) (deadended sv)
             (trimmed sv) (errored sv) k.

(** The scheduler, the store of list objects and the module globals with
    the world around them. *)
Record State : Type := mkState {
  self : Surveyor;
  heap : list (list Path);
  env : Env World
}.

Definition on_self (f : Surveyor -> Surveyor) (s : State) : State :=
  mkState (f (self s)) (heap s) (env s).
Definition set_heap (hp : list (list Path)) (s : State) : State :=
  mkState (self s) hp (env s).
Definition set_env (e : Env World) (s : State) : State :=
  mkState (self s) (heap s) e.

(** A call into the environment that has no access to the scheduler. *)
Definition outside {A : Type} (m : Call Fault (Env World) A)
  : Call Fault State A :=
  lift env set_env m.

(** *** List objects *)

(** The contents of the list at [r]. *)
Definition deref (r : Ref) (s : State) : list Path := nth r (heap s) [].

Fixpoint put (r : Ref) (l : list Path) (hp : list (list Path))
  : list (list Path) :=
  match hp, r with
  | [], _ => []
  | _ :: rest, O => l :: rest
  | x :: rest, S r' => x :: put r' l rest
  end.

(** [r.append(p)], [r.extend(l)] and [r += l]: the list at [r] grows in
    place. *)
Definition extend (r : Ref) (l : list Path) (s : State) : State :=
  set_heap (put r (deref r s ++ l) (heap s)) s.

(** A new list object with the contents [l]. *)
Definition new_list (l : list Path) (s : State) : Ref * State :=
  (length (heap s), set_heap (heap s ++ [l]) s).

(** *** __init__ *)

Definition analyze_exit (e : Exit) (s : State) : State :=
  extend (active (self s)) [Path_new (_project (self s)) e] s.

(** The constructor, called where the store holds [hp] and the
    environment is [e]. *)
Definition init (project : Project) (start : option Exit)
           (starts : option (list Exit)) (max_concurrency : option Z)
           (hp : list (list Path)) (e : Env World) : State :=
  let a := length hp in
  let s0 := mkState
              (mkSurveyor project
                 (match max_concurrency with None => 10 | Some m => m end)
                 a (S a) (S (S a)) (S (S (S a))) 0)
              (hp ++ [[]; []; []; []]) e in
  let s1 := match start with
            | Some e => analyze_exit e s0
            | None => s0
            end in
  let s2 := match starts with
            | Some es => fold_left (fun s e => analyze_exit e s) es s1
            | None => s1
            end in
  match start, starts with
  | None, None => analyze_exit (initial_exit project) s2
  | _, _ => s2
  end.

(** *** The overloadable methods

    A step returns its successors as a sequence of its own, which [tick]
    reads and copies; [trim_paths] is handed a list object and returns
    one. *)
Record Methods : Type := mkMethods {
  tick_path : Path -> Call Fault State (list Path);
  trim_path : Path -> Call Fault State bool;
  trim_paths : Ref -> Call Fault State Ref;
  done : Call Fault State bool
}.

Section Loops.
Variable h : Methods.

(** *** tick *)

(** [self.errored.append(p)] when [len(p.errored) > 0], then
    [self.deadended.append(p)] when [len(successors) == 0]. *)
Definition record_path (p : Path) (successors : list Path) (s : State)
  : State :=
  let s1 := if 0 <? len (Path_errored p (world (env s)))
            then extend (errored (self s)) [p] s
            else s in
  if len successors =? 0
  then extend (deadended (self s1)) [p] s1
  else s1.

(** [for p in self.active] of [tick]: [it] is the list object the loop
    walks, [i] the index it has reached, [new_active] the accumulator.
    [None] says the fuel ran out. *)
Fixpoint tick_loop (fuel : nat) (it : Ref) (i : nat)
         (new_active : list Path) (s : State)
  : option (Outcome Fault State (list Path)) :=
  match fuel with
  | O => None
  | S fuel' =>
      match nth_error (deref it s) i with
      | None => Some (Ok new_active s)
      | Some p =>
          match tick_path h p s with
          | Raise f s1 => Some (Raise f s1)
          | Ok successors s1 =>
              tick_loop fuel' it (S i) (new_active ++ successors)
                        (record_path p successors s1)
          end
      end
  end.

(** [new_active] becomes a list object of the store when the loop is
    over: nothing but the loop holds it before. *)
Definition tick (fuel : nat) (s : State)
  : option (Outcome Fault State Surveyor) :=
  match tick_loop fuel (active (self s)) 0 [] s with
  | None => None
  | Some (Raise f s1) => Some (Raise f s1)
  | Some (Ok new_active s1) =>
      let (r, s2) := new_list new_active s1 in
      let s3 := on_self (fun sv =>
                  set_current_tick (_current_tick sv + 1) (set_active r sv))
                  s2 in
      Some (Ok (self s3) s3)
  end.

(** *** trim *)

(** [[ p for p in self.active if not self.trim_path(p) ]], walked the
    same way. *)
Fixpoint trim_each (fuel : nat) (it : Ref) (i : nat) (kept : list Path)
         (s : State)
  : option (Outcome Fault State (list Path)) :=
  match fuel with
  | O => None
  | S fuel' =>
      match nth_error (deref it s) i with
      | None => Some (Ok kept s)
      | Some p =>
          match trim_path h p s with
          | Raise f s1 => Some (Raise f s1)
          | Ok excluded s1 =>
              trim_each fuel' it (S i)
                        (if excluded then kept else kept ++ [p]) s1
          end
      end
  end.

Definition trim (fuel : nat) (s : State)
  : option (Outcome Fault State unit) :=
  match trim_each fuel (active (self s)) 0 [] s with
  | None => None
  | Some (Raise f s1) => Some (Raise f s1)
  | Some (Ok kept s1) =>
      let (new_active, s2) := new_list kept s1 in
      match trim_paths h new_active s2 with
      | Raise f s3 => Some (Raise f s3)
      | Ok new_active' s3 => Some (Ok tt (on_self (set_active new_active') s3))
      end
  end.

(** *** untrim *)

(** [self.active += ...] grows the list in place;
    [self.trimmed = self.trimmed[available:]] binds the attribute to a new
    list. *)
Definition untrim (s : State) : State :=
  let available :=
    _max_concurrency (self s) - len (deref (active (self s)) s) in
  if (0 <? available) && (0 <? len (deref (trimmed (self s)) s))
  then
    let s1 := extend (active (self s))
                (slice_to available (deref (trimmed (self s)) s)) s in
    let (r, s2) :=
      new_list (slice_from available (deref (trimmed (self s1)) s1)) s1 in
    on_self (set_trimmed r) s2
  else s.

(** *** run *)

Variable pdb_set_trace : Call Fault State unit.

(** [not self.done and (n is None or n > 0)] *)
Definition run_guard (n : option Z) : Call Fault State bool :=
  d <- done h ;;
  ret (negb d && match n with None => true | Some k => 0 <? k end).

(** The loop body behind [untrim]: [None] is the [break]. *)
Definition round_end (n : option Z)
  : Call Fault State (option (option Z)) :=
  stop <- gets (fun s => STOP_RUNS (env s)) ;;
  if stop then ret None
  else
    pause <- gets (fun s => PAUSE_RUNS (env s)) ;;
    (if pause then pdb_set_trace else ret tt) ;;
    ret (Some (spent n)).

(** The fuel bounds the passes of the loop and, within a pass, the steps
    of [tick] and of [trim]. *)
Fixpoint run (fuel : nat) (n : option Z) (s : State)
  : option (Outcome Fault State Surveyor) :=
  match fuel with
  | O => None
  | S fuel' =>
      match run_guard n s with
      | Raise f s1 => Some (Raise f s1)
      | Ok false s1 => Some (Ok (self s1) s1)
      | Ok true s1 =>
          match tick fuel' s1 with
          | None => None
          | Some (Raise f s2) => Some (Raise f s2)
          | Some (Ok _ s2) =>
              match trim fuel' s2 with
              | None => None
              | Some (Raise f s3) => Some (Raise f s3)
              | Some (Ok _ s3) =>
                  match round_end n (untrim s3) with
                  | Raise f s4 => Some (Raise f s4)
                  | Ok None s4 => Some (Ok (self s4) s4)
                  | Ok (Some n') s4 => run fuel' n' s4
                  end
              end
          end
      end
  end.

(** *** What a tick looks like from outside

    The definitions from here to the methods of the class are not in
    surveyor.py: the statements below are made of them. *)

(** The steps of a tick over the paths [ps] in order, each followed by
    what [tick] records behind it: for each path the successors its step
    returned and whether [p.errored] was non-empty when the step came
    back. *)
Fixpoint step_all (ps : list Path)
  : Call Fault State (list (list Path * bool)) :=
  match ps with
  | [] => ret []
  | p :: rest =>
      successors <- tick_path h p ;;
      errs <- gets (fun s => Path_errored p (world (env s))) ;;
      modify (record_path p successors) ;;
      obs <- step_all rest ;;
      ret ((successors, 0 <? len errs) :: obs)
  end.
End Loops.

(** The four lists of the scheduler are four different objects of the
    store, as [__init__] makes them. *)
Definition separate (s : State) : Prop :=
  active (self s) <> deadended (self s) /\
  active (self s) <> trimmed (self s) /\
  active (self s) <> errored (self s) /\
  deadended (self s) <> trimmed (self s) /\
  deadended (self s) <> errored (self s) /\
  trimmed (self s) <> errored (self s) /\
  (active (self s) < length (heap s))%nat /\
  (deadended (self s) < length (heap s))%nat /\
  (trimmed (self s) < length (heap s))%nat /\
  (errored (self s) < length (heap s))%nat.

(** From [s] to [s1] the attributes of the scheduler stayed as they were
    and no list object went away. *)
Definition same_objects (s s1 : State) : Prop :=
  self s1 = self s /\ (length (heap s) <= length (heap s1))%nat.

(** From [s] to [s1] nothing happened to the scheduler but paths appended
    to its active list, in place. *)
Definition seeded_from (s s1 : State) : Prop :=
  same_objects s s1 /\
  (exists seeded,
      deref (active (self s)) s1 = deref (active (self s)) s ++ seeded) /\
  deref (deadended (self s)) s1 = deref (deadended (self s)) s /\
  deref (trimmed (self s)) s1 = deref (trimmed (self s)) s /\
  deref (errored (self s)) s1 = deref (errored (self s)) s.

(** A step that does to the scheduler no more than seeding paths, as
    [analyze_exit] does, whatever its outcome. *)
Definition seeding (h : Methods) : Prop :=
  forall p s, separate s -> seeded_from s (final_state (tick_path h p s)).

(** A step that seeds no path once the active list holds [bound] of
    them. *)
Definition settling (h : Methods) (bound : nat) : Prop :=
  forall p s,
    separate s ->
    (length (deref (active (self s)) (final_state (tick_path h p s)))
     <= Nat.max bound (length (deref (active (self s)) s)))%nat.

(** A step that returns every time and seeds at least one path every
    time. *)
Definition restless (h : Methods) : Prop :=
  forall p s,
    separate s ->
    returns (tick_path h p s) = true /\
    (length (deref (active (self s)) s)
     < length (deref (active (self s)) (final_state (tick_path h p s))))%nat.

(** From [s] to [s1] nothing happened to the scheduler but paths appended
    to its trimmed list, in place. *)
Definition parked_from (s s1 : State) : Prop :=
  same_objects s s1 /\
  deref (active (self s)) s1 = deref (active (self s)) s /\
  deref (deadended (self s)) s1 = deref (deadended (self s)) s /\
  (exists parked,
      deref (trimmed (self s)) s1 = deref (trimmed (self s)) s ++ parked) /\
  deref (errored (self s)) s1 = deref (errored (self s)) s.

(** A filter that does to the scheduler no more than parking paths,
    whatever its outcome. *)
Definition parking (h : Methods) : Prop :=
  forall p s, separate s -> parked_from s (final_state (trim_path h p s)).

(** *** The methods of the class itself *)

Variable Path_continue_path : Path -> Call Fault (Env World) (list Path).

Definition Surveyor_tick_path (p : Path) : Call Fault State (list Path) :=
  outside (Path_continue_path p).

Definition Surveyor_trim_path (p : Path) : Call Fault State bool :=
  ret false.

(** [self.trimmed += paths[mc:]] grows the trimmed list in place;
    [paths[:mc]] is a new list. *)
Definition Surveyor_trim_paths (paths : Ref) : Call Fault State Ref :=
  fun s =>
    let s1 := extend (trimmed (self s))
                (slice_from (_max_concurrency (self s)) (deref paths s)) s in
    let (r, s2) :=
      new_list (slice_to (_max_concurrency (self s1)) (deref paths s1)) s1 in
    Ok r s2.

Definition Surveyor_done : Call Fault State bool :=
  gets (fun s => len (deref (active (self s)) s) =? 0).

Definition Surveyor_methods : Methods :=
  mkMethods Surveyor_tick_path Surveyor_trim_path Surveyor_trim_paths
            Surveyor_done.
End Objects.

Arguments outside {Project Path World Fault A} m _.
Arguments analyze_exit {Project Exit Path World} Path_new e s.
Arguments init {Project Exit Path World} Path_new initial_exit project
  start starts max_concurrency hp e.
Arguments record_path {Project Path ErrorRecord World} Path_errored
  p successors s.
Arguments tick_loop {Project Path ErrorRecord World Fault} Path_errored
  h fuel it i new_active s.
Arguments tick {Project Path ErrorRecord World Fault} Path_errored h fuel s.
Arguments trim_each {Project Path World Fault} h fuel it i kept s.
Arguments trim {Project Path World Fault} h fuel s.
Arguments run_guard {Project Path World Fault} h n _.
Arguments round_end {Project Path World Fault} pdb_set_trace n _.
Arguments run {Project Path ErrorRecord World Fault} Path_errored
  h pdb_set_trace fuel n s.
Arguments step_all {Project Path ErrorRecord World Fault} Path_errored
  h ps _.
Arguments seeding {Project Path World Fault} h.
Arguments settling {Project Path World Fault} h bound.
Arguments restless {Project Path World Fault} h.
Arguments parking {Project Path World Fault} h.
Arguments Surveyor_tick_path {Project Path World Fault}
  Path_continue_path p _.
Arguments Surveyor_methods {Project Path World Fault} Path_continue_path.
Arguments Surveyor_trim_path {Project Path World Fault} p _.
Arguments Surveyor_trim_paths {Project Path World Fault} paths _.
Arguments Surveyor_done {Project Path World Fault} _.
Arguments untrim {Project Path World} s.
Arguments separate {Project Path World} s.
Arguments seeded_from {Project Path World} s s1.
Arguments parked_from {Project Path World} s s1.
Arguments same_objects {Project Path World} s s1.
Arguments deref {Project Path World} r s.
Arguments extend {Project Path World} r l s.
Arguments new_list {Project Path World} l s.
End Live.

(** ** The two models side by side *)

Section View.
Variables Project Path World Fault : Type.

(** The scheduler with its four lists read out of the store. *)
Definition view_self (s : Live.State Project Path World)
  : Surveyor Project Path :=
  mkSurveyor (Live._project (Live.self s))
             (Live._max_concurrency (Live.self s))
             (Live.deref (Live.active (Live.self s)) s)
             (Live.deref (Live.deadended (Live.self s)) s)
             (Live.deref (Live.trimmed (Live.self s)) s)
             (Live.deref (Live.errored (Live.self s)) s)
             (Live._current_tick (Live.self s)).

Definition view (s : Live.State Project Path World)
  : State Project Path World :=
  mkState (view_self s) (Live.env s).

(** An analysis whose step, filter and [done] leave the scheduler alone
    and which keeps the [trim_paths] of the class, as methods on the whole
    state. *)
Definition sealed (tp : Path -> Call Fault (Env World) (list Path))
           (fp : Path -> Call Fault (Env World) bool)
           (d : Surveyor Project Path -> Call Fault (Env World) bool)
  : Live.Methods Project Path World Fault :=
  Live.mkMethods
    (fun p => Live.outside (tp p))
    (fun p => Live.outside (fp p))
    Live.Surveyor_trim_paths
    (fun s => Live.outside (d (view_self s)) s).

(** What [tick] does to the scheduler behind the step of [p], with the
    lists as values. *)
Definition recorded {ErrorRecord : Type}
           (Path_errored : Path -> World -> list ErrorRecord)
           (p : Path) (successors : list Path)
           (s : State Project Path World) : State Project Path World :=
  let s1 := if 0 <? len (Path_errored p (world (env s)))
            then on_self (fun sv => set_errored (errored sv ++ [p]) sv) s
            else s in
  if len successors =? 0
  then on_self (fun sv => set_deadended (deadended sv ++ [p]) sv) s1
  else s1.

(** Two outcomes, one of each model, that agree: the same value or the
    same fault, and the same scheduler and environment. *)
Definition agree {A B : Type} (same : A -> B -> Prop)
           (o : Outcome Fault (Live.State Project Path World) A)
           (o' : Outcome Fault (State Project Path World) B) : Prop :=
  match o, o' with
  | Ok a s, Ok b s' => same a b /\ view s = s'
  | Raise f s, Raise f' s' => f = f' /\ view s = s'
  | _, _ => False
  end.
End View.

(** ** Analyses that overload methods *)

Module Overloads.
Import Demo.

(** A new scheduler in an empty store and a quiet environment. *)
Definition begin (start : option Exit) (starts : option (list Exit))
           (max_concurrency : option Z) : Live.State Project Path World :=
  Live.init Path_new initial_exit tt start starts max_concurrency [] env0.

(** A step that seeds the exit [seed] when it steps path 1, and then steps
    as the class does. *)
Definition seeding_tick_path (seed : Exit) (p : Path)
  : Call Fault (Live.State Project Path World) (list Path) :=
  fun s =>
    Live.outside (continue_path p)
      (if Nat.eqb p 1 then Live.analyze_exit Path_new seed s else s).

Definition seeding_methods (seed : Exit)
  : Live.Methods Project Path World Fault :=
  Live.mkMethods (seeding_tick_path seed)
                 Live.Surveyor_trim_path
                 Live.Surveyor_trim_paths
                 Live.Surveyor_done.

(** A step that binds [self.active] to a longer list when it steps
    path 1: [self.active = self.active + [Path(entry=seed)]]. *)
Definition rebinding_tick_path (seed : Exit) (p : Path)
  : Call Fault (Live.State Project Path World) (list Path) :=
  fun s =>
    Live.outside (continue_path p)
      (if Nat.eqb p 1
       then let (r, s1) :=
              Live.new_list
                (Live.deref (Live.active (Live.self s)) s
                 ++ [Path_new (Live._project (Live.self s)) seed]) s in
            Live.on_self (Live.set_active r) s1
       else s).

Definition rebinding_methods (seed : Exit)
  : Live.Methods Project Path World Fault :=
  Live.mkMethods (rebinding_tick_path seed)
                 Live.Surveyor_trim_path
                 Live.Surveyor_trim_paths
                 Live.Surveyor_done.

(** A step that seeds its own path again and returns no successor. *)
Definition restless_tick_path (p : Path)
  : Call Fault (Live.State Project Path World) (list Path) :=
  fun s => Ok [] (Live.analyze_exit Path_new p s).

Definition restless_methods : Live.Methods Project Path World Fault :=
  Live.mkMethods restless_tick_path
                 Live.Surveyor_trim_path
                 Live.Surveyor_trim_paths
                 Live.Surveyor_done.

(** A filter that parks the even paths it excludes, as the docstring of
    [trim_path] asks, and raises on path 9. *)
Definition parking_trim_path (p : Path)
  : Call Fault (Live.State Project Path World) bool :=
  fun s =>
    if Nat.eqb p 9 then Raise 99%nat s
    else if Nat.even p
         then Ok true (Live.extend (Live.trimmed (Live.self s)) [p] s)
         else Ok false s.

Definition parking_methods : Live.Methods Project Path World Fault :=
  Live.mkMethods (Live.Surveyor_tick_path continue_path)
                 parking_trim_path
                 Live.Surveyor_trim_paths
                 Live.Surveyor_done.

(** One active path, 1, under the limit of the class. *)
Definition one_path : Live.State Project Path World :=
  begin (Some 1%nat) None None.

(** After a tick whose step of path 1 seeds path 0, which dead-ends with
    an error when its turn comes in the same tick. *)
Definition after_seeding_0 : Live.State Project Path World :=
  Live.mkState (Live.mkSurveyor tt 10 4%nat 1%nat 2%nat 3%nat 1)
               [[1; 0]; [0]; []; [0]; [5; 9; 13]]%nat
               (mkEnv false false [(0, 1)]%nat).

(** After a tick whose step of path 1 seeds path 3, which goes on with an
    error. *)
Definition after_seeding_3 : Live.State Project Path World :=
  Live.mkState (Live.mkSurveyor tt 10 4%nat 1%nat 2%nat 3%nat 1)
               [[1; 3]; []; []; [3]; [5; 9; 13; 7]]%nat
               (mkEnv false false [(3, 7)]%nat).

(** After a tick whose step of path 1 seeds path 2, which raises. *)
Definition after_seeded_fault : Live.State Project Path World :=
  Live.mkState (Live.mkSurveyor tt 10 0%nat 1%nat 2%nat 3%nat 0)
               [[1; 2]; []; []; []]%nat env0.

(** After a tick whose step of path 1 binds [active] to a longer list:
    the loop has not seen that list. *)
Definition after_rebinding : Live.State Project Path World :=
  Live.mkState (Live.mkSurveyor tt 10 5%nat 1%nat 2%nat 3%nat 1)
               [[1]; []; []; []; [1; 3]; [5; 9; 13]]%nat env0.

(** Three active paths under a limit of 2, and what a [trim] leaves whose
    filter parks path 4 and raises on path 9. *)
Definition three_paths : Live.State Project Path World :=
  begin None (Some [1; 4; 9]%nat) (Some 2).
Definition after_parking_fault : Live.State Project Path World :=
  Live.mkState (Live.mkSurveyor tt 2 0%nat 1%nat 2%nat 3%nat 0)
               [[1; 4; 9]; []; [4]; []]%nat env0.

(** The methods of the class over the paths of [Demo]. *)
Definition class_methods : Live.Methods Project Path World Fault :=
  Live.Surveyor_methods continue_path.

(** The session at the prompt switches single-stepping off. *)
Definition pdb_set_trace
  : Call Fault (Live.State Project Path World) unit :=
  Live.outside Demo.pdb_set_trace.

Definition tick (h : Live.Methods Project Path World Fault) :=
  Live.tick Path_errored h.
Definition trim (h : Live.Methods Project Path World Fault) :=
  Live.trim h.
Definition run (h : Live.Methods Project Path World Fault) :=
  Live.run Path_errored h pdb_set_trace.
End Overloads.

(** ** Properties *)

(** *** Slices *)

Lemma slice_app {A : Type} (k : Z) (l : list A) :
  slice_to k l ++ slice_from k l = l.
Proof. apply firstn_skipn. Qed.

Lemma slice_to_nonneg {A : Type} (k : Z) (l : list A) :
  0 <= k -> slice_to k l = firstn (Z.to_nat k) l.
Proof.
  intros Hk. unfold slice_to, slice_start.
  destruct (Z.leb_spec 0 k); [reflexivity | lia].
Qed.

Lemma slice_from_nonneg {A : Type} (k : Z) (l : list A) :
  0 <= k -> slice_from k l = skipn (Z.to_nat k) l.
Proof.
  intros Hk. unfold slice_from, slice_start.
  destruct (Z.leb_spec 0 k); [reflexivity | lia].
Qed.

Lemma len_slices {A : Type} (k : Z) (l : list A) :
  len (slice_to k l) + len (slice_from k l) = len l.
Proof.
  rewrite <- (slice_app k l) at 3. unfold len. rewrite length_app. lia.
Qed.

Lemma len_app {A : Type} (l l' : list A) : len (l ++ l') = len l + len l'.
Proof. unfold len. rewrite length_app. lia. Qed.

Lemma len_zero_iff {A : Type} (l : list A) : (len l =? 0) = true <-> l = [].
Proof.
  unfold len. destruct l; simpl; split; intros H; try reflexivity;
    discriminate.
Qed.

(** *** Observations *)

Section Chosen.
Variables Path B : Type.
Variable sel : B -> bool.

Lemma chosen_cons (p : Path) (ps : list Path) (b : B) (obs : list B) :
  chosen sel (p :: ps) (b :: obs) =
  (if sel b then [p] else []) ++ chosen sel ps obs.
Proof. unfold chosen. simpl. destruct (sel b); reflexivity. Qed.

Lemma in_chosen (p : Path) (ps : list Path) (obs : list B) :
  In p (chosen sel ps obs) <->
  exists b, In (p, b) (combine ps obs) /\ sel b = true.
Proof.
  unfold chosen. rewrite in_map_iff. split.
  - intros [[q b] [Hq Hin]]. simpl in Hq. subst q.
    apply filter_In in Hin. simpl in Hin. exists b. tauto.
  - intros [b [Hin Hb]]. exists (p, b). split; [reflexivity |].
    apply filter_In. simpl. tauto.
Qed.

Lemma length_chosen (ps : list Path) (obs : list B) :
  (length (chosen sel ps obs) <= length ps)%nat.
Proof.
  unfold chosen. rewrite length_map.
  eapply Nat.le_trans; [apply filter_length_le |].
  rewrite length_combine. apply Nat.le_min_l.
Qed.
End Chosen.

(** *** The methods, one by one *)

Ltac call_unfold :=
  unfold bind, outside, lift, gets, modify, ret, on_self, set_env in *.

Section Facts.
Variables Project Path ErrorRecord World Fault : Type.
Variable Path_errored : Path -> World -> list ErrorRecord.
Variable pdb_set_trace : Call Fault (Env World) unit.
Variable h : Hooks Project Path World Fault.

Lemma same_but_logs_refl (sv : Surveyor Project Path) : same_but_logs sv sv.
Proof. repeat split. Qed.

Lemma same_but_logs_trans (sv1 sv2 sv3 : Surveyor Project Path) :
  same_but_logs sv1 sv2 -> same_but_logs sv2 sv3 -> same_but_logs sv1 sv3.
Proof.
  unfold same_but_logs. intros (A1 & A2 & A3 & A4 & A5) (B1 & B2 & B3 & B4 & B5).
  repeat split; congruence.
Qed.

(** When every step of the loop returns, the loop returns the successors
    in order behind the accumulator and has logged the paths. *)
Lemma tick_loop_ok (ps : list Path) :
  forall acc s obs e',
    step_all Path_errored h ps (env s) = Ok obs e' ->
    tick_loop Path_errored h ps acc s =
    Ok (acc ++ concat (map fst obs)) (mkState (logged ps obs (self s)) e').
Proof.
  induction ps as [|p rest IH]; intros acc [sv e] obs e' H; simpl in *.
  - inversion H; subst. unfold ret, logged. simpl.
    destruct sv; simpl. unfold set_deadended, set_errored; simpl.
    rewrite !app_nil_r. reflexivity.
  - call_unfold. simpl in *.
    destruct (tick_path h p e) as [succ e1|f e1]; [|discriminate].
    destruct (step_all Path_errored h rest e1) as [obs' e2|f e2] eqn:Hrest;
      [|discriminate].
    inversion H; subst; clear H.
    set (sv1 := if 0 <? len (Path_errored p (world e1))
                then set_errored (errored sv ++ [p]) sv else sv).
    set (sv2 := if len succ =? 0
                then set_deadended (deadended sv1 ++ [p]) sv1 else sv1).
    assert (Hgo : forall s2, s2 = mkState sv2 e1 ->
              tick_loop Path_errored h rest (acc ++ succ) s2 =
              Ok ((acc ++ succ) ++ concat (map fst obs'))
                 (mkState (logged rest obs' sv2) e')).
    { intros s2 ->. apply IH. exact Hrest. }
    assert (Hlog : logged (p :: rest)
                     ((succ, 0 <? len (Path_errored p (world e1))) :: obs') sv
                   = logged rest obs' sv2).
    { unfold logged, sv2, sv1. rewrite !chosen_cons.
      unfold had_errors, no_successors; simpl.
      destruct (0 <? len (Path_errored p (world e1)));
        destruct (len succ =? 0); destruct sv; simpl;
        unfold set_deadended, set_errored; simpl;
        rewrite <- ?app_assoc; reflexivity. }
    rewrite Hlog. simpl map. simpl concat. rewrite app_assoc.
    rewrite <- (Hgo _ eq_refl). unfold sv2, sv1. simpl.
    destruct (0 <? len (Path_errored p (world e1)));
      destruct (len succ =? 0); reflexivity.
Qed.

(** The loop raises exactly when a step does, and then the same fault. *)
Lemma tick_loop_fault (ps : list Path) :
  forall acc s,
    fault_of (tick_loop Path_errored h ps acc s) =
    fault_of (step_all Path_errored h ps (env s)).
Proof.
  induction ps as [|p rest IH]; intros acc [sv e]; simpl.
  - reflexivity.
  - call_unfold. simpl.
    destruct (tick_path h p e) as [succ e1|f e1]; [|reflexivity].
    simpl.
    transitivity (fault_of (step_all Path_errored h rest e1)).
    + destruct (0 <? len (Path_errored p (world e1)));
        destruct (len succ =? 0); simpl; rewrite IH; reflexivity.
    + destruct (step_all Path_errored h rest e1); reflexivity.
Qed.

(** Whatever the outcome, the loop touches the two logs only. *)
Lemma tick_loop_frame (ps : list Path) :
  forall acc s,
    same_but_logs (self s)
      (self (final_state (tick_loop Path_errored h ps acc s))).
Proof.
  induction ps as [|p rest IH]; intros acc [sv e]; simpl.
  - apply same_but_logs_refl.
  - call_unfold. simpl.
    destruct (tick_path h p e) as [succ e1|f e1];
      [|apply same_but_logs_refl].
    simpl.
    destruct (0 <? len (Path_errored p (world e1)));
      destruct (len succ =? 0); simpl;
      (eapply same_but_logs_trans; [|apply IH]); simpl;
      repeat split.
Qed.

Lemma tick_unfold (s : State Project Path World) :
  tick Path_errored h s =
  match tick_loop Path_errored h (active (self s)) [] s with
  | Ok new_active s1 =>
      let sv' := set_current_tick (_current_tick (self s1) + 1)
                   (set_active new_active (self s1)) in
      Ok sv' (mkState sv' (env s1))
  | Raise f s1 => Raise f s1
  end.
Proof.
  unfold tick. call_unfold.
  destruct (tick_loop Path_errored h (active (self s)) [] s); reflexivity.
Qed.

Lemma tick_ok (s : State Project Path World) obs e' :
  step_all Path_errored h (active (self s)) (env s) = Ok obs e' ->
  let sv' := set_current_tick (_current_tick (self s) + 1)
               (set_active (concat (map fst obs))
                  (logged (active (self s)) obs (self s))) in
  tick Path_errored h s = Ok sv' (mkState sv' e').
Proof.
  intros H. rewrite tick_unfold, (tick_loop_ok _ [] s H). reflexivity.
Qed.

Lemma tick_fault (s : State Project Path World) :
  fault_of (tick Path_errored h s) =
  fault_of (step_all Path_errored h (active (self s)) (env s)).
Proof.
  rewrite <- (tick_loop_fault (active (self s)) [] s), tick_unfold.
  destruct (tick_loop Path_errored h (active (self s)) [] s); reflexivity.
Qed.

Lemma tick_frame (s : State Project Path World) :
  _project (self (final_state (tick Path_errored h s))) = _project (self s) /\
  _max_concurrency (self (final_state (tick Path_errored h s))) =
    _max_concurrency (self s) /\
  trimmed (self (final_state (tick Path_errored h s))) = trimmed (self s).
Proof.
  pose proof (tick_loop_frame (active (self s)) [] s) as F.
  rewrite tick_unfold.
  destruct (tick_loop Path_errored h (active (self s)) [] s) as [na s1|f s1];
    simpl in *; destruct F as (F1 & F2 & F3 & F4 & F5);
    repeat split; assumption.
Qed.

(** The filter pass of [trim]. *)
Lemma trim_each_ok (ps : list Path) :
  forall s answers e',
    exclude_all h ps (env s) = Ok answers e' ->
    trim_each h ps s = Ok (kept_of ps answers) (mkState (self s) e').
Proof.
  induction ps as [|p rest IH]; intros [sv e] answers e' H; simpl in *.
  - inversion H; subst. reflexivity.
  - call_unfold. simpl in *.
    destruct (trim_path h p e) as [b e1|f e1]; [|discriminate].
    destruct (exclude_all h rest e1) as [bs e2|f e2] eqn:Hrest;
      [|discriminate].
    inversion H; subst; clear H.
    rewrite (IH (mkState sv e1) bs e' Hrest).
    unfold kept_of. rewrite chosen_cons. destruct b; reflexivity.
Qed.

Lemma trim_each_fault (ps : list Path) :
  forall s, fault_of (trim_each h ps s) = fault_of (exclude_all h ps (env s)).
Proof.
  induction ps as [|p rest IH]; intros [sv e]; simpl.
  - reflexivity.
  - call_unfold. simpl.
    destruct (trim_path h p e) as [b e1|f e1]; [|reflexivity].
    specialize (IH (mkState sv e1)). simpl in IH.
    destruct (trim_each h rest (mkState sv e1));
      destruct (exclude_all h rest e1); simpl in *; congruence.
Qed.

Lemma trim_each_frame (ps : list Path) :
  forall s, self (final_state (trim_each h ps s)) = self s.
Proof.
  induction ps as [|p rest IH]; intros [sv e]; simpl.
  - reflexivity.
  - call_unfold. simpl.
    destruct (trim_path h p e) as [b e1|f e1]; [|reflexivity].
    specialize (IH (mkState sv e1)). simpl in IH.
    destruct (trim_each h rest (mkState sv e1)); simpl in *; exact IH.
Qed.

Lemma trim_each_length (ps : list Path) :
  forall s kept s',
    trim_each h ps s = Ok kept s' -> (length kept <= length ps)%nat.
Proof.
  induction ps as [|p rest IH]; intros [sv e] kept s' H; simpl in *.
  - inversion H; subst. simpl. lia.
  - call_unfold. simpl in *.
    destruct (trim_path h p e) as [b e1|f e1]; [|discriminate].
    destruct (trim_each h rest (mkState sv e1)) as [k s1|f s1] eqn:Hrest;
      [|discriminate].
    apply IH in Hrest. inversion H; subst. destruct b; simpl; lia.
Qed.

Lemma trim_unfold (s : State Project Path World) :
  trim h s =
  match trim_each h (active (self s)) s with
  | Ok kept s1 =>
      match trim_paths h kept s1 with
      | Ok new_active s2 => Ok tt (on_self (set_active new_active) s2)
      | Raise f s2 => Raise f s2
      end
  | Raise f s1 => Raise f s1
  end.
Proof.
  unfold trim. unfold bind, gets, modify.
  destruct (trim_each h (active (self s)) s) as [kept s1|f s1];
    [|reflexivity].
  destruct (trim_paths h kept s1); reflexivity.
Qed.

(** *** untrim *)

Lemma untrim_self_noop (sv : Surveyor Project Path) :
  _max_concurrency sv - len (active sv) <= 0 \/ trimmed sv = [] ->
  untrim_self sv = sv.
Proof.
  intros H. unfold untrim_self.
  destruct (Z.ltb_spec 0 (_max_concurrency sv - len (active sv)));
    simpl; [|reflexivity].
  destruct H as [H|H]; [lia|]. rewrite H. reflexivity.
Qed.

Lemma untrim_self_moves (sv : Surveyor Project Path) :
  let available := _max_concurrency sv - len (active sv) in
  0 < available -> trimmed sv <> [] ->
  active (untrim_self sv) =
    active sv ++ firstn (Z.to_nat available) (trimmed sv) /\
  trimmed (untrim_self sv) = skipn (Z.to_nat available) (trimmed sv).
Proof.
  intros available Hpos Hne. unfold untrim_self. fold available.
  destruct (Z.ltb_spec 0 available); [|lia].
  destruct (Z.ltb_spec 0 (len (trimmed sv))) as [_|Hl].
  - simpl. rewrite slice_to_nonneg, slice_from_nonneg by lia. split; reflexivity.
  - destruct (trimmed sv); [congruence|]. unfold len in Hl. simpl in Hl. lia.
Qed.

Lemma untrim_self_frame (sv : Surveyor Project Path) :
  _project (untrim_self sv) = _project sv /\
  _max_concurrency (untrim_self sv) = _max_concurrency sv /\
  deadended (untrim_self sv) = deadended sv /\
  errored (untrim_self sv) = errored sv /\
  _current_tick (untrim_self sv) = _current_tick sv.
Proof.
  unfold untrim_self.
  destruct ((0 <? _max_concurrency sv - len (active sv))
            && (0 <? len (trimmed sv))); simpl; repeat split.
Qed.

Lemma untrim_self_sum (sv : Surveyor Project Path) :
  len (active (untrim_self sv)) + len (trimmed (untrim_self sv)) =
  len (active sv) + len (trimmed sv).
Proof.
  unfold untrim_self.
  destruct ((0 <? _max_concurrency sv - len (active sv))
            && (0 <? len (trimmed sv))); simpl; [|reflexivity].
  rewrite len_app.
  pose proof (len_slices (_max_concurrency sv - len (active sv)) (trimmed sv)).
  lia.
Qed.
End Facts.

(** *** A round of steps *)

Section Round.
Variables Project Path ErrorRecord World Fault : Type.
Variable Path_errored : Path -> World -> list ErrorRecord.
Variable h : Hooks Project Path World Fault.

Lemma step_all_length (ps : list Path) :
  forall e obs e',
    step_all Path_errored h ps e = Ok obs e' -> length obs = length ps.
Proof.
  induction ps as [|p rest IH]; intros e obs e' H; simpl in *.
  - inversion H; reflexivity.
  - call_unfold.
    destruct (tick_path h p e) as [succ e1|f e1]; [|discriminate].
    destruct (step_all Path_errored h rest e1) as [obs' e2|f e2] eqn:Hrest;
      [|discriminate].
    inversion H; subst. simpl. f_equal. eapply IH; eassumption.
Qed.

(** A step function that neither raises nor changes anything outside. *)
Lemma step_all_pure (f : Path -> list Path) (ps : list Path) (e : Env World) :
  (forall p e0, tick_path h p e0 = Ok (f p) e0) ->
  step_all Path_errored h ps e =
  Ok (map (fun p => (f p, 0 <? len (Path_errored p (world e)))) ps) e.
Proof.
  intros Hf. induction ps as [|p rest IH]; simpl.
  - reflexivity.
  - call_unfold. rewrite Hf, IH. reflexivity.
Qed.

Lemma concat_map_fst_pure (f : Path -> list Path) (g : Path -> bool)
      (ps : list Path) :
  concat (map fst (map (fun p => (f p, g p)) ps)) = flat_map f ps.
Proof.
  induction ps as [|p rest IH]; simpl; [reflexivity|]. now rewrite IH.
Qed.

End Round.

(** *** Admission control *)

Section Admission.
Variables Project Path ErrorRecord World Fault : Type.
Variable Path_errored : Path -> World -> list ErrorRecord.
Variable tp : Path -> Call Fault (Env World) (list Path).
Variable fp : Path -> Call Fault (Env World) bool.
Variable d : Surveyor Project Path -> Call Fault (Env World) bool.

(** [trim] with the [trim_paths] of the class: the filter pass, then the
    cut at the concurrency limit. *)
Lemma trim_overloading (s : State Project Path World) :
  trim (overloading tp fp d) s =
  match trim_each (overloading tp fp d) (active (self s)) s with
  | Ok kept s1 =>
      Ok tt (on_self
               (fun sv =>
                  set_active (slice_to (_max_concurrency sv) kept)
                    (set_trimmed
                       (trimmed sv ++ slice_from (_max_concurrency sv) kept)
                       sv)) s1)
  | Raise f s1 => Raise f s1
  end.
Proof.
  rewrite trim_unfold.
  destruct (trim_each (overloading tp fp d) (active (self s)) s);
    reflexivity.
Qed.

Lemma trim_overloading_frame (s : State Project Path World) :
  let sv' := self (final_state (trim (overloading tp fp d) s)) in
  _project sv' = _project (self s) /\
  _max_concurrency sv' = _max_concurrency (self s) /\
  deadended sv' = deadended (self s) /\
  errored sv' = errored (self s) /\
  _current_tick sv' = _current_tick (self s).
Proof.
  cbv zeta. rewrite trim_overloading.
  pose proof (trim_each_frame (overloading tp fp d) (active (self s)) s) as F.
  destruct (trim_each (overloading tp fp d) (active (self s)) s);
    simpl in *; rewrite F; repeat split.
Qed.

Lemma trim_overloading_sum (s : State Project Path World) :
  let sv' := self (final_state (trim (overloading tp fp d) s)) in
  len (active sv') + len (trimmed sv') <=
  len (active (self s)) + len (trimmed (self s)).
Proof.
  cbv zeta. rewrite trim_overloading.
  pose proof (trim_each_frame (overloading tp fp d) (active (self s)) s) as F.
  destruct (trim_each (overloading tp fp d) (active (self s)) s)
    as [kept s1|f s1] eqn:E; simpl in *; rewrite F; [|lia].
  apply trim_each_length in E.
  rewrite len_app.
  pose proof (len_slices (_max_concurrency (self s)) kept).
  unfold len in *. lia.
Qed.

(** The filter of the class excludes nothing. *)
Lemma trim_each_default (cp : Path -> Call Fault (Env World) (list Path))
      (ps : list Path) (s : State Project Path World) :
  trim_each (Surveyor_hooks cp) ps s = Ok ps s.
Proof.
  destruct s as [sv e]. induction ps as [|p rest IH]; simpl.
  - reflexivity.
  - call_unfold. simpl in *. rewrite IH. reflexivity.
Qed.

Lemma trim_default (cp : Path -> Call Fault (Env World) (list Path))
      (s : State Project Path World) :
  trim (Surveyor_hooks cp) s =
  Ok tt (on_self
           (fun sv =>
              set_active (slice_to (_max_concurrency sv) (active sv))
                (set_trimmed
                   (trimmed sv ++ slice_from (_max_concurrency sv) (active sv))
                   sv)) s).
Proof. rewrite trim_unfold, trim_each_default. reflexivity. Qed.

End Admission.

(** *** Capacity *)

Section Capacity.
Variables Project Path ErrorRecord World Fault : Type.
Variable Path_errored : Path -> World -> list ErrorRecord.

Lemma untrim_self_app (sv : Surveyor Project Path) :
  active (untrim_self sv) ++ trimmed (untrim_self sv) =
  active sv ++ trimmed sv.
Proof.
  unfold untrim_self.
  destruct ((0 <? _max_concurrency sv - len (active sv))
            && (0 <? len (trimmed sv))); simpl; [|reflexivity].
  rewrite <- app_assoc, slice_app. reflexivity.
Qed.

(** C3, for a limit that is not negative.  With the filter and the
    [trim_paths] of the class and a concurrency limit of at least 0, [trim]
    returns, keeps as active set the first [_max_concurrency] paths of the
    old one in order, appends the others in order to [trimmed], and leaves
    at most [_max_concurrency] active paths. *)
Theorem trim_default_keeps_the_first
        (cp : Path -> Call Fault (Env World) (list Path))
        (s : State Project Path World) :
  0 <= _max_concurrency (self s) ->
  exists s',
    trim (Surveyor_hooks cp) s = Ok tt s' /\
    env s' = env s /\
    active (self s') =
      firstn (Z.to_nat (_max_concurrency (self s))) (active (self s)) /\
    trimmed (self s') =
      trimmed (self s) ++
      skipn (Z.to_nat (_max_concurrency (self s))) (active (self s)) /\
    len (active (self s')) <= _max_concurrency (self s').
Proof.
  intros Hmc. eexists. split; [apply trim_default|]. simpl.
  rewrite slice_to_nonneg, slice_from_nonneg by assumption.
  repeat split. unfold len. rewrite length_firstn. lia.
Qed.

(** C4.  [untrim] computes [available = _max_concurrency - len(active)].
    When [available > 0] and [trimmed] is not empty, a front part [moved]
    of [trimmed], of exactly [min(available, len(trimmed))] paths, goes to
    the back of [active] in its order and the rest stays in [trimmed];
    otherwise nothing changes.  The active set never grows beyond the
    limit: it either keeps its length or ends with at most
    [_max_concurrency] paths. *)
Theorem untrim_moves_from_the_front (s : State Project Path World) :
  let sv := self s in
  let available := _max_concurrency sv - len (active sv) in
  @untrim Project Path World Fault s = Ok tt (mkState (untrim_self sv) (env s)) /\
  (0 < available -> trimmed sv <> [] ->
   exists moved,
     active (untrim_self sv) = active sv ++ moved /\
     trimmed sv = moved ++ trimmed (untrim_self sv) /\
     len moved = Z.min available (len (trimmed sv))) /\
  (available <= 0 \/ trimmed sv = [] -> untrim_self sv = sv) /\
  (len (active (untrim_self sv)) = len (active sv) \/
   len (active (untrim_self sv)) <= _max_concurrency sv).
Proof.
  intros sv available. split; [reflexivity|]. split; [|split].
  - intros Hpos Hne.
    destruct (untrim_self_moves sv Hpos Hne) as [Ha Ht]. fold available in Ha, Ht.
    exists (firstn (Z.to_nat available) (trimmed sv)).
    split; [exact Ha|]. split.
    + rewrite Ht. symmetry. apply firstn_skipn.
    + unfold len. rewrite length_firstn. lia.
  - apply untrim_self_noop.
  - destruct (Z.ltb_spec 0 available) as [Hpos|Hle].
    + destruct (trimmed sv) eqn:Et.
      * left. rewrite untrim_self_noop; [reflexivity|right; exact Et].
      * right.
        assert (Hne : trimmed sv <> []) by (rewrite Et; discriminate).
        destruct (untrim_self_moves sv Hpos Hne) as [Ha _].
        fold available in Ha. rewrite Ha, len_app.
        unfold len at 2. rewrite length_firstn.
        unfold available in *. lia.
    + left. rewrite untrim_self_noop; [reflexivity|left; exact Hle].
Qed.

(** C8.  After [trim] followed by [untrim] (with the [trim_paths] of the
    class and any per-path filter), whatever the outcome, the active and
    the trimmed paths together are no more than before.  With the filter
    of the class, which excludes nothing, both calls return and the two
    sets together hold the same paths as before: paths were moved, none
    was made or lost. *)
Theorem trim_then_untrim_creates_no_path
        (tp : Path -> Call Fault (Env World) (list Path))
        (fp : Path -> Call Fault (Env World) bool)
        (d : Surveyor Project Path -> Call Fault (Env World) bool)
        (cp : Path -> Call Fault (Env World) (list Path))
        (s : State Project Path World) :
  (let s' := final_state (bind (trim (overloading tp fp d))
                               (fun _ => untrim (Fault:=Fault)) s) in
   len (active (self s')) + len (trimmed (self s')) <=
   len (active (self s)) + len (trimmed (self s))) /\
  (exists s',
      bind (trim (Surveyor_hooks cp)) (fun _ => untrim (Fault:=Fault)) s =
        Ok tt s' /\
      len (active (self s')) + len (trimmed (self s')) =
        len (active (self s)) + len (trimmed (self s)) /\
      Permutation (active (self s') ++ trimmed (self s'))
                  (active (self s) ++ trimmed (self s))).
Proof.
  split.
  - cbv zeta. pose proof (trim_overloading_sum tp fp d s) as Hs.
    cbv zeta in Hs. unfold bind.
    destruct (trim (overloading tp fp d) s) as [[] s1|f s1]; simpl in *.
    + rewrite untrim_self_sum. exact Hs.
    + exact Hs.
  - unfold bind. rewrite trim_default. eexists. split; [reflexivity|].
    simpl. split.
    + rewrite untrim_self_sum. simpl. rewrite len_app.
      pose proof (len_slices (_max_concurrency (self s)) (active (self s))).
      lia.
    + rewrite untrim_self_app. simpl.
      rewrite <- (slice_app (_max_concurrency (self s)) (active (self s))) at 3.
      rewrite <- app_assoc. apply Permutation_app_head.
      apply Permutation_app_comm.
Qed.

(** C10.  Whatever their outcome, [tick] leaves [trimmed] as it was, and
    [trim] (with the [trim_paths] of the class) and [untrim] leave
    [deadended] and [errored] as they were. *)
Theorem methods_keep_to_their_sets
        (h : Hooks Project Path World Fault)
        (tp : Path -> Call Fault (Env World) (list Path))
        (fp : Path -> Call Fault (Env World) bool)
        (d : Surveyor Project Path -> Call Fault (Env World) bool)
        (s : State Project Path World) :
  trimmed (self (final_state (tick Path_errored h s))) = trimmed (self s) /\
  deadended (self (final_state (trim (overloading tp fp d) s))) =
    deadended (self s) /\
  errored (self (final_state (trim (overloading tp fp d) s))) =
    errored (self s) /\
  deadended (self (final_state (@untrim Project Path World Fault s))) =
    deadended (self s) /\
  errored (self (final_state (@untrim Project Path World Fault s))) =
    errored (self s).
Proof.
  split; [apply tick_frame|].
  destruct (trim_overloading_frame tp fp d s) as (_ & _ & Hd & He & _).
  split; [exact Hd|]. split; [exact He|].
  simpl. destruct (untrim_self_frame (self s)) as (_ & _ & Hd' & He' & _).
  split; assumption.
Qed.
End Capacity.

(** *** Construction *)

Section Construction.
Variables Project Exit Path : Type.
Variable Path_new : Project -> Exit -> Path.
Variable initial_exit : Project -> Exit.

Lemma analyze_exits (es : list Exit) :
  forall sv : Surveyor Project Path,
    fold_left (fun sv0 e => analyze_exit Path_new e sv0) es sv =
    set_active (active sv ++ map (Path_new (_project sv)) es) sv.
Proof.
  induction es as [|e rest IH]; intros sv; simpl.
  - rewrite app_nil_r. destruct sv; reflexivity.
  - rewrite IH. unfold analyze_exit, set_active. simpl.
    rewrite <- app_assoc. reflexivity.
Qed.

(** The fields of a new scheduler, whatever is passed: the single start
    seeds first, then the units of [starts] in order, the project's initial
    exit when neither is passed. *)
Lemma init_fields
      (project : Project) (start : option Exit)
      (starts : option (list Exit)) (max_concurrency : option Z) :
  init Path_new initial_exit project start starts max_concurrency =
  mkSurveyor project
    (match max_concurrency with None => 10 | Some m => m end)
    (match start with Some e => [Path_new project e] | None => [] end ++
     match starts with Some es => map (Path_new project) es | None => [] end ++
     match start, starts with
     | None, None => [Path_new project (initial_exit project)]
     | _, _ => []
     end)
    [] [] [] 0.
Proof.
  unfold init.
  destruct start as [e|]; destruct starts as [es|]; simpl;
    rewrite ?analyze_exits; simpl; rewrite ?app_nil_r; reflexivity.
Qed.

(** C5.  Seeding goes by one of three modes.  With neither a single start
    nor a sequence of starts, the active set holds exactly one path, made
    from the initial exit of the project; with a single start it holds the
    path of that start; with a sequence of starts it holds one path per
    unit, in order, so that three start units give an active set of length
    three.  In each mode the three other sets are empty and the tick
    counter is 0, and the concurrency limit is 10 unless one is passed. *)
Theorem init_seeds_by_one_of_three_modes
        (project : Project) (max_concurrency : option Z) :
  let limit := match max_concurrency with None => 10 | Some m => m end in
  init Path_new initial_exit project None None max_concurrency =
    mkSurveyor project limit
               [Path_new project (initial_exit project)] [] [] [] 0 /\
  (forall e,
      init Path_new initial_exit project (Some e) None max_concurrency =
      mkSurveyor project limit [Path_new project e] [] [] [] 0) /\
  (forall es,
      init Path_new initial_exit project None (Some es) max_concurrency =
      mkSurveyor project limit (map (Path_new project) es) [] [] [] 0) /\
  (forall a b c,
      let sv := init Path_new initial_exit project None (Some [a; b; c])
                     max_concurrency in
      active sv = [Path_new project a; Path_new project b; Path_new project c]
      /\ length (active sv) = 3%nat
      /\ deadended sv = [] /\ errored sv = [] /\ trimmed sv = []
      /\ _current_tick sv = 0) /\
  (forall start starts,
      _max_concurrency (init Path_new initial_exit project start starts None)
      = 10).
Proof.
  cbv zeta. repeat match goal with |- _ /\ _ => split end.
  - apply init_fields.
  - intros e. apply init_fields.
  - intros es. rewrite init_fields. simpl. rewrite app_nil_r. reflexivity.
  - intros a b c. rewrite init_fields. simpl. repeat split.
  - intros start starts. rewrite init_fields. reflexivity.
Qed.
End Construction.

(** *** The loop *)

Section Loop.
Variables Project Path ErrorRecord World Fault : Type.
Variable Path_errored : Path -> World -> list ErrorRecord.
Variable pdb_set_trace : Call Fault (Env World) unit.

Section AnyHooks.
Variable h : Hooks Project Path World Fault.

Lemma run_guard_unfold (n : option Z) (s : State Project Path World) :
  run_guard h n s =
  match done h (self s) (env s) with
  | Ok b e' =>
      Ok (negb b && match n with None => true | Some k => 0 <? k end)
         (mkState (self s) e')
  | Raise f e' => Raise f (mkState (self s) e')
  end.
Proof.
  unfold run_guard. call_unfold.
  destruct (done h (self s) (env s)); reflexivity.
Qed.

Lemma run_guard_self (n : option Z) (s : State Project Path World) :
  self (final_state (run_guard h n s)) = self s.
Proof.
  rewrite run_guard_unfold.
  destruct (done h (self s) (env s)); reflexivity.
Qed.

Lemma run_body_unfold (n : option Z) (s : State Project Path World) :
  run_body Path_errored pdb_set_trace h n s =
  match one_round Path_errored h s with
  | Ok _ s2 => after_round pdb_set_trace n s2
  | Raise f s2 => Raise f s2
  end.
Proof.
  unfold run_body, one_round, after_round, spent. unfold bind.
  destruct (tick Path_errored h s) as [sv s1|f s1]; [|reflexivity].
  destruct (trim h s1) as [[] s2|f s2]; [|reflexivity].
  unfold untrim, modify, gets, outside, lift, ret, on_self, set_env.
  simpl.
  destruct (STOP_RUNS (env s2)); [reflexivity|]. simpl.
  destruct (PAUSE_RUNS (env s2)); [|reflexivity]. simpl.
  destruct (pdb_set_trace (env s2)) as [[] e3|f e3]; reflexivity.
Qed.

Lemma run_unfold (fuel : nat) (n : option Z) (s : State Project Path World) :
  run Path_errored pdb_set_trace h (S fuel) n s =
  match run_guard h n s with
  | Raise f s1 => Some (Raise f s1)
  | Ok false s1 => Some (Ok (self s1) s1)
  | Ok true s1 =>
      match one_round Path_errored h s1 with
      | Raise f s2 => Some (Raise f s2)
      | Ok _ s2 =>
          match after_round pdb_set_trace n s2 with
          | Raise f s3 => Some (Raise f s3)
          | Ok None s3 => Some (Ok (self s3) s3)
          | Ok (Some n') s3 => run Path_errored pdb_set_trace h fuel n' s3
          end
      end
  end.
Proof.
  simpl. destruct (run_guard h n s) as [[|] s1|f s1]; try reflexivity.
  rewrite run_body_unfold.
  destruct (one_round Path_errored h s1); reflexivity.
Qed.

Lemma after_round_self (n : option Z) (s : State Project Path World) :
  self (final_state (after_round pdb_set_trace n s)) = self s.
Proof.
  unfold after_round.
  destruct (STOP_RUNS (env s)); [reflexivity|].
  destruct (PAUSE_RUNS (env s)); [|reflexivity].
  destruct (pdb_set_trace (env s)); reflexivity.
Qed.

Lemma after_round_value (n : option Z) (s : State Project Path World) r s' :
  after_round pdb_set_trace n s = Ok r s' ->
  r = (if STOP_RUNS (env s) then None else Some (spent n)).
Proof.
  unfold after_round.
  destruct (STOP_RUNS (env s)); [intros H; inversion H; reflexivity|].
  destruct (PAUSE_RUNS (env s)).
  - destruct (pdb_set_trace (env s)); intros H; inversion H; reflexivity.
  - intros H; inversion H; reflexivity.
Qed.

(** The body of the loop, statement by statement. *)
Lemma run_body_order (n : option Z) (s : State Project Path World) :
  run_body Path_errored pdb_set_trace h n s =
  bind (tick Path_errored h)
       (fun _ => bind (trim h)
                      (fun _ => bind untrim
                                     (fun _ => after_round pdb_set_trace n))) s.
Proof.
  rewrite run_body_unfold. unfold one_round, bind.
  destruct (tick Path_errored h s) as [sv s1|f s1]; [|reflexivity].
  destruct (trim h s1) as [[] s2|f s2]; reflexivity.
Qed.

(** A tick that returns has counted one; one that raises has not. *)
Lemma tick_counter (s : State Project Path World) :
  _current_tick (self (final_state (tick Path_errored h s))) =
  _current_tick (self s) +
  (if returns (tick Path_errored h s) then 1 else 0).
Proof.
  pose proof (tick_loop_frame Path_errored h (active (self s)) [] s) as F.
  rewrite tick_unfold.
  destruct (tick_loop Path_errored h (active (self s)) [] s);
    simpl in *; destruct F as (_ & _ & _ & _ & F); rewrite F; lia.
Qed.

Lemma tick_returns_self (s : State Project Path World) sv s' :
  tick Path_errored h s = Ok sv s' -> sv = self s'.
Proof.
  rewrite tick_unfold.
  destruct (tick_loop Path_errored h (active (self s)) [] s);
    intros H; inversion H; reflexivity.
Qed.

(** C7.  Take a pass of the loop whose guard lets it in and whose round
    returns, ending in state [s2]; the hooks are arbitrary and may set or
    clear the flags while the round is under way.  The loop looks at
    [STOP_RUNS] only then: if it is set in [s2], [run] returns with
    exactly [s2], the whole round done and no further one begun; if it is
    clear the loop goes on from [s2], through the debugger first when
    [PAUSE_RUNS] is set there.
    Clearing the flag changes neither the scheduler nor anything else
    outside, and the next call of [run] starts from the sets of [s2]:
    its guard sees the same scheduler and its first tick is numbered one
    more than the last one before the stop. *)
Theorem run_checks_stop_between_rounds
        (fuel : nat) (n : option Z) (s s1 s2 : State Project Path World) :
  run_guard h n s = Ok true s1 ->
  one_round Path_errored h s1 = Ok tt s2 ->
  (STOP_RUNS (env s2) = true ->
   run Path_errored pdb_set_trace h (S fuel) n s = Some (Ok (self s2) s2)) /\
  (STOP_RUNS (env s2) = false -> PAUSE_RUNS (env s2) = false ->
   run Path_errored pdb_set_trace h (S fuel) n s =
   run Path_errored pdb_set_trace h fuel (spent n) s2) /\
  (forall e3,
      STOP_RUNS (env s2) = false -> PAUSE_RUNS (env s2) = true ->
      pdb_set_trace (env s2) = Ok tt e3 ->
      run Path_errored pdb_set_trace h (S fuel) n s =
      run Path_errored pdb_set_trace h fuel (spent n) (mkState (self s2) e3)) /\
  self (resume s2) = self s2 /\
  STOP_RUNS (env (resume s2)) = false /\
  PAUSE_RUNS (env (resume s2)) = PAUSE_RUNS (env s2) /\
  world (env (resume s2)) = world (env s2) /\
  (forall n' s1' sv3 s3,
      run_guard h n' (resume s2) = Ok true s1' ->
      tick Path_errored h s1' = Ok sv3 s3 ->
      self s1' = self s2 /\
      _current_tick sv3 = _current_tick (self s2) + 1).
Proof.
  intros Hguard Hround.
  split; [|split; [|split]].
  - intros Hstop. rewrite run_unfold, Hguard, Hround.
    unfold after_round. rewrite Hstop. reflexivity.
  - intros Hstop Hpause. rewrite run_unfold, Hguard, Hround.
    unfold after_round. rewrite Hstop, Hpause. reflexivity.
  - intros e3 Hstop Hpause Hpdb. rewrite run_unfold, Hguard, Hround.
    unfold after_round. rewrite Hstop, Hpause, Hpdb. reflexivity.
  - repeat match goal with |- _ /\ _ => split end; try reflexivity.
    intros n' s1' sv3 s3 Hg Ht.
    pose proof (run_guard_self n' (resume s2)) as Hs.
    rewrite Hg in Hs. simpl in Hs. split; [exact Hs|].
    pose proof (tick_counter s1') as Hc. rewrite Ht in Hc. simpl in Hc.
    rewrite (tick_returns_self _ Ht), Hc, Hs. reflexivity.
Qed.

End AnyHooks.

Section ClassPolicy.
Variable tp : Path -> Call Fault (Env World) (list Path).
Variable fp : Path -> Call Fault (Env World) bool.
Variable d : Surveyor Project Path -> Call Fault (Env World) bool.

(** A round counts one tick at most, and after it the counter stays. *)
Lemma one_round_counter (s : State Project Path World) :
  let c' := _current_tick
              (self (final_state
                       (one_round Path_errored (overloading tp fp d) s))) in
  _current_tick (self s) <= c' <= _current_tick (self s) + 1.
Proof.
  cbv zeta. pose proof (tick_counter (overloading tp fp d) s) as Ht.
  unfold one_round, bind.
  destruct (tick Path_errored (overloading tp fp d) s) as [sv s1|f s1];
    simpl in Ht; [|simpl; lia].
  destruct (trim_overloading_frame tp fp d s1) as (_ & _ & _ & _ & Hc).
  destruct (trim (overloading tp fp d) s1) as [[] s2|f s2]; simpl in *.
  - destruct (untrim_self_frame (self s2)) as (_ & _ & _ & _ & Hu). lia.
  - lia.
Qed.

Lemma run_budget (fuel : nat) :
  forall k s,
    (Z.to_nat k < fuel)%nat ->
    exists o,
      run Path_errored pdb_set_trace (overloading tp fp d) fuel (Some k) s
        = Some o /\
      _current_tick (self s) <= _current_tick (self (final_state o))
        <= _current_tick (self s) + Z.max 0 k /\
      (forall sv s', o = Ok sv s' -> sv = self s').
Proof.
  induction fuel as [|fuel IH]; intros k s Hfuel; [lia|].
  rewrite run_unfold, run_guard_unfold.
  cbn [done overloading].
  destruct (d (self s) (env s)) as [b e1|f e1]; simpl in *.
  2:{ eexists; split; [reflexivity|]. simpl. split; [lia|discriminate]. }
  destruct (negb b && (0 <? k)) eqn:Hgo.
  2:{ eexists; split; [reflexivity|]. simpl. split; [lia|].
      intros sv s' H; inversion H; reflexivity. }
  apply andb_true_iff in Hgo. destruct Hgo as [_ Hk].
  apply Z.ltb_lt in Hk.
  pose proof (one_round_counter (mkState (self s) e1)) as Hc.
  cbv zeta in Hc. simpl in Hc.
  destruct (one_round Path_errored (overloading tp fp d)
                      (mkState (self s) e1)) as [[] s2|f s2]; simpl in Hc.
  2:{ eexists; split; [reflexivity|]. simpl. split; [lia|discriminate]. }
  pose proof (after_round_self (Some k) s2) as Ha.
  pose proof (@after_round_value (Some k) s2) as Hv.
  destruct (after_round pdb_set_trace (Some k) s2) as [r s3|f s3];
    simpl in Ha.
  2:{ eexists; split; [reflexivity|]. simpl. rewrite Ha.
      split; [lia|discriminate]. }
  specialize (Hv r s3 eq_refl).
  destruct (STOP_RUNS (env s2)); subst r.
  - eexists; split; [reflexivity|]. simpl. split; [rewrite Ha; lia|].
    intros sv s' H; inversion H; reflexivity.
  - simpl. destruct (IH (k - 1) s3) as (o & Ho & Hb & Hself); [lia|].
    exists o. split; [exact Ho|]. rewrite Ha in Hb. split; [lia|exact Hself].
Qed.

End ClassPolicy.
End Loop.

(** ** The instance at work *)

(** One path that forks into three under a limit of 2: three active paths
    after [tick], two active and one trimmed after [trim], and [untrim] has
    no room to give. *)
Example fork_under_a_limit_of_two :
  exists sv s1 s2,
    Demo.tick Demo.hooks (Demo.start Demo.sv_seed) = Ok sv s1 /\
    active (self s1) = [5; 9; 13]%nat /\
    trim Demo.hooks s1 = Ok tt s2 /\
    active (self s2) = [5; 9]%nat /\
    trimmed (self s2) = [13]%nat /\
    untrim (Fault := Demo.Fault) s2 = Ok tt s2.
Proof. do 3 eexists. repeat split. Qed.

(** Three paths cut at a limit of 2. *)
Lemma trim_default_keeps_the_first_demo :
  0 <= _max_concurrency (self (Demo.start Demo.sv_full)) /\
  exists s',
    trim Demo.hooks (Demo.start Demo.sv_full) = Ok tt s' /\
    active (self s') = [1; 5]%nat /\
    trimmed (self s') = [9]%nat /\
    len (active (self s')) <= 2.
Proof.
  split; [simpl; lia|].
  destruct (trim_default_keeps_the_first
              Demo.continue_path (Demo.start Demo.sv_full))
    as (s' & Ht & _ & Ha & Htr & Hl); [simpl; lia|].
  exists s'. split; [exact Ht|]. split; [exact Ha|]. split; [exact Htr|].
  rewrite Ha. unfold len. simpl. lia.
Defined.

(** With a limit of -1 the slices of Python count from the end: of three
    active paths [trim] keeps two, more than the limit. *)
Lemma trim_negative_limit_keeps_more :
  exists s',
    trim Demo.hooks (Demo.start Demo.sv_negative) = Ok tt s' /\
    active (self s') = [1; 2]%nat /\
    trimmed (self s') = [3]%nat /\
    _max_concurrency (self s') = -1 /\
    ~ len (active (self s')) <= _max_concurrency (self s').
Proof.
  eexists. split; [reflexivity|]. simpl.
  repeat split. unfold len. simpl. lia.
Defined.


(** A stop request that arrives while the first tick is under way: the
    round is finished, the overflow parked, and only then [run] returns. *)
Lemma run_checks_stop_between_rounds_demo :
  run_guard Demo.interrupted_hooks None (Demo.start Demo.sv_seed)
    = Ok true (Demo.start Demo.sv_seed) /\
  Demo.one_round Demo.interrupted_hooks (Demo.start Demo.sv_seed)
    = Ok tt Demo.stopped_after_one_round /\
  Demo.run Demo.interrupted_hooks 5 None (Demo.start Demo.sv_seed)
    = Some (Ok (self Demo.stopped_after_one_round)
               Demo.stopped_after_one_round).
Proof.
  split; [reflexivity|]. split; [reflexivity|].
  destruct (run_checks_stop_between_rounds
              Demo.Path_errored Demo.pdb_set_trace Demo.interrupted_hooks
              4 None (Demo.start Demo.sv_seed)
              (s1 := Demo.start Demo.sv_seed)
              (s2 := Demo.stopped_after_one_round) eq_refl eq_refl)
    as (Hstop & _).
  apply Hstop. reflexivity.
Defined.

(** ** More on admission control *)

Section Parking.
Variables Project Path World Fault : Type.

Lemma slice_start_le {A : Type} (k : Z) (l : list A) :
  k < 0 -> slice_start k l = (length l - Z.to_nat (- k))%nat.
Proof.
  intros Hk. unfold slice_start. destruct (Z.leb_spec 0 k); [lia|reflexivity].
Qed.

(** X1.  Whatever the limit, also a negative one, [trim_paths] splits the
    sequence it is given in two, losing and repeating nothing: the front part
    is returned, the back part is appended to [trimmed], and nothing else of
    the scheduler changes.  With a limit [m >= 0] the front part has
    [min(m, len(paths))] paths; with [m < 0] the back part has
    [min(-m, len(paths))] paths, the last ones. *)
Theorem trim_paths_splits_the_sequence
        (paths : list Path) (s : State Project Path World) :
  exists kept overflow s',
    Surveyor_trim_paths (Fault := Fault) paths s = Ok kept s' /\
    kept ++ overflow = paths /\
    trimmed (self s') = trimmed (self s) ++ overflow /\
    active (self s') = active (self s) /\
    deadended (self s') = deadended (self s) /\
    errored (self s') = errored (self s) /\
    env s' = env s /\
    (0 <= _max_concurrency (self s) ->
     len kept = Z.min (_max_concurrency (self s)) (len paths)) /\
    (_max_concurrency (self s) < 0 ->
     len overflow = Z.min (- _max_concurrency (self s)) (len paths)).
Proof.
  exists (slice_to (_max_concurrency (self s)) paths),
         (slice_from (_max_concurrency (self s)) paths).
  eexists. split; [reflexivity|]. split; [apply slice_app|].
  simpl. repeat match goal with |- _ /\ _ => split end; try reflexivity.
  - intros Hm. rewrite slice_to_nonneg by assumption.
    unfold len. rewrite length_firstn. lia.
  - intros Hm. unfold slice_from. rewrite slice_start_le by assumption.
    unfold len. rewrite length_skipn. lia.
Qed.

Lemma untrim_self_settled (sv : Surveyor Project Path) :
  _max_concurrency (untrim_self sv) - len (active (untrim_self sv)) <= 0 \/
  trimmed (untrim_self sv) = [] \/
  untrim_self sv = sv.
Proof.
  destruct (Z.ltb_spec 0 (_max_concurrency sv - len (active sv))) as [Hpos|Hle].
  - destruct (trimmed sv) as [|p t] eqn:Et.
    + right. right. apply untrim_self_noop. right. exact Et.
    + assert (Hne : trimmed sv <> []) by (rewrite Et; discriminate).
      destruct (untrim_self_moves sv Hpos Hne) as [Ha Ht].
      destruct (untrim_self_frame sv) as (_ & Hmc & _).
      destruct (Nat.le_gt_cases
                  (Z.to_nat (_max_concurrency sv - len (active sv)))
                  (length (trimmed sv))) as [Hfew|Hmany].
      * left. rewrite Hmc, Ha, len_app. unfold len at 2.
        rewrite length_firstn. unfold len in *. lia.
      * right. left. rewrite Ht. apply skipn_all2. lia.
  - right. right. apply untrim_self_noop. left. exact Hle.
Qed.

(** X2.  [untrim] done twice is [untrim] done once: after it either the
    active set is full or nothing is parked any more. *)
Theorem untrim_twice_is_untrim (s : State Project Path World) :
  bind (untrim (Fault := Fault)) (fun _ => untrim (Fault := Fault)) s =
  untrim (Fault := Fault) s /\
  (_max_concurrency (self s) <= len (active (untrim_self (self s))) \/
   trimmed (untrim_self (self s)) = []).
Proof.
  assert (Hidem : untrim_self (untrim_self (self s)) = untrim_self (self s)).
  { destruct (untrim_self_settled (self s)) as [H|[H|H]].
    - apply untrim_self_noop. left. exact H.
    - apply untrim_self_noop. right. exact H.
    - rewrite H. exact H. }
  split.
  - unfold bind, untrim, modify, on_self. simpl. rewrite Hidem. reflexivity.
  - destruct (untrim_self_frame (self s)) as (_ & Hmc & _).
    destruct (Z.ltb_spec 0 (_max_concurrency (self s) - len (active (self s))))
      as [Hpos|Hle].
    2:{ left. rewrite untrim_self_noop; [lia|left; exact Hle]. }
    destruct (trimmed (self s)) as [|p t] eqn:Et.
    + right. rewrite untrim_self_noop; [exact Et|right; exact Et].
    + destruct (untrim_self_settled (self s)) as [H|[H|H]].
      * left. lia.
      * right. exact H.
      * exfalso.
        assert (Hne : trimmed (self s) <> []) by (rewrite Et; discriminate).
        destruct (untrim_self_moves (self s) Hpos Hne) as [Ha _].
        rewrite H in Ha.
        assert (Hl : length (active (self s)) =
                     length (active (self s) ++
                             firstn (Z.to_nat (_max_concurrency (self s)
                                               - len (active (self s))))
                                    (trimmed (self s))))
          by (rewrite <- Ha; reflexivity).
        rewrite length_app, length_firstn, Et in Hl. simpl in Hl. lia.
Qed.
End Parking.

Section Filling.
Variables Project Path World Fault : Type.
Variable cp : Path -> Call Fault (Env World) (list Path).

(** [untrim] when there is room or just none. *)
Lemma untrim_self_room (sv : Surveyor Project Path) :
  0 <= _max_concurrency sv - len (active sv) ->
  active (untrim_self sv) =
    active sv ++
    firstn (Z.to_nat (_max_concurrency sv - len (active sv))) (trimmed sv) /\
  trimmed (untrim_self sv) =
    skipn (Z.to_nat (_max_concurrency sv - len (active sv))) (trimmed sv).
Proof.
  intros Hroom.
  destruct (Z.ltb_spec 0 (_max_concurrency sv - len (active sv))) as [Hpos|Hle].
  - destruct (trimmed sv) as [|p t] eqn:Et.
    + rewrite untrim_self_noop by (right; exact Et).
      rewrite Et, firstn_nil, skipn_nil, app_nil_r. split; reflexivity.
    + rewrite <- Et. apply untrim_self_moves; [exact Hpos|].
      rewrite Et. discriminate.
  - rewrite untrim_self_noop by (left; exact Hle).
    replace (_max_concurrency sv - len (active sv)) with 0 by lia.
    simpl. rewrite app_nil_r. split; reflexivity.
Qed.

(** X3.  With the filter and the [trim_paths] of the class and a limit that
    is not negative, [trim] done twice is [trim] done once: what it kept is
    within the limit and nothing more is parked. *)
Theorem trim_twice_is_trim (s : State Project Path World) :
  0 <= _max_concurrency (self s) ->
  bind (trim (Surveyor_hooks cp)) (fun _ => trim (Surveyor_hooks cp)) s =
  trim (Surveyor_hooks cp) s.
Proof.
  intros Hmc. unfold bind. rewrite trim_default, trim_default.
  destruct s as [sv e]. destruct sv as [pr mc a dd t er ct].
  unfold on_self, set_active, set_trimmed. simpl in *.
  rewrite !slice_to_nonneg, !slice_from_nonneg by assumption.
  rewrite firstn_firstn, Nat.min_id.
  rewrite (@skipn_all2 _ (Z.to_nat mc) (firstn (Z.to_nat mc) a))
    by (rewrite length_firstn; lia).
  rewrite app_nil_r. reflexivity.
Qed.

(** X4.  With the filter and the [trim_paths] of the class and a limit
    [m >= 0], [trim] followed by [untrim] leaves exactly
    [min(m, len(active) + len(trimmed))] active paths: the active set is
    filled as far as there are paths.  When the active paths were within the
    limit they all stay, followed by the paths longest parked; when they were
    at or over the limit the first [m] stay and the others are parked behind
    the paths parked before. *)
Theorem trim_untrim_fills_the_active_set (s : State Project Path World) :
  0 <= _max_concurrency (self s) ->
  exists s',
    bind (trim (Surveyor_hooks cp)) (fun _ => untrim (Fault := Fault)) s
      = Ok tt s' /\
    len (active (self s')) =
      Z.min (_max_concurrency (self s))
            (len (active (self s)) + len (trimmed (self s))) /\
    (len (active (self s)) <= _max_concurrency (self s) ->
     active (self s') =
       active (self s) ++
       firstn (Z.to_nat (_max_concurrency (self s) - len (active (self s))))
              (trimmed (self s)) /\
     trimmed (self s') =
       skipn (Z.to_nat (_max_concurrency (self s) - len (active (self s))))
             (trimmed (self s))) /\
    (_max_concurrency (self s) <= len (active (self s)) ->
     active (self s') =
       firstn (Z.to_nat (_max_concurrency (self s))) (active (self s)) /\
     trimmed (self s') =
       trimmed (self s) ++
       skipn (Z.to_nat (_max_concurrency (self s))) (active (self s))).
Proof.
  intros Hmc. unfold bind. rewrite trim_default. eexists.
  split; [reflexivity|].
  destruct s as [sv e]. destruct sv as [pr mc a dd t er ct].
  unfold on_self, set_active, set_trimmed. simpl in *.
  rewrite slice_to_nonneg, slice_from_nonneg by assumption.
  set (sv1 := mkSurveyor pr mc (firstn (Z.to_nat mc) a) dd
                         (t ++ skipn (Z.to_nat mc) a) er ct).
  assert (Hroom : 0 <= _max_concurrency sv1 - len (active sv1)).
  { simpl. unfold len. rewrite length_firstn. lia. }
  destruct (untrim_self_room sv1 Hroom) as [Ha Ht]. simpl in Ha, Ht.
  split; [|split].
  - rewrite Ha, len_app. unfold len. rewrite !length_firstn, length_app,
      length_skipn. lia.
  - intros Hle. unfold len in Hle.
    rewrite Ha, Ht.
    rewrite (@firstn_all2 _ (Z.to_nat mc) a) by lia.
    rewrite (@skipn_all2 _ (Z.to_nat mc) a) by lia.
    rewrite app_nil_r. split; reflexivity.
  - intros Hge. unfold len in Hge.
    rewrite Ha, Ht.
    replace (mc - len (firstn (Z.to_nat mc) a)) with 0
      by (unfold len; rewrite length_firstn; lia).
    simpl. rewrite app_nil_r. split; reflexivity.
Qed.
End Filling.

(** ** What a run keeps *)

Section Keeping.
Variables Project Path ErrorRecord World Fault : Type.
Variable Path_errored : Path -> World -> list ErrorRecord.
Variable pdb_set_trace : Call Fault (Env World) unit.

Lemma grown_refl (sv : Surveyor Project Path) : grown sv sv.
Proof.
  unfold grown. repeat split; try lia; exists []; rewrite app_nil_r;
    reflexivity.
Qed.

Lemma grown_trans (sv1 sv2 sv3 : Surveyor Project Path) :
  grown sv1 sv2 -> grown sv2 sv3 -> grown sv1 sv3.
Proof.
  unfold grown.
  intros (A1 & A2 & A3 & [l1 A4] & [l2 A5]) (B1 & B2 & B3 & [m1 B4] & [m2 B5]).
  repeat split; try congruence; try lia.
  - exists (l1 ++ m1). rewrite B4, A4, app_assoc. reflexivity.
  - exists (l2 ++ m2). rewrite B5, A5, app_assoc. reflexivity.
Qed.

Lemma tick_loop_grown (h : Hooks Project Path World Fault) (ps : list Path) :
  forall acc s,
    grown (self s) (self (final_state (tick_loop Path_errored h ps acc s))).
Proof.
  induction ps as [|p rest IH]; intros acc [sv e]; simpl.
  - apply grown_refl.
  - call_unfold. simpl.
    destruct (tick_path h p e) as [succ e1|f e1]; [|apply grown_refl].
    simpl.
    destruct (0 <? len (Path_errored p (world e1)));
      destruct (len succ =? 0); simpl;
      (eapply grown_trans; [|apply IH]); simpl; unfold grown; simpl;
      repeat split; try lia;
      try (exists [p]; reflexivity);
      try (exists []; rewrite app_nil_r; reflexivity).
Qed.

Lemma tick_grown (h : Hooks Project Path World Fault)
      (s : State Project Path World) :
  grown (self s) (self (final_state (tick Path_errored h s))).
Proof.
  pose proof (tick_loop_grown h (active (self s)) [] s) as G.
  rewrite tick_unfold.
  destruct (tick_loop Path_errored h (active (self s)) [] s) as [na s1|f s1];
    simpl in *; [|exact G].
  eapply grown_trans; [exact G|]. unfold grown. simpl.
  repeat split; try lia; exists []; rewrite app_nil_r; reflexivity.
Qed.

Section ClassPolicy.
Variable tp : Path -> Call Fault (Env World) (list Path).
Variable fp : Path -> Call Fault (Env World) bool.
Variable d : Surveyor Project Path -> Call Fault (Env World) bool.

Lemma trim_grown (s : State Project Path World) :
  grown (self s) (self (final_state (trim (overloading tp fp d) s))).
Proof.
  destruct (trim_overloading_frame tp fp d s) as (F1 & F2 & F3 & F4 & F5).
  unfold grown. repeat split; try assumption; try lia;
    exists []; rewrite app_nil_r; assumption.
Qed.

Lemma untrim_grown (sv : Surveyor Project Path) : grown sv (untrim_self sv).
Proof.
  destruct (untrim_self_frame sv) as (F1 & F2 & F3 & F4 & F5).
  unfold grown. repeat split; try assumption; try lia;
    exists []; rewrite app_nil_r; assumption.
Qed.

Lemma one_round_grown (s : State Project Path World) :
  grown (self s)
        (self (final_state (one_round Path_errored (overloading tp fp d) s))).
Proof.
  pose proof (tick_grown (overloading tp fp d) s) as Gt.
  unfold one_round, bind.
  destruct (tick Path_errored (overloading tp fp d) s) as [sv s1|f s1];
    simpl in *; [|exact Gt].
  pose proof (trim_grown s1) as Gm.
  destruct (trim (overloading tp fp d) s1) as [[] s2|f s2]; simpl in *.
  - eapply grown_trans; [exact Gt|].
    eapply grown_trans; [exact Gm|]. apply untrim_grown.
  - eapply grown_trans; eassumption.
Qed.

(** X7.  Whatever the budget, the fuel and the outcome, a run never takes a
    path out of [errored] or [deadended]: the logs at the end are the logs at
    the start with paths appended.  The tick counter never goes down, and the
    project and the concurrency limit stay what they were. *)
Theorem run_only_appends_to_the_logs
        (fuel : nat) (n : option Z) (s : State Project Path World)
        (o : Outcome Fault (State Project Path World) (Surveyor Project Path)) :
  run Path_errored pdb_set_trace (overloading tp fp d) fuel n s = Some o ->
  (exists l, errored (self (final_state o)) = errored (self s) ++ l) /\
  (exists l, deadended (self (final_state o)) = deadended (self s) ++ l) /\
  _current_tick (self s) <= _current_tick (self (final_state o)) /\
  _max_concurrency (self (final_state o)) = _max_concurrency (self s) /\
  _project (self (final_state o)) = _project (self s).
Proof.
  intros H.
  assert (G : grown (self s) (self (final_state o))).
  { revert n s o H. induction fuel as [|fuel' IH]; intros n s o H;
      [discriminate|].
    rewrite run_unfold in H.
    pose proof (run_guard_self (overloading tp fp d) n s) as Hg.
    destruct (run_guard (overloading tp fp d) n s) as [[|] s1|f s1];
      simpl in Hg.
    - pose proof (one_round_grown s1) as Gr. rewrite Hg in Gr.
      destruct (one_round Path_errored (overloading tp fp d) s1)
        as [[] s2|f s2]; simpl in Gr.
      + pose proof (after_round_self pdb_set_trace n s2) as Ha.
        destruct (after_round pdb_set_trace n s2) as [[n'|] s3|f s3];
          simpl in Ha.
        * apply IH in H. rewrite Ha in H. eapply grown_trans; eassumption.
        * inversion H; subst. simpl. rewrite Ha. exact Gr.
        * inversion H; subst. simpl. rewrite Ha. exact Gr.
      + inversion H; subst. exact Gr.
    - inversion H; subst. simpl. rewrite Hg. apply grown_refl.
    - inversion H; subst. simpl. rewrite Hg. apply grown_refl. }
  destruct G as (G1 & G2 & G3 & G4 & G5).
  repeat split; assumption.
Qed.
End ClassPolicy.
End Keeping.

(** ** Where a run ends *)

Section Ending.
Variables Project Path ErrorRecord World Fault : Type.
Variable Path_errored : Path -> World -> list ErrorRecord.
Variable pdb_set_trace : Call Fault (Env World) unit.
Variable tp : Path -> Call Fault (Env World) (list Path).
Variable fp : Path -> Call Fault (Env World) bool.

Lemma after_round_break (n : option Z) (s2 s3 : State Project Path World) :
  after_round pdb_set_trace n s2 = Ok None s3 ->
  s3 = s2 /\ STOP_RUNS (env s2) = true.
Proof.
  unfold after_round. destruct (STOP_RUNS (env s2)).
  - intros H; inversion H; split; reflexivity.
  - destruct (PAUSE_RUNS (env s2)); [|discriminate].
    destruct (pdb_set_trace (env s2)); discriminate.
Qed.

Lemma after_round_on (n n' : option Z) (s2 s3 : State Project Path World) :
  after_round pdb_set_trace n s2 = Ok (Some n') s3 ->
  n' = spent n /\ self s3 = self s2.
Proof.
  intros H. pose proof (after_round_self pdb_set_trace n s2) as Hs.
  pose proof (after_round_value pdb_set_trace n s2 H) as Hv.
  rewrite H in Hs. simpl in Hs. split; [|exact Hs].
  destruct (STOP_RUNS (env s2)); [discriminate|]. inversion Hv; reflexivity.
Qed.

Lemma untrim_self_cap (sv : Surveyor Project Path) :
  len (active sv) <= _max_concurrency sv ->
  len (active (untrim_self sv)) <= _max_concurrency sv.
Proof.
  intros Hle.
  destruct (@untrim_self_room Project Path sv) as [Ha _]; [lia|].
  rewrite Ha, len_app. unfold len at 2. rewrite length_firstn. lia.
Qed.

Section AnyDone.
Variable d : Surveyor Project Path -> Call Fault (Env World) bool.

(** A round that returns has counted one tick and leaves the active set
    within a limit that is not negative. *)
Lemma one_round_ok (s s' : State Project Path World) :
  one_round Path_errored (overloading tp fp d) s = Ok tt s' ->
  _current_tick (self s') = _current_tick (self s) + 1 /\
  _max_concurrency (self s') = _max_concurrency (self s) /\
  (0 <= _max_concurrency (self s) ->
   len (active (self s')) <= _max_concurrency (self s)).
Proof.
  unfold one_round, bind. intros H.
  pose proof (tick_counter Path_errored (overloading tp fp d) s) as Hc.
  destruct (tick_frame Path_errored (overloading tp fp d) s) as (_ & Hm & _).
  destruct (tick Path_errored (overloading tp fp d) s) as [sv s1|f s1];
    [|discriminate].
  simpl in Hc, Hm.
  rewrite trim_overloading in H.
  pose proof (trim_each_frame (overloading tp fp d) (active (self s1)) s1) as F.
  destruct (trim_each (overloading tp fp d) (active (self s1)) s1)
    as [kept s2|f s2]; [|discriminate].
  simpl in F. inversion H; subst s'; clear H. simpl.
  destruct (untrim_self_frame
              (set_active (slice_to (_max_concurrency (self s2)) kept)
                 (set_trimmed
                    (trimmed (self s2)
                     ++ slice_from (_max_concurrency (self s2)) kept)
                    (self s2)))) as (_ & U2 & _ & _ & U5).
  simpl in U2, U5. rewrite U2, U5, F.
  split; [lia|]. split; [exact Hm|].
  intros Hmc. rewrite <- Hm, <- F.
  match goal with
  | |- len (active (untrim_self ?sv)) <= _ =>
      change (len (active (untrim_self sv)) <= _max_concurrency sv)
  end.
  apply untrim_self_cap. simpl.
  rewrite slice_to_nonneg by (rewrite F, Hm; exact Hmc).
  unfold len. rewrite length_firstn. rewrite F, Hm. lia.
Qed.

(** X8.  With a limit that is not negative and the [trim_paths] of the
    class, a run that returns hands back a scheduler whose active set is
    within the limit, unless it made no round at all, in which case the
    scheduler is the one it was given. *)
Theorem run_leaves_active_within_the_limit
        (fuel : nat) (n : option Z) (s s' : State Project Path World)
        (sv : Surveyor Project Path) :
  0 <= _max_concurrency (self s) ->
  run Path_errored pdb_set_trace (overloading tp fp d) fuel n s
    = Some (Ok sv s') ->
  sv = self s \/ len (active sv) <= _max_concurrency sv.
Proof.
  revert n s. induction fuel as [|fuel' IH]; intros n s Hmc H;
    [discriminate|].
  rewrite run_unfold in H.
  pose proof (run_guard_self (overloading tp fp d) n s) as Hg.
  destruct (run_guard (overloading tp fp d) n s) as [[|] s1|f s1];
    simpl in Hg; [| |discriminate].
  2:{ inversion H; subst. left. exact Hg. }
  destruct (one_round Path_errored (overloading tp fp d) s1)
    as [[] s2|f s2] eqn:Hr; [|discriminate].
  destruct (one_round_ok _ Hr) as (_ & Hm & Hcap).
  rewrite Hg in Hm, Hcap. specialize (Hcap Hmc).
  destruct (after_round pdb_set_trace n s2) as [[n'|] s3|f s3] eqn:Ha;
    [| |discriminate].
  - destruct (after_round_on _ _ Ha) as [_ Hs3].
    right. destruct (IH n' s3) as [Hsame|Hle];
      [rewrite Hs3, Hm; exact Hmc|exact H| |exact Hle].
    rewrite Hsame, Hs3, Hm. exact Hcap.
  - destruct (after_round_break _ _ Ha) as [-> _].
    inversion H; subst. right. rewrite Hm. exact Hcap.
Qed.
End AnyDone.

(** X9.  With the [done] and the [trim_paths] of the class, a run that
    returns while no stop is requested has either emptied the active set or
    used up its budget: it was called with [n = k] and has counted exactly
    [max(0, k)] ticks.  A run without budget that comes back with active
    paths left has been stopped. *)
Theorem run_ends_done_or_out_of_budget
        (fuel : nat) (n : option Z) (s s' : State Project Path World)
        (sv : Surveyor Project Path) :
  run Path_errored pdb_set_trace
      (overloading tp fp (@Surveyor_done Project Path World Fault))
      fuel n s = Some (Ok sv s') ->
  STOP_RUNS (env s') = false ->
  active sv = [] \/
  exists k, n = Some k /\
            _current_tick sv = _current_tick (self s) + Z.max 0 k.
Proof.
  revert n s. induction fuel as [|fuel' IH]; intros n s H Hstop;
    [discriminate|].
  rewrite run_unfold, run_guard_unfold in H.
  cbn [done overloading Surveyor_done ret] in H.
  destruct (len (active (self s)) =? 0) eqn:Hd; cbn [negb andb] in H.
  - inversion H; subst. left. apply len_zero_iff. exact Hd.
  - destruct n as [k|].
    + destruct (Z.ltb_spec 0 k) as [Hk|Hk].
      * destruct (one_round Path_errored _ (mkState (self s) (env s)))
          as [[] s2|f s2] eqn:Hr; [|discriminate].
        pose proof Hr as Hc. apply one_round_ok in Hc.
        destruct Hc as (Hc & _). simpl in Hc.
        destruct (after_round pdb_set_trace (Some k) s2)
          as [[n'|] s3|f s3] eqn:Ha; [| |discriminate].
        -- destruct (after_round_on _ _ Ha) as [-> Hs3]. simpl in H.
           destruct (IH _ _ H Hstop) as [He|(k' & Hk' & Hck)];
             [left; exact He|].
           right. exists k. split; [reflexivity|].
           inversion Hk'; subst k'. rewrite Hck, Hs3, Hc. lia.
        -- destruct (after_round_break _ _ Ha) as [-> Hs].
           inversion H; subst. congruence.
      * inversion H; subst. right. exists k. split; [reflexivity|].
        simpl. lia.
    + destruct (one_round Path_errored _ (mkState (self s) (env s)))
        as [[] s2|f s2] eqn:Hr; [|discriminate].
      destruct (after_round pdb_set_trace None s2)
        as [[n'|] s3|f s3] eqn:Ha; [| |discriminate].
      * destruct (after_round_on _ _ Ha) as [-> Hs3]. simpl in H.
        destruct (IH _ _ H Hstop) as [He|(k' & Hk' & _)];
          [left; exact He|discriminate].
      * destruct (after_round_break _ _ Ha) as [-> Hs].
        inversion H; subst. congruence.
Qed.
End Ending.

(** ** Two ways a run comes to its end *)

Section LimitZero.
Variables Project Path ErrorRecord World Fault : Type.
Variable Path_errored : Path -> World -> list ErrorRecord.
Variable pdb_set_trace : Call Fault (Env World) unit.
Variable tp : Path -> Call Fault (Env World) (list Path).
Variable fp : Path -> Call Fault (Env World) bool.

Lemma run_done_at_once (fuel : nat) (n : option Z)
      (s : State Project Path World) :
  active (self s) = [] ->
  run Path_errored pdb_set_trace
      (overloading tp fp (@Surveyor_done Project Path World Fault))
      (S fuel) n s = Some (Ok (self s) s).
Proof.
  intros Hact. rewrite run_unfold, run_guard_unfold.
  cbn [done overloading Surveyor_done ret]. rewrite Hact. simpl.
  destruct s; reflexivity.
Qed.

End LimitZero.

Section Draining.
Variables Project Path ErrorRecord World Fault : Type.
Variable Path_errored : Path -> World -> list ErrorRecord.
Variable pdb_set_trace : Call Fault (Env World) unit.
Variable tp : Path -> Call Fault (Env World) (list Path).

Lemma chosen_no_successors_dead (g : Path -> bool) (ps : list Path) :
  chosen no_successors ps (map (fun p => (@nil Path, g p)) ps) = ps.
Proof.
  induction ps as [|p rest IH]; [reflexivity|].
  simpl map. rewrite chosen_cons, IH. reflexivity.
Qed.

Lemma chosen_had_errors_dead (g : Path -> bool) (ps : list Path) :
  chosen had_errors ps (map (fun p => (@nil Path, g p)) ps) = filter g ps.
Proof.
  induction ps as [|p rest IH]; [reflexivity|].
  simpl map. rewrite chosen_cons, IH. unfold had_errors. simpl.
  destruct (g p); reflexivity.
Qed.

Lemma flat_map_dead (ps : list Path) :
  flat_map (fun _ : Path => @nil Path) ps = [].
Proof. induction ps as [|p rest IH]; [reflexivity|exact IH]. Qed.

(** A round in which every active path dead-ends. *)
Lemma dead_end_round (s : State Project Path World) :
  (forall p e, tp p e = Ok [] e) ->
  0 < _max_concurrency (self s) ->
  exists s',
    one_round Path_errored
      (overloading tp (@Surveyor_trim_path Path World Fault)
                   (@Surveyor_done Project Path World Fault)) s = Ok tt s' /\
    env s' = env s /\
    _max_concurrency (self s') = _max_concurrency (self s) /\
    active (self s') =
      firstn (Z.to_nat (_max_concurrency (self s))) (trimmed (self s)) /\
    trimmed (self s') =
      skipn (Z.to_nat (_max_concurrency (self s))) (trimmed (self s)) /\
    deadended (self s') = deadended (self s) ++ active (self s) /\
    errored (self s') =
      errored (self s) ++
      filter (fun p => 0 <? len (Path_errored p (world (env s))))
             (active (self s)).
Proof.
  intros Hdead Hmc.
  set (h := overloading tp (@Surveyor_trim_path Path World Fault)
                        (@Surveyor_done Project Path World Fault)).
  pose proof (step_all_pure Path_errored h (fun _ => []) (active (self s))
                (env s) Hdead) as Hobs.
  pose proof (tick_ok Path_errored h s Hobs) as Ht. cbv zeta in Ht.
  unfold one_round, bind. rewrite Ht. clear Ht. subst h.
  rewrite trim_overloading.
  destruct s as [sv e]. destruct sv as [pr mc a dd t er ct]. simpl in *.
  rewrite concat_map_fst_pure, flat_map_dead. simpl.
  unfold untrim, modify, on_self. simpl. eexists. split; [reflexivity|].
  simpl.
  match goal with |- context [untrim_self ?x] => set (sv1 := x) end.
  assert (Ea : active sv1 = [])
    by (simpl; unfold slice_to; apply firstn_nil).
  assert (Et : trimmed sv1 = t)
    by (simpl; unfold slice_from; rewrite skipn_nil; apply app_nil_r).
  destruct (untrim_self_frame sv1) as (_ & U2 & U3 & U4 & _).
  destruct (@untrim_self_room Project Path sv1) as [Ua Ut];
    [rewrite Ea; simpl; unfold len; simpl; lia|].
  rewrite Ea, Et in Ua, Ut. simpl in Ua, Ut, U2, U3, U4.
  replace (mc - len (@nil Path)) with mc in Ua, Ut
    by (unfold len; simpl; lia).
  rewrite U2, U3, U4, Ua, Ut.
  rewrite chosen_no_successors_dead, chosen_had_errors_dead.
  repeat split.
Qed.

(** X11.  Let every step dead-end without touching anything outside, let
    the filter, [trim_paths] and [done] be those of the class and let no
    stop or pause be requested.  With a limit of at least 1 and a non-empty
    active set, a run without budget comes to an end (a fuel of
    [len(trimmed) + 2] is enough for the model): every active and every
    parked path has been stepped once, first the active ones and then the
    parked ones from the front, [deadended] has received them in that order,
    [errored] those among them that hold error records, and [active] and
    [trimmed] are empty. *)
Theorem run_drains_the_parked_paths_in_order
        (fuel : nat) (s : State Project Path World) :
  (forall p e, tp p e = Ok [] e) ->
  0 < _max_concurrency (self s) ->
  active (self s) <> [] ->
  STOP_RUNS (env s) = false ->
  PAUSE_RUNS (env s) = false ->
  (length (trimmed (self s)) + 2 <= fuel)%nat ->
  exists sv',
    run Path_errored pdb_set_trace
        (overloading tp (@Surveyor_trim_path Path World Fault)
                     (@Surveyor_done Project Path World Fault))
        fuel None s = Some (Ok sv' (mkState sv' (env s))) /\
    active sv' = [] /\
    trimmed sv' = [] /\
    deadended sv' =
      deadended (self s) ++ active (self s) ++ trimmed (self s) /\
    errored sv' =
      errored (self s) ++
      filter (fun p => 0 <? len (Path_errored p (world (env s))))
             (active (self s) ++ trimmed (self s)).
Proof.
  intros Hdead.
  remember (length (trimmed (self s))) as m eqn:Hm.
  assert (Hle : (length (trimmed (self s)) <= m)%nat) by lia. clear Hm.
  revert fuel s Hle.
  induction m as [|m IH]; intros fuel s Hle Hmc Hact Hstop Hpause Hfuel.
  - (* nothing parked: one round, then done *)
    destruct fuel as [|[|fuel']]; try lia.
    destruct (dead_end_round s Hdead Hmc)
      as (s2 & Hr & He & _ & Ha & Ht & Hd & Her).
    assert (Hnil : trimmed (self s) = [])
      by (destruct (trimmed (self s)); [reflexivity|simpl in Hle; lia]).
    rewrite Hnil, firstn_nil in Ha. rewrite Hnil, skipn_nil in Ht.
    rewrite run_unfold, run_guard_unfold.
    cbn [done overloading Surveyor_done ret].
    destruct (active (self s)) as [|p0 a0] eqn:Ea; [congruence|].
    replace (len (p0 :: a0) =? 0) with false by reflexivity.
    cbn [negb andb].
    replace (mkState (self s) (env s)) with s by (destruct s; reflexivity).
    rewrite Hr. unfold after_round. rewrite He, Hstop, Hpause.
    rewrite run_done_at_once by exact Ha.
    exists (self s2). replace (env s) with (env s2).
    split; [destruct s2; reflexivity|].
    rewrite Hnil, !app_nil_r, ?He.
    repeat split; assumption.
  - destruct (Nat.eq_dec (length (trimmed (self s))) 0) as [Hnone|Hsome].
    + apply IH; try assumption; lia.
    + destruct fuel as [|fuel']; [lia|].
      destruct (dead_end_round s Hdead Hmc)
        as (s2 & Hr & He & Hmc2 & Ha & Ht & Hd & Her).
      rewrite run_unfold, run_guard_unfold.
      cbn [done overloading Surveyor_done ret].
      destruct (active (self s)) as [|p0 a0] eqn:Ea; [congruence|].
      replace (len (p0 :: a0) =? 0) with false by reflexivity.
      cbn [negb andb].
      replace (mkState (self s) (env s)) with s by (destruct s; reflexivity).
      rewrite Hr. unfold after_round. rewrite He, Hstop, Hpause.
      destruct (IH fuel' s2) as (sv' & Hrun & Ra & Rt & Rd & Re).
      * rewrite Ht, length_skipn. lia.
      * rewrite Hmc2. exact Hmc.
      * intros Hnil. rewrite Ha in Hnil.
        apply (f_equal (@length Path)) in Hnil.
        rewrite length_firstn in Hnil. simpl in Hnil. lia.
      * rewrite He. exact Hstop.
      * rewrite He. exact Hpause.
      * lia.
      * exists sv'. rewrite He in Hrun, Re. split; [exact Hrun|].
        split; [exact Ra|]. split; [exact Rt|].
        rewrite Rd, Re, Hd, Her, Ha, Ht.
        rewrite !firstn_skipn, filter_app, <- !app_assoc.
        split; reflexivity.
Qed.
End Draining.

(** ** The exits of the active paths *)

Section Exits.
Variables Project Exit Path World Fault Arg : Type.
Variable Path_flat_exits :
  Path -> option Arg -> option Arg -> option Arg ->
  Call Fault (Env World) (list Exit).
Variables reachable concrete symbolic : option Arg.

Lemma active_exits_loop_ok (ps : list Path) :
  forall acc (s : State Project Path World) ess e',
    flat_exits_all Path_flat_exits reachable concrete symbolic ps (env s)
      = Ok ess e' ->
    active_exits_loop Path_flat_exits reachable concrete symbolic ps acc s
      = Ok (acc ++ concat ess) (mkState (self s) e').
Proof.
  induction ps as [|p rest IH]; intros acc [sv e] ess e' H; simpl in *.
  - inversion H; subst. simpl. rewrite app_nil_r. reflexivity.
  - call_unfold. simpl in *.
    destruct (Path_flat_exits p reachable concrete symbolic e)
      as [es e1|f e1]; [|discriminate].
    destruct (flat_exits_all Path_flat_exits reachable concrete symbolic
                             rest e1) as [ess' e2|f e2] eqn:Hrest;
      [|discriminate].
    inversion H; subst; clear H.
    rewrite (IH (acc ++ es) (mkState sv e1) ess' e' Hrest).
    simpl. rewrite app_assoc. reflexivity.
Qed.

Lemma active_exits_loop_fault (ps : list Path) :
  forall acc (s : State Project Path World),
    fault_of (active_exits_loop Path_flat_exits reachable concrete symbolic
                                ps acc s) =
    fault_of (flat_exits_all Path_flat_exits reachable concrete symbolic
                             ps (env s)) /\
    self (final_state
            (active_exits_loop Path_flat_exits reachable concrete symbolic
                               ps acc s)) = self s.
Proof.
  induction ps as [|p rest IH]; intros acc [sv e]; simpl.
  - split; reflexivity.
  - call_unfold. simpl.
    destruct (Path_flat_exits p reachable concrete symbolic e)
      as [es e1|f e1]; [|split; reflexivity].
    destruct (IH (acc ++ es) (mkState sv e1)) as [Hf Hs]. simpl in Hf, Hs.
    split; [|exact Hs]. rewrite Hf.
    destruct (flat_exits_all Path_flat_exits reachable concrete symbolic
                             rest e1); reflexivity.
Qed.

Lemma flat_exits_all_pure (f : Path -> list Exit) (ps : list Path)
      (e : Env World) :
  (forall p e0, Path_flat_exits p reachable concrete symbolic e0
                = Ok (f p) e0) ->
  flat_exits_all Path_flat_exits reachable concrete symbolic ps e
    = Ok (map f ps) e.
Proof.
  intros Hf. induction ps as [|p rest IH]; simpl; [reflexivity|].
  call_unfold. rewrite Hf, IH. reflexivity.
Qed.

(** X12.  [active_exits] asks every active path in order for its exits,
    with the three keyword values passed on unchanged, and returns what they
    answered in one list, path after path ([flat_map f] for a [flat_exits]
    without effects, the empty list when nothing is active).  It raises
    exactly the fault of the first [flat_exits] that raises, and whatever the
    outcome it leaves the scheduler as it was. *)
Theorem active_exits_collects_in_order (s : State Project Path World) :
  (forall ess e',
      flat_exits_all Path_flat_exits reachable concrete symbolic
                     (active (self s)) (env s) = Ok ess e' ->
      active_exits Path_flat_exits reachable concrete symbolic s
        = Ok (concat ess) (mkState (self s) e') /\
      length ess = length (active (self s))) /\
  (forall f,
      (forall p e0, Path_flat_exits p reachable concrete symbolic e0
                    = Ok (f p) e0) ->
      active_exits Path_flat_exits reachable concrete symbolic s
        = Ok (flat_map f (active (self s))) (mkState (self s) (env s))) /\
  fault_of (active_exits Path_flat_exits reachable concrete symbolic s) =
    fault_of (flat_exits_all Path_flat_exits reachable concrete symbolic
                             (active (self s)) (env s)) /\
  self (final_state
          (active_exits Path_flat_exits reachable concrete symbolic s))
    = self s.
Proof.
  assert (Hunfold :
            active_exits Path_flat_exits reachable concrete symbolic s =
            active_exits_loop Path_flat_exits reachable concrete symbolic
                              (active (self s)) [] s) by reflexivity.
  rewrite Hunfold.
  split; [|split; [|apply active_exits_loop_fault]].
  - intros ess e' H. split.
    + rewrite (active_exits_loop_ok _ [] s H). reflexivity.
    + clear Hunfold. revert ess e' H. generalize (env s).
      induction (active (self s)) as [|p rest IH]; intros e ess e' H;
        simpl in H.
      * inversion H; reflexivity.
      * call_unfold.
        destruct (Path_flat_exits p reachable concrete symbolic e)
          as [es e1|f e1]; [|discriminate].
        destruct (flat_exits_all Path_flat_exits reachable concrete symbolic
                                 rest e1) as [ess' e2|f e2] eqn:Hrest;
          [|discriminate].
        inversion H; subst. simpl. f_equal. eapply IH; eassumption.
  - intros f Hf.
    rewrite (active_exits_loop_ok _ [] s
               (flat_exits_all_pure f (active (self s)) (env s) Hf)).
    simpl. rewrite flat_map_concat_map. reflexivity.
Qed.
End Exits.

(** ** Signals *)

Section Signals.
Variable World : Type.
Variables SIGUSR1 SIGUSR2 : Z.

Lemma handler_cases (signum : Z) (e : Env World) :
  world (handler SIGUSR1 SIGUSR2 signum e) = world e /\
  STOP_RUNS (handler SIGUSR1 SIGUSR2 signum e)
    = (STOP_RUNS e || (signum =? SIGUSR1)) /\
  PAUSE_RUNS (handler SIGUSR1 SIGUSR2 signum e)
    = (PAUSE_RUNS e || (negb (signum =? SIGUSR1) && (signum =? SIGUSR2))).
Proof.
  unfold handler.
  destruct (signum =? SIGUSR1); [|destruct (signum =? SIGUSR2)]; simpl;
    rewrite ?orb_true_r, ?orb_false_r; repeat split.
Qed.

(** X13.  The signal handler only ever sets flags.  After any sequence of
    signals the world is untouched, a flag that was set is still set,
    [STOP_RUNS] is set exactly if it was set before or [SIGUSR1] was among
    the signals, and [PAUSE_RUNS] is set only if it was set before or
    [SIGUSR2] was among them (exactly then, when the two signals have
    different numbers). *)
Theorem handler_only_sets_flags (signums : list Z) (e : Env World) :
  world (deliver SIGUSR1 SIGUSR2 signums e) = world e /\
  (STOP_RUNS (deliver SIGUSR1 SIGUSR2 signums e) = true <->
   STOP_RUNS e = true \/ In SIGUSR1 signums) /\
  (PAUSE_RUNS e = true ->
   PAUSE_RUNS (deliver SIGUSR1 SIGUSR2 signums e) = true) /\
  (PAUSE_RUNS (deliver SIGUSR1 SIGUSR2 signums e) = true ->
   PAUSE_RUNS e = true \/ In SIGUSR2 signums) /\
  (SIGUSR1 <> SIGUSR2 -> In SIGUSR2 signums ->
   PAUSE_RUNS (deliver SIGUSR1 SIGUSR2 signums e) = true).
Proof.
  unfold deliver. revert e.
  induction signums as [|sg rest IH]; intros e; simpl.
  - repeat split; try tauto; intros [H|[]]; exact H.
  - destruct (IH (handler SIGUSR1 SIGUSR2 sg e)) as (Iw & Is & Ip & Iq & Ir).
    destruct (handler_cases sg e) as (Hw & Hs & Hp).
    rewrite Hw in Iw. rewrite Hs in Is. rewrite Hp in Ip, Iq.
    split; [exact Iw|]. split; [|split; [|split]].
    + rewrite Is, orb_true_iff, Z.eqb_eq. intuition congruence.
    + intros H. apply Ip. rewrite H. reflexivity.
    + intros H. apply Iq in H. rewrite orb_true_iff, andb_true_iff in H.
      rewrite Z.eqb_eq in H. intuition.
    + intros Hne [Heq|Hin].
      * apply Ip. subst sg.
        destruct (Z.eqb_spec SIGUSR2 SIGUSR1); [congruence|].
        rewrite Z.eqb_refl, orb_true_r. reflexivity.
      * apply Ir; assumption.
Qed.
End Signals.

(** ** The status line *)

Lemma all_digits_uint (d : Decimal.uint) :
  all_digits (DecimalString.NilEmpty.string_of_uint d) = true.
Proof. induction d; simpl; assumption || reflexivity. Qed.

Lemma decimal_all_digits (z : Z) : 0 <= z -> all_digits (decimal z) = true.
Proof.
  intros Hz. unfold decimal. destruct z as [|p|p]; [reflexivity| |lia].
  simpl. unfold DecimalString.NilZero.string_of_uint.
  destruct (Pos.to_uint p) eqn:E; try (rewrite <- E; apply all_digits_uint).
  reflexivity.
Qed.

Lemma decimal_inj (z1 z2 : Z) : decimal z1 = decimal z2 -> z1 = z2.
Proof.
  unfold decimal. intros H.
  assert (Hnn : forall z, Z.to_int z <> Decimal.Pos Decimal.Nil /\
                          Z.to_int z <> Decimal.Neg Decimal.Nil).
  { intros [|p|p]; simpl; split; try discriminate;
      intros E; inversion E as [E'];
      exact (DecimalPos.Unsigned.to_uint_nonnil p E'). }
  assert (Hi : Z.to_int z1 = Z.to_int z2).
  { destruct (Hnn z1) as [A1 A2]. destruct (Hnn z2) as [B1 B2].
    pose proof (DecimalString.NilZero.isi _ A1 A2) as I1.
    pose proof (DecimalString.NilZero.isi _ B1 B2) as I2.
    rewrite H in I1. congruence. }
  rewrite <- (DecimalZ.of_to z1), <- (DecimalZ.of_to z2), Hi. reflexivity.
Qed.

(** Two digit strings, each followed by a space and some rest. *)
Lemma digits_then_space (u1 : String.string) :
  forall u2 r1 r2,
    all_digits u1 = true -> all_digits u2 = true ->
    String.append u1 (String.String " " r1) =
    String.append u2 (String.String " " r2) ->
    u1 = u2 /\ r1 = r2.
Proof.
  induction u1 as [|c1 u1 IH]; intros [|c2 u2] r1 r2 D1 D2 H; simpl in H.
  - injection H as Hr. split; [reflexivity|exact Hr].
  - injection H as Hc Hr. rewrite <- Hc in D2. simpl in D2. discriminate.
  - injection H as Hc Hr. rewrite Hc in D1. simpl in D1. discriminate.
  - injection H as Hc Hr. subst c2. cbn [all_digits] in D1, D2.
    destruct (DecimalString.uint_of_char c1 (Some Decimal.Nil));
      [|discriminate].
    destruct (IH u2 r1 r2 D1 D2 Hr) as [-> ->]. split; reflexivity.
Qed.

Section StatusLine.
Variables Project Path : Type.

(** X14.  The status line [__str__] tells the four sizes apart: two
    schedulers with the same line have as many active, trimmed, dead-ended
    and errored paths as each other.  Each number is printed in decimal
    digits. *)
Theorem str_determines_the_four_sizes (sv1 sv2 : Surveyor Project Path) :
  __str__ sv1 = __str__ sv2 ->
  length (active sv1) = length (active sv2) /\
  length (trimmed sv1) = length (trimmed sv2) /\
  length (deadended sv1) = length (deadended sv2) /\
  length (errored sv1) = length (errored sv2).
Proof.
  unfold __str__. intros H.
  assert (Hpos : forall l : list Path, 0 <= len l) by (intros; unfold len; lia).
  assert (Hlen : forall l1 l2 : list Path,
             decimal (len l1) = decimal (len l2) -> length l1 = length l2).
  { intros l1 l2 E. apply decimal_inj in E. unfold len in E. lia. }
  apply digits_then_space in H; try (apply decimal_all_digits, Hpos).
  destruct H as [Ha H]. simpl in H. injection H as H.
  apply digits_then_space in H; try (apply decimal_all_digits, Hpos).
  destruct H as [Ht H]. simpl in H. injection H as H.
  apply digits_then_space in H; try (apply decimal_all_digits, Hpos).
  destruct H as [Hd H]. simpl in H. injection H as H.
  apply digits_then_space in H; try (apply decimal_all_digits, Hpos).
  destruct H as [He _].
  repeat split; apply Hlen; assumption.
Qed.
End StatusLine.

(** The line of a scheduler with two active paths and one parked. *)
Example str_of_a_stopped_scheduler :
  __str__ (self Demo.stopped_after_one_round)
  = "2 active, 1 trimmed, 0 deadended, 0 errored"%string.
Proof. reflexivity. Qed.

(** ** Construction, once more *)

Section Idle.
Variables Project Exit Path ErrorRecord World Fault : Type.
Variable Path_new : Project -> Exit -> Path.
Variable initial_exit : Project -> Exit.
Variable Path_errored : Path -> World -> list ErrorRecord.
Variable pdb_set_trace : Call Fault (Env World) unit.

(** X15.  The constructor leaves the active set empty in one case only:
    no single start and an empty sequence of starts (the default entry point
    is used when [starts] is left out, not when it is empty).  A scheduler
    built that way is done from the start: [run] with the hooks of the class
    returns it at once, whatever the budget. *)
Theorem init_is_idle_only_for_empty_starts
        (project : Project) (start : option Exit)
        (starts : option (list Exit)) (max_concurrency : option Z) :
  (active (init Path_new initial_exit project start starts max_concurrency)
     = [] <->
   start = None /\ starts = Some []) /\
  (forall (cp : Path -> Call Fault (Env World) (list Path))
          (e : Env World) (fuel : nat) (n : option Z),
      start = None -> starts = Some [] ->
      run Path_errored pdb_set_trace (Surveyor_hooks cp) (S fuel) n
          (mkState
             (init Path_new initial_exit project start starts max_concurrency)
             e)
      = Some (Ok (init Path_new initial_exit project start starts
                       max_concurrency)
                 (mkState
                    (init Path_new initial_exit project start starts
                          max_concurrency) e))).
Proof.
  split.
  - unfold init.
    destruct start as [e0|]; destruct starts as [[|e1 es]|]; simpl;
      rewrite ?analyze_exits; simpl; split;
      try discriminate; try (intros [H1 H2]; discriminate);
      try (intros _; split; reflexivity); try reflexivity.
  - intros cp e fuel n -> ->. reflexivity.
Qed.
End Idle.

(** ** The cases at work *)

(** Cutting three paths at 2 a second time changes nothing. *)
Lemma trim_twice_is_trim_demo :
  0 <= _max_concurrency (self (Demo.start Demo.sv_full)) /\
  bind (trim Demo.hooks) (fun _ => trim Demo.hooks) (Demo.start Demo.sv_full)
  = trim Demo.hooks (Demo.start Demo.sv_full).
Proof.
  split; [simpl; lia|].
  apply (trim_twice_is_trim Demo.continue_path (Demo.start Demo.sv_full)).
  simpl. lia.
Defined.

(** One active path and room for one more: the path longest parked comes
    back. *)
Lemma trim_untrim_fills_the_active_set_demo :
  0 <= _max_concurrency (self (Demo.start Cases.sv_room)) /\
  exists s',
    bind (trim Demo.hooks) (fun _ => untrim (Fault := Demo.Fault))
         (Demo.start Cases.sv_room) = Ok tt s' /\
    active (self s') = [1; 3]%nat /\
    trimmed (self s') = [4; 5]%nat.
Proof.
  split; [simpl; lia|].
  destruct (trim_untrim_fills_the_active_set
              Demo.continue_path (Demo.start Cases.sv_room))
    as (s' & Hs & _ & Hroom & _); [simpl; lia|].
  exists s'. split; [exact Hs|]. apply Hroom. unfold len. simpl. lia.
Defined.

(** Two rounds of an analysis that is never done. *)
Lemma run_only_appends_to_the_logs_demo :
  Demo.run Demo.endless_hooks 3 (Some 2) (Demo.start Demo.sv_seed)
    = Some (Ok (self Cases.after_two_rounds) Cases.after_two_rounds) /\
  _current_tick (self (Demo.start Demo.sv_seed))
    <= _current_tick (self Cases.after_two_rounds) /\
  _max_concurrency (self Cases.after_two_rounds)
    = _max_concurrency (self (Demo.start Demo.sv_seed)).
Proof.
  split; [reflexivity|].
  destruct (run_only_appends_to_the_logs
              Demo.Path_errored Demo.pdb_set_trace
              (Surveyor_tick_path Demo.continue_path)
              (@Surveyor_trim_path Demo.Path Demo.World Demo.Fault)
              (fun _ : Surveyor Demo.Project Demo.Path => ret false)
              3 (Some 2) (Demo.start Demo.sv_seed)
              (o := Ok (self Cases.after_two_rounds) Cases.after_two_rounds)
              eq_refl)
    as (_ & _ & Hc & Hm & _).
  split; [exact Hc|exact Hm].
Defined.

Lemma run_leaves_active_within_the_limit_demo :
  0 <= _max_concurrency (self (Demo.start Demo.sv_seed)) /\
  Demo.run Demo.endless_hooks 3 (Some 2) (Demo.start Demo.sv_seed)
    = Some (Ok (self Cases.after_two_rounds) Cases.after_two_rounds) /\
  (self Cases.after_two_rounds = self (Demo.start Demo.sv_seed) \/
   len (active (self Cases.after_two_rounds))
     <= _max_concurrency (self Cases.after_two_rounds)).
Proof.
  split; [simpl; lia|]. split; [reflexivity|].
  apply (run_leaves_active_within_the_limit
           Demo.Path_errored Demo.pdb_set_trace
           (Surveyor_tick_path Demo.continue_path)
           (@Surveyor_trim_path Demo.Path Demo.World Demo.Fault)
           (fun _ : Surveyor Demo.Project Demo.Path => ret false)
           3 (Some 2) (Demo.start Demo.sv_seed)
           (s' := Cases.after_two_rounds));
    [simpl; lia|reflexivity].
Defined.

(** A budget of two rounds on a path that keeps forking: both are used. *)
Lemma run_ends_done_or_out_of_budget_demo :
  Demo.run Demo.hooks 4 (Some 2) (Demo.start Demo.sv_seed)
    = Some (Ok (self Cases.after_two_rounds) Cases.after_two_rounds) /\
  STOP_RUNS (env Cases.after_two_rounds) = false /\
  (active (self Cases.after_two_rounds) = [] \/
   exists k, Some 2 = Some k /\
             _current_tick (self Cases.after_two_rounds)
             = _current_tick (self (Demo.start Demo.sv_seed)) + Z.max 0 k).
Proof.
  split; [reflexivity|]. split; [reflexivity|].
  apply (run_ends_done_or_out_of_budget
           Demo.Path_errored Demo.pdb_set_trace
           Demo.continue_path
           (@Surveyor_trim_path Demo.Path Demo.World Demo.Fault)
           4 (Some 2) (Demo.start Demo.sv_seed)
           (s' := Cases.after_two_rounds));
    reflexivity.
Defined.


(** Two active and three parked dead ends under a limit of 2: all five are
    stepped in order, and the one with an error record is logged. *)
Lemma run_drains_the_parked_paths_in_order_demo :
  exists sv',
    Demo.run Cases.dead_end_hooks 5 None
             (mkState Cases.sv_parked Cases.env_parked)
      = Some (Ok sv' (mkState sv' Cases.env_parked)) /\
    active sv' = [] /\
    trimmed sv' = [] /\
    deadended sv' = [1; 2; 3; 4; 5]%nat /\
    errored sv' = [4]%nat.
Proof.
  destruct (run_drains_the_parked_paths_in_order
              Demo.Path_errored Demo.pdb_set_trace Cases.dead_end
              (fuel := 5) (mkState Cases.sv_parked Cases.env_parked))
    as (sv' & Hrun & Ha & Ht & Hd & He);
    [reflexivity|simpl; lia|discriminate|reflexivity|reflexivity|simpl; lia|].
  exists sv'. split; [exact Hrun|]. split; [exact Ha|]. split; [exact Ht|].
  split; [exact Hd|exact He].
Defined.

(** Two schedulers with three active paths each print the same line. *)
Lemma str_determines_the_four_sizes_demo :
  __str__ Demo.sv_full = __str__ Demo.sv_mixed /\
  length (active Demo.sv_full) = length (active Demo.sv_mixed).
Proof.
  split; [reflexivity|].
  destruct (str_determines_the_four_sizes Demo.sv_full Demo.sv_mixed eq_refl)
    as (Ha & _).
  exact Ha.
Defined.

(** The exits of three active paths, collected in order. *)
Example active_exits_of_three_paths :
  active_exits Cases.flat_exits None None None (Demo.start Demo.sv_full)
  = Ok [1; 2; 5; 6; 9; 10]%nat (Demo.start Demo.sv_full).
Proof. reflexivity. Qed.

(** ** The store *)

Section Store.
Variables Project Path World : Type.

Lemma put_length (r : Live.Ref) (l : list Path) (hp : list (list Path)) :
  length (Live.put r l hp) = length hp.
Proof.
  revert r. induction hp as [|x hp IH]; intros [|r]; simpl; auto.
Qed.

Lemma nth_put_same (r : Live.Ref) (l : list Path) (hp : list (list Path)) :
  (r < length hp)%nat -> nth r (Live.put r l hp) [] = l.
Proof.
  revert r. induction hp as [|x hp IH]; intros [|r] H; simpl in *;
    try lia; auto. apply IH. lia.
Qed.

Lemma nth_put_other (r r' : Live.Ref) (l : list Path)
      (hp : list (list Path)) :
  r' <> r -> nth r' (Live.put r l hp) [] = nth r' hp [].
Proof.
  revert r r'. induction hp as [|x hp IH]; intros [|r] [|r'] H; simpl;
    try congruence; auto.
Qed.

Lemma deref_extend_same (r : Live.Ref) (l : list Path)
      (s : Live.State Project Path World) :
  (r < length (Live.heap s))%nat ->
  Live.deref r (Live.extend r l s) = Live.deref r s ++ l.
Proof.
  intros H. unfold Live.extend, Live.deref. simpl.
  apply nth_put_same, H.
Qed.

Lemma deref_extend_other (r r' : Live.Ref) (l : list Path)
      (s : Live.State Project Path World) :
  r' <> r -> Live.deref r' (Live.extend r l s) = Live.deref r' s.
Proof.
  intros H. unfold Live.extend, Live.deref. simpl.
  apply nth_put_other, H.
Qed.

Lemma extend_same_objects (r : Live.Ref) (l : list Path)
      (s : Live.State Project Path World) :
  Live.self (Live.extend r l s) = Live.self s /\
  Live.env (Live.extend r l s) = Live.env s /\
  length (Live.heap (Live.extend r l s)) = length (Live.heap s).
Proof. unfold Live.extend. simpl. rewrite put_length. auto. Qed.

Lemma deref_new_list (l : list Path) (s : Live.State Project Path World) :
  Live.deref (fst (Live.new_list l s)) (snd (Live.new_list l s)) = l.
Proof.
  unfold Live.new_list, Live.deref. simpl.
  rewrite app_nth2, Nat.sub_diag; [reflexivity|lia].
Qed.

Lemma deref_new_list_old (r : Live.Ref) (l : list Path)
      (s : Live.State Project Path World) :
  (r < length (Live.heap s))%nat ->
  Live.deref r (snd (Live.new_list l s)) = Live.deref r s.
Proof.
  intros H. unfold Live.new_list, Live.deref. simpl.
  apply app_nth1, H.
Qed.

Lemma deref_on_self (r : Live.Ref)
      (f : Live.Surveyor Project -> Live.Surveyor Project)
      (s : Live.State Project Path World) :
  Live.deref r (Live.on_self f s) = Live.deref r s.
Proof. reflexivity. Qed.

Lemma separate_same_objects (s s1 : Live.State Project Path World) :
  Live.separate s -> Live.same_objects s s1 -> Live.separate s1.
Proof.
  unfold Live.separate, Live.same_objects. intros H [Hs Hl].
  rewrite Hs. intuition lia.
Qed.

Lemma same_objects_refl (s : Live.State Project Path World) :
  Live.same_objects s s.
Proof. split; [reflexivity|lia]. Qed.

Lemma same_objects_trans (s1 s2 s3 : Live.State Project Path World) :
  Live.same_objects s1 s2 -> Live.same_objects s2 s3 ->
  Live.same_objects s1 s3.
Proof.
  unfold Live.same_objects. intros [H1 L1] [H2 L2].
  split; [congruence|lia].
Qed.

Lemma skipn_nth_error (l : list Path) (i : nat) (p : Path) :
  nth_error l i = Some p -> skipn i l = p :: skipn (S i) l.
Proof.
  revert i. induction l as [|x l IH]; intros [|i] H; simpl in *;
    try discriminate.
  - congruence.
  - apply IH, H.
Qed.

Lemma skipn_nth_error_None (l : list Path) (i : nat) :
  nth_error l i = None -> skipn i l = [].
Proof. intros H. apply skipn_all2, nth_error_None, H. Qed.
End Store.

(** ** A tick over a list that can grow *)

Section LiveTick.
Variables Project Path ErrorRecord World Fault : Type.
Variable Path_errored : Path -> World -> list ErrorRecord.
Variable h : Live.Methods Project Path World Fault.

Lemma record_path_spec (p : Path) (successors : list Path)
      (s : Live.State Project Path World) :
  Live.separate s ->
  let s' := Live.record_path Path_errored p successors s in
  Live.self s' = Live.self s /\
  Live.env s' = Live.env s /\
  length (Live.heap s') = length (Live.heap s) /\
  Live.deref (Live.active (Live.self s)) s' =
    Live.deref (Live.active (Live.self s)) s /\
  Live.deref (Live.trimmed (Live.self s)) s' =
    Live.deref (Live.trimmed (Live.self s)) s /\
  Live.deref (Live.errored (Live.self s)) s' =
    Live.deref (Live.errored (Live.self s)) s ++
    (if 0 <? len (Path_errored p (world (Live.env s))) then [p] else []) /\
  Live.deref (Live.deadended (Live.self s)) s' =
    Live.deref (Live.deadended (Live.self s)) s ++
    (if len successors =? 0 then [p] else []).
Proof.
  intros Hsep. unfold Live.record_path. cbv zeta.
  unfold Live.separate in Hsep.
  destruct (0 <? len (Path_errored p (world (Live.env s))));
    destruct (len successors =? 0);
    repeat rewrite ?(proj1 (extend_same_objects _ _ _)),
                   ?(proj1 (proj2 (extend_same_objects _ _ _))),
                   ?(proj2 (proj2 (extend_same_objects _ _ _)));
    repeat (rewrite ?deref_extend_same, ?deref_extend_other, ?app_nil_r
              by (rewrite ?(proj2 (proj2 (extend_same_objects _ _ _)));
                  intuition lia));
    repeat split.
Qed.

Lemma steps_cons (p : Path) (rest : list Path)
      (s : Live.State Project Path World) :
  Live.step_all Path_errored h (p :: rest) s =
  match Live.tick_path h p s with
  | Raise f s1 => Raise f s1
  | Ok successors s1 =>
      match Live.step_all Path_errored h rest
                          (Live.record_path Path_errored p successors s1)
      with
      | Ok obs s' =>
          Ok ((successors, 0 <? len (Path_errored p (world (Live.env s1))))
                :: obs) s'
      | Raise f s' => Raise f s'
      end
  end.
Proof.
  cbn [Live.step_all]. unfold bind at 1.
  destruct (Live.tick_path h p s) as [successors s1|f s1]; reflexivity.
Qed.

Lemma steps_length (ps : list Path) :
  forall (s : Live.State Project Path World) obs s',
    Live.step_all Path_errored h ps s = Ok obs s' ->
    length obs = length ps.
Proof.
  induction ps as [|p rest IH]; intros s obs s' H.
  - inversion H. reflexivity.
  - rewrite steps_cons in H.
    destruct (Live.tick_path h p s) as [successors s1|f s1];
      [|discriminate].
    destruct (Live.step_all Path_errored h rest
                (Live.record_path Path_errored p successors s1))
      as [obs' s2|f s2] eqn:Hrest; [|discriminate].
    inversion H; subst. simpl. f_equal. exact (IH _ _ _ Hrest).
Qed.

Section Seeding.
Hypothesis Hseeding : Live.seeding h.

Lemma tick_walk_ok (fuel : nat) :
  forall (i : nat) (acc : list Path) (s : Live.State Project Path World)
         (acc' : list Path) (s' : Live.State Project Path World),
    Live.separate s ->
    Live.tick_loop Path_errored h fuel (Live.active (Live.self s)) i acc s
      = Some (Ok acc' s') ->
    exists seeded obs,
      Live.same_objects s s' /\
      Live.deref (Live.active (Live.self s)) s' =
        Live.deref (Live.active (Live.self s)) s ++ seeded /\
      Live.step_all Path_errored h
                    (skipn i (Live.deref (Live.active (Live.self s)) s')) s
        = Ok obs s' /\
      Live.deref (Live.errored (Live.self s)) s' =
        Live.deref (Live.errored (Live.self s)) s ++
        chosen had_errors
               (skipn i (Live.deref (Live.active (Live.self s)) s')) obs /\
      Live.deref (Live.deadended (Live.self s)) s' =
        Live.deref (Live.deadended (Live.self s)) s ++
        chosen no_successors
               (skipn i (Live.deref (Live.active (Live.self s)) s')) obs /\
      Live.deref (Live.trimmed (Live.self s)) s' =
        Live.deref (Live.trimmed (Live.self s)) s /\
      acc' = acc ++ concat (map fst obs).
Proof.
  induction fuel as [|fuel IH]; intros i acc s acc' s' Hsep H;
    [discriminate|].
  simpl in H.
  destruct (nth_error (Live.deref (Live.active (Live.self s)) s) i)
    as [p|] eqn:Hnth.
  - destruct (Live.tick_path h p s) as [successors s1|f s1] eqn:Hstep;
      [|discriminate].
    pose proof (Hseeding p Hsep) as Hseed. rewrite Hstep in Hseed.
    simpl in Hseed.
    destruct Hseed as (Hobj & [seeded1 Hact] & Hdead & Htrim & Herr).
    pose proof (separate_same_objects Hsep Hobj) as Hsep1.
    pose proof (record_path_spec p successors Hsep1) as Hrec.
    cbv zeta in Hrec.
    set (s2 := Live.record_path Path_errored p successors s1) in *.
    destruct Hobj as [Hself1 Hlen1].
    rewrite Hself1 in Hrec.
    destruct Hrec as (Hself2 & Henv2 & Hlen2 & Hact2 & Htrim2 & Herr2 & Hdead2).
    assert (Hobj2 : Live.same_objects s s2)
      by (split; [congruence|lia]).
    pose proof (separate_same_objects Hsep Hobj2) as Hsep2.
    assert (Ha : Live.active (Live.self s) = Live.active (Live.self s2))
      by congruence.
    rewrite Ha in H.
    destruct (IH _ _ _ _ _ Hsep2 H)
      as (seeded2 & obs & Hobj' & Hact' & Hobs & Herr' & Hdead' & Htrim'
          & Hacc).
    assert (Hs2 : Live.self s2 = Live.self s) by congruence.
    rewrite Hs2 in *.
    assert (Hfull : Live.deref (Live.active (Live.self s)) s' =
                    Live.deref (Live.active (Live.self s)) s
                    ++ (seeded1 ++ seeded2)).
    { rewrite Hact', Hact2, Hact, app_assoc. reflexivity. }
    assert (Hp : nth_error (Live.deref (Live.active (Live.self s)) s') i
                 = Some p).
    { rewrite Hfull. rewrite nth_error_app1; [exact Hnth|].
      apply nth_error_Some. congruence. }
    rewrite (skipn_nth_error _ _ Hp).
    exists (seeded1 ++ seeded2).
    exists ((successors,
             0 <? len (Path_errored p (world (Live.env s1)))) :: obs).
    split; [exact (same_objects_trans Hobj2 Hobj')|].
    split; [exact Hfull|].
    split.
    { rewrite steps_cons, Hstep. fold s2. rewrite Hobs. reflexivity. }
    rewrite !chosen_cons. unfold had_errors at 1, no_successors at 1.
    simpl fst. simpl snd.
    split; [rewrite Herr', Herr2, Herr, <- app_assoc; reflexivity|].
    split; [rewrite Hdead', Hdead2, Hdead, <- app_assoc; reflexivity|].
    split; [rewrite Htrim', Htrim2, Htrim; reflexivity|].
    rewrite Hacc. simpl. rewrite app_assoc. reflexivity.
  - inversion H; subst acc' s'. exists [], [].
    rewrite (skipn_nth_error_None _ _ Hnth).
    split; [apply same_objects_refl|].
    rewrite !app_nil_r. repeat split.
Qed.

Lemma tick_walk_raise (fuel : nat) :
  forall (i : nat) (acc : list Path) (s : Live.State Project Path World)
         (f : Fault) (s' : Live.State Project Path World),
    Live.separate s ->
    Live.tick_loop Path_errored h fuel (Live.active (Live.self s)) i acc s
      = Some (Raise f s') ->
    exists seeded obs j p s0,
      Live.same_objects s s' /\
      Live.deref (Live.active (Live.self s)) s' =
        Live.deref (Live.active (Live.self s)) s ++ seeded /\
      (i <= j)%nat /\
      nth_error (Live.deref (Live.active (Live.self s)) s') j = Some p /\
      Live.tick_path h p s0 = Raise f s' /\
      Live.step_all Path_errored h
                    (firstn (j - i)
                       (skipn i (Live.deref (Live.active (Live.self s)) s')))
                    s
        = Ok obs s0 /\
      Live.deref (Live.errored (Live.self s)) s' =
        Live.deref (Live.errored (Live.self s)) s ++
        chosen had_errors
               (firstn (j - i)
                  (skipn i (Live.deref (Live.active (Live.self s)) s')))
               obs /\
      Live.deref (Live.deadended (Live.self s)) s' =
        Live.deref (Live.deadended (Live.self s)) s ++
        chosen no_successors
               (firstn (j - i)
                  (skipn i (Live.deref (Live.active (Live.self s)) s')))
               obs /\
      Live.deref (Live.trimmed (Live.self s)) s' =
        Live.deref (Live.trimmed (Live.self s)) s.
Proof.
  induction fuel as [|fuel IH]; intros i acc s f s' Hsep H;
    [discriminate|].
  simpl in H.
  destruct (nth_error (Live.deref (Live.active (Live.self s)) s) i)
    as [p|] eqn:Hnth; [|discriminate].
  pose proof (Hseeding p Hsep) as Hseed.
  destruct (Live.tick_path h p s) as [successors s1|f1 s1] eqn:Hstep.
  - simpl in Hseed.
    destruct Hseed as (Hobj & [seeded1 Hact] & Hdead & Htrim & Herr).
    pose proof (separate_same_objects Hsep Hobj) as Hsep1.
    pose proof (record_path_spec p successors Hsep1) as Hrec.
    cbv zeta in Hrec.
    set (s2 := Live.record_path Path_errored p successors s1) in *.
    destruct Hobj as [Hself1 Hlen1].
    rewrite Hself1 in Hrec.
    destruct Hrec as (Hself2 & Henv2 & Hlen2 & Hact2 & Htrim2 & Herr2 & Hdead2).
    assert (Hobj2 : Live.same_objects s s2)
      by (split; [congruence|lia]).
    pose proof (separate_same_objects Hsep Hobj2) as Hsep2.
    assert (Ha : Live.active (Live.self s) = Live.active (Live.self s2))
      by congruence.
    rewrite Ha in H.
    destruct (IH _ _ _ _ _ Hsep2 H)
      as (seeded2 & obs & j & q & s0 & Hobj' & Hact' & Hij & Hq & Hraise
          & Hobs & Herr' & Hdead' & Htrim').
    assert (Hs2 : Live.self s2 = Live.self s) by congruence.
    rewrite Hs2 in *.
    assert (Hfull : Live.deref (Live.active (Live.self s)) s' =
                    Live.deref (Live.active (Live.self s)) s
                    ++ (seeded1 ++ seeded2)).
    { rewrite Hact', Hact2, Hact, app_assoc. reflexivity. }
    assert (Hp : nth_error (Live.deref (Live.active (Live.self s)) s') i
                 = Some p).
    { rewrite Hfull. rewrite nth_error_app1; [exact Hnth|].
      apply nth_error_Some. congruence. }
    exists (seeded1 ++ seeded2).
    exists ((successors,
             0 <? len (Path_errored p (world (Live.env s1)))) :: obs).
    exists j, q, s0.
    rewrite (skipn_nth_error _ _ Hp).
    replace (j - i)%nat with (S (j - S i)) by lia.
    rewrite firstn_cons.
    split; [exact (same_objects_trans Hobj2 Hobj')|].
    split; [exact Hfull|]. split; [lia|]. split; [exact Hq|].
    split; [exact Hraise|].
    split.
    { rewrite steps_cons, Hstep. fold s2. rewrite Hobs. reflexivity. }
    rewrite !chosen_cons. unfold had_errors at 1, no_successors at 1.
    simpl fst. simpl snd.
    split; [rewrite Herr', Herr2, Herr, <- app_assoc; reflexivity|].
    split; [rewrite Hdead', Hdead2, Hdead, <- app_assoc; reflexivity|].
    rewrite Htrim', Htrim2, Htrim; reflexivity.
  - inversion H; subst f1 s1. simpl in Hseed.
    destruct Hseed as (Hobj & [seeded1 Hact] & Hdead & Htrim & Herr).
    exists seeded1, [], i, p, s.
    rewrite Nat.sub_diag. simpl. rewrite !app_nil_r.
    split; [exact Hobj|]. split; [exact Hact|]. split; [lia|].
    split.
    { rewrite Hact. rewrite nth_error_app1; [exact Hnth|].
      apply nth_error_Some. congruence. }
    split; [exact Hstep|]. split; [reflexivity|].
    auto.
Qed.

(** The active list of a loop whose steps settle stays within the
    bound. *)
Lemma tick_walk_bound (bound : nat) (Hsettling : Live.settling h bound)
      (fuel : nat) :
  forall (i : nat) (acc : list Path) (s : Live.State Project Path World)
         (o : Outcome Fault (Live.State Project Path World) (list Path)),
    Live.separate s ->
    Live.tick_loop Path_errored h fuel (Live.active (Live.self s)) i acc s
      = Some o ->
    (length (Live.deref (Live.active (Live.self s)) (final_state o))
     <= Nat.max bound (length (Live.deref (Live.active (Live.self s)) s)))%nat.
Proof.
  induction fuel as [|fuel IH]; intros i acc s o Hsep H;
    [discriminate|].
  simpl in H.
  destruct (nth_error (Live.deref (Live.active (Live.self s)) s) i)
    as [p|] eqn:Hnth.
  - pose proof (Hseeding p Hsep) as Hseed.
    pose proof (Hsettling p s Hsep) as Hset.
    destruct (Live.tick_path h p s) as [successors s1|f1 s1] eqn:Hstep.
    + simpl in Hseed, Hset.
      destruct Hseed as (Hobj & _).
      pose proof (separate_same_objects Hsep Hobj) as Hsep1.
      pose proof (record_path_spec p successors Hsep1) as Hrec.
      cbv zeta in Hrec.
      set (s2 := Live.record_path Path_errored p successors s1) in *.
      destruct Hobj as [Hself1 Hlen1].
      rewrite Hself1 in Hrec.
      destruct Hrec as (Hself2 & _ & Hlen2 & Hact2 & _).
      assert (Hobj2 : Live.same_objects s s2)
        by (split; [congruence|lia]).
      pose proof (separate_same_objects Hsep Hobj2) as Hsep2.
      assert (Ha : Live.active (Live.self s) = Live.active (Live.self s2))
        by congruence.
      rewrite Ha in H.
      pose proof (IH _ _ _ _ Hsep2 H) as Hb.
      rewrite <- Ha in Hb. rewrite Hact2 in Hb. lia.
    + inversion H; subst o. exact Hset.
  - inversion H; subst o. simpl. lia.
Qed.

(** Such a loop comes to its end. *)
Lemma tick_walk_ends (bound : nat) (Hsettling : Live.settling h bound)
      (fuel : nat) :
  forall (i : nat) (acc : list Path) (s : Live.State Project Path World),
    Live.separate s ->
    (Nat.max bound (length (Live.deref (Live.active (Live.self s)) s)) - i
     < fuel)%nat ->
    exists o,
      Live.tick_loop Path_errored h fuel (Live.active (Live.self s)) i acc s
        = Some o.
Proof.
  induction fuel as [|fuel IH]; intros i acc s Hsep Hfuel; [lia|].
  simpl.
  destruct (nth_error (Live.deref (Live.active (Live.self s)) s) i)
    as [p|] eqn:Hnth; [|eexists; reflexivity].
  assert (Hi : (i < length (Live.deref (Live.active (Live.self s)) s))%nat)
    by (apply nth_error_Some; congruence).
  pose proof (Hseeding p Hsep) as Hseed.
  pose proof (Hsettling p s Hsep) as Hset.
  destruct (Live.tick_path h p s) as [successors s1|f1 s1] eqn:Hstep;
    [|eexists; reflexivity].
  simpl in Hseed, Hset.
  destruct Hseed as (Hobj & _).
  pose proof (separate_same_objects Hsep Hobj) as Hsep1.
  pose proof (record_path_spec p successors Hsep1) as Hrec.
  cbv zeta in Hrec.
  set (s2 := Live.record_path Path_errored p successors s1) in *.
  destruct Hobj as [Hself1 Hlen1].
  rewrite Hself1 in Hrec.
  destruct Hrec as (Hself2 & _ & Hlen2 & Hact2 & _).
  assert (Hobj2 : Live.same_objects s s2)
    by (split; [congruence|lia]).
  pose proof (separate_same_objects Hsep Hobj2) as Hsep2.
  assert (Ha : Live.active (Live.self s) = Live.active (Live.self s2))
    by congruence.
  rewrite Ha. apply IH; [exact Hsep2|].
  rewrite <- Ha, Hact2. lia.
Qed.

(** A loop whose steps seed every time has always a path in front of
    it. *)
Lemma tick_walk_never_ends (Hrestless : Live.restless h) (fuel : nat) :
  forall (i : nat) (acc : list Path) (s : Live.State Project Path World),
    Live.separate s ->
    (i < length (Live.deref (Live.active (Live.self s)) s))%nat ->
    Live.tick_loop Path_errored h fuel (Live.active (Live.self s)) i acc s
    = None.
Proof.
  induction fuel as [|fuel IH]; intros i acc s Hsep Hi; [reflexivity|].
  cbn [Live.tick_loop].
  destruct (nth_error (Live.deref (Live.active (Live.self s)) s) i)
    as [p|] eqn:Hnth; [|apply nth_error_None in Hnth; lia].
  pose proof (Hseeding p Hsep) as Hseed.
  destruct (Hrestless p s Hsep) as [Hret Hgrow].
  destruct (Live.tick_path h p s) as [successors s1|f1 s1] eqn:Hstep;
    [|discriminate].
  simpl in Hseed, Hgrow. destruct Hseed as (Hobj & _).
  pose proof (separate_same_objects Hsep Hobj) as Hsep1.
  pose proof (record_path_spec p successors Hsep1) as Hrec.
  cbv zeta in Hrec.
  set (s2 := Live.record_path Path_errored p successors s1) in *.
  destruct Hobj as [Hself1 Hlen1]. rewrite Hself1 in Hrec.
  destruct Hrec as (Hself2 & _ & Hlen2 & Hact2 & _).
  assert (Hobj2 : Live.same_objects s s2) by (split; [congruence|lia]).
  assert (Ha : Live.active (Live.self s) = Live.active (Live.self s2))
    by congruence.
  rewrite Ha. apply IH.
  - exact (separate_same_objects Hsep Hobj2).
  - rewrite <- Ha, Hact2. lia.
Qed.
End Seeding.

(** Whatever the methods do, a fault that leaves the loop is the fault of
    a step, with the state the step left. *)
Lemma tick_walk_fault (fuel : nat) :
  forall (it : Live.Ref) (i : nat) (acc : list Path)
         (s : Live.State Project Path World)
         (f : Fault) (s' : Live.State Project Path World),
    Live.tick_loop Path_errored h fuel it i acc s = Some (Raise f s') ->
    exists p s0, Live.tick_path h p s0 = Raise f s'.
Proof.
  induction fuel as [|fuel IH]; intros it i acc s f s' H; [discriminate|].
  simpl in H.
  destruct (nth_error (Live.deref it s) i) as [p|]; [|discriminate].
  destruct (Live.tick_path h p s) as [successors s1|f1 s1] eqn:Hstep.
  - exact (IH _ _ _ _ _ _ H).
  - inversion H; subst. exists p, s. exact Hstep.
Qed.

(** More fuel does not change what a loop that ended has done. *)
Lemma tick_walk_more_fuel (fuel : nat) :
  forall (it : Live.Ref) (i : nat) (acc : list Path)
         (s : Live.State Project Path World) o (extra : nat),
    Live.tick_loop Path_errored h fuel it i acc s = Some o ->
    Live.tick_loop Path_errored h (fuel + extra) it i acc s = Some o.
Proof.
  induction fuel as [|fuel IH]; intros it i acc s o extra H; [discriminate|].
  simpl in *.
  destruct (nth_error (Live.deref it s) i) as [p|]; [|exact H].
  destruct (Live.tick_path h p s) as [successors s1|f1 s1]; [|exact H].
  apply IH, H.
Qed.

Lemma tick_walk_unfold (fuel : nat) (s : Live.State Project Path World) :
  Live.tick Path_errored h fuel s =
  match Live.tick_loop Path_errored h fuel (Live.active (Live.self s)) 0 [] s
  with
  | None => None
  | Some (Raise f s1) => Some (Raise f s1)
  | Some (Ok new_active s1) =>
      let sv' := Live.set_current_tick
                   (Live._current_tick (Live.self s1) + 1)
                   (Live.set_active (length (Live.heap s1)) (Live.self s1)) in
      Some (Ok sv' (Live.mkState sv' (Live.heap s1 ++ [new_active])
                                 (Live.env s1)))
  end.
Proof. reflexivity. Qed.
End LiveTick.

(** ** A filter pass over a list that can grow *)

Section LiveTrim.
Variables Project Path World Fault : Type.
Variable h : Live.Methods Project Path World Fault.

Lemma parked_from_refl (s : Live.State Project Path World) :
  Live.parked_from s s.
Proof.
  split; [apply same_objects_refl|].
  repeat split. exists []. rewrite app_nil_r. reflexivity.
Qed.

Lemma parked_from_trans (s1 s2 s3 : Live.State Project Path World) :
  Live.parked_from s1 s2 -> Live.parked_from s2 s3 ->
  Live.parked_from s1 s3.
Proof.
  intros (Ho1 & Ha1 & Hd1 & [l1 Ht1] & He1) (Ho2 & Ha2 & Hd2 & [l2 Ht2] & He2).
  pose proof (proj1 Ho1) as Hs. rewrite Hs in *.
  split; [exact (same_objects_trans Ho1 Ho2)|].
  split; [congruence|]. split; [congruence|].
  split; [|congruence].
  exists (l1 ++ l2). rewrite Ht2, Ht1, app_assoc. reflexivity.
Qed.

(** Whatever the methods do, a fault that leaves the filter pass is the
    fault of the filter, with the state the filter left. *)
Lemma trim_walk_fault (fuel : nat) :
  forall (it : Live.Ref) (i : nat) (kept : list Path)
         (s : Live.State Project Path World)
         (f : Fault) (s' : Live.State Project Path World),
    Live.trim_each h fuel it i kept s = Some (Raise f s') ->
    exists p s0, Live.trim_path h p s0 = Raise f s'.
Proof.
  induction fuel as [|fuel IH]; intros it i kept s f s' H; [discriminate|].
  simpl in H.
  destruct (nth_error (Live.deref it s) i) as [p|]; [|discriminate].
  destruct (Live.trim_path h p s) as [excluded s1|f1 s1] eqn:Hstep.
  - exact (IH _ _ _ _ _ _ H).
  - inversion H; subst. exists p, s. exact Hstep.
Qed.

Lemma trim_walk_more_fuel (fuel : nat) :
  forall (it : Live.Ref) (i : nat) (kept : list Path)
         (s : Live.State Project Path World) o (extra : nat),
    Live.trim_each h fuel it i kept s = Some o ->
    Live.trim_each h (fuel + extra) it i kept s = Some o.
Proof.
  induction fuel as [|fuel IH]; intros it i kept s o extra H; [discriminate|].
  simpl in *.
  destruct (nth_error (Live.deref it s) i) as [p|]; [|exact H].
  destruct (Live.trim_path h p s) as [excluded s1|f1 s1]; [|exact H].
  apply IH, H.
Qed.

Lemma trim_walk_unfold (fuel : nat) (s : Live.State Project Path World) :
  Live.trim h fuel s =
  match Live.trim_each h fuel (Live.active (Live.self s)) 0 [] s with
  | None => None
  | Some (Raise f s1) => Some (Raise f s1)
  | Some (Ok kept s1) =>
      match Live.trim_paths h (length (Live.heap s1))
                            (Live.set_heap (Live.heap s1 ++ [kept]) s1) with
      | Raise f s3 => Some (Raise f s3)
      | Ok new_active' s3 =>
          Some (Ok tt (Live.on_self (Live.set_active new_active') s3))
      end
  end.
Proof. reflexivity. Qed.

Lemma trim_fault (fuel : nat) (s : Live.State Project Path World)
      (f : Fault) (s' : Live.State Project Path World) :
  Live.trim h fuel s = Some (Raise f s') ->
  (exists p s0, Live.trim_path h p s0 = Raise f s') \/
  (exists r s0, Live.trim_paths h r s0 = Raise f s').
Proof.
  rewrite trim_walk_unfold. intros H.
  destruct (Live.trim_each h fuel (Live.active (Live.self s)) 0 [] s)
    as [[kept s1|f1 s1]|] eqn:He; [| |discriminate].
  - destruct (Live.trim_paths h (length (Live.heap s1))
                (Live.set_heap (Live.heap s1 ++ [kept]) s1))
      as [r s3|f3 s3] eqn:Hp; [discriminate|].
    inversion H; subst. right. eexists _, _. exact Hp.
  - inversion H; subst. left. exact (trim_walk_fault _ _ _ _ _ He).
Qed.

Section Parking.
Hypothesis Hparking : Live.parking h.

Lemma trim_walk_parks (fuel : nat) :
  forall (i : nat) (kept : list Path) (s : Live.State Project Path World)
         (o : Outcome Fault (Live.State Project Path World) (list Path)),
    Live.separate s ->
    Live.trim_each h fuel (Live.active (Live.self s)) i kept s = Some o ->
    Live.parked_from s (final_state o).
Proof.
  induction fuel as [|fuel IH]; intros i kept s o Hsep H; [discriminate|].
  simpl in H.
  destruct (nth_error (Live.deref (Live.active (Live.self s)) s) i)
    as [p|] eqn:Hnth.
  - pose proof (Hparking p Hsep) as Hpark.
    destruct (Live.trim_path h p s) as [excluded s1|f1 s1] eqn:Hstep;
      simpl in Hpark.
    + pose proof (separate_same_objects Hsep (proj1 Hpark)) as Hsep1.
      assert (Ha : Live.active (Live.self s) = Live.active (Live.self s1))
        by (rewrite (proj1 (proj1 Hpark)); reflexivity).
      rewrite Ha in H.
      exact (parked_from_trans Hpark (IH _ _ _ _ Hsep1 H)).
    + inversion H; subst o. exact Hpark.
  - inversion H; subst o. apply parked_from_refl.
Qed.

Lemma trim_walk_ends (fuel : nat) :
  forall (i : nat) (kept : list Path) (s : Live.State Project Path World),
    Live.separate s ->
    (length (Live.deref (Live.active (Live.self s)) s) - i < fuel)%nat ->
    exists o,
      Live.trim_each h fuel (Live.active (Live.self s)) i kept s = Some o.
Proof.
  induction fuel as [|fuel IH]; intros i kept s Hsep Hfuel; [lia|].
  simpl.
  destruct (nth_error (Live.deref (Live.active (Live.self s)) s) i)
    as [p|] eqn:Hnth; [|eexists; reflexivity].
  assert (Hi : (i < length (Live.deref (Live.active (Live.self s)) s))%nat)
    by (apply nth_error_Some; congruence).
  pose proof (Hparking p Hsep) as Hpark.
  destruct (Live.trim_path h p s) as [excluded s1|f1 s1] eqn:Hstep;
    [|eexists; reflexivity].
  simpl in Hpark.
  pose proof (separate_same_objects Hsep (proj1 Hpark)) as Hsep1.
  destruct Hpark as ([Hself _] & Hact & _).
  assert (Ha : Live.active (Live.self s) = Live.active (Live.self s1))
    by congruence.
  rewrite Ha. apply IH; [exact Hsep1|].
  rewrite <- Ha, Hact. lia.
Qed.

(** With the [trim_paths] of the class: what a [trim] does to the
    scheduler.  The overflow is parked behind what the filter parked. *)
Lemma trim_class (fuel : nat) (s : Live.State Project Path World)
      (o : Outcome Fault (Live.State Project Path World) unit) :
  Live.trim_paths h = Live.Surveyor_trim_paths (Fault := Fault) ->
  Live.separate s ->
  Live.trim h fuel s = Some o ->
  Live._project (Live.self (final_state o)) = Live._project (Live.self s) /\
  Live._max_concurrency (Live.self (final_state o))
    = Live._max_concurrency (Live.self s) /\
  Live.deadended (Live.self (final_state o)) = Live.deadended (Live.self s) /\
  Live.trimmed (Live.self (final_state o)) = Live.trimmed (Live.self s) /\
  Live.errored (Live.self (final_state o)) = Live.errored (Live.self s) /\
  Live._current_tick (Live.self (final_state o))
    = Live._current_tick (Live.self s) /\
  ((exists f, o = Raise f (final_state o)) ->
   Live.parked_from s (final_state o) /\
   exists f p s0, o = Raise f (final_state o) /\
                  Live.trim_path h p s0 = Raise f (final_state o)).
Proof.
  intros Hclass Hsep. rewrite trim_walk_unfold. intros H.
  destruct (Live.trim_each h fuel (Live.active (Live.self s)) 0 [] s)
    as [[kept s1|f1 s1]|] eqn:He; [| |discriminate].
  - pose proof (trim_walk_parks _ _ _ Hsep He) as Hpark. simpl in Hpark.
    destruct Hpark as ([Hself _] & _).
    rewrite Hclass in H. unfold Live.Surveyor_trim_paths in H.
    simpl in H. inversion H; subst o.
    unfold Live.on_self, Live.extend, Live.set_heap. simpl.
    rewrite Hself.
    repeat match goal with |- _ /\ _ => split end; try reflexivity.
    intros [f Hf]. discriminate.
  - inversion H; subst o.
    pose proof (trim_walk_parks _ _ _ Hsep He) as Hpark. simpl in *.
    pose proof (proj1 (proj1 Hpark)) as Hself. rewrite Hself.
    repeat match goal with |- _ /\ _ => split end; try reflexivity.
    intros _. split; [exact Hpark|].
    destruct (trim_walk_fault _ _ _ _ _ He) as (p & s0 & Hp).
    exists f1, p, s0. split; [reflexivity|exact Hp].
Qed.
End Parking.

(** X6.  With the [trim_paths] of the class and a filter that parks, a
    [trim] comes to its end, and when it ends with a fault the fault is
    that of the filter: every list of the scheduler is as it was, but for
    the trimmed list, which holds what it held and, behind that, the paths
    the filter parked before the fault. *)
Theorem trim_that_raises_keeps_what_was_parked
        (s : Live.State Project Path World) :
  Live.parking h ->
  Live.trim_paths h = Live.Surveyor_trim_paths (Fault := Fault) ->
  Live.separate s ->
  (exists o,
      Live.trim h (S (length (Live.deref (Live.active (Live.self s)) s))) s
      = Some o) /\
  (forall fuel f s',
      Live.trim h fuel s = Some (Raise f s') ->
      (exists p s0, Live.trim_path h p s0 = Raise f s') /\
      Live.self s' = Live.self s /\
      Live.deref (Live.active (Live.self s')) s' =
        Live.deref (Live.active (Live.self s)) s /\
      Live.deref (Live.deadended (Live.self s')) s' =
        Live.deref (Live.deadended (Live.self s)) s /\
      Live.deref (Live.errored (Live.self s')) s' =
        Live.deref (Live.errored (Live.self s)) s /\
      exists parked,
        Live.deref (Live.trimmed (Live.self s')) s' =
          Live.deref (Live.trimmed (Live.self s)) s ++ parked).
Proof.
  intros Hparking Hclass Hsep. split.
  - destruct (trim_walk_ends Hparking
                (fuel := S (length (Live.deref (Live.active (Live.self s)) s)))
                0 [] Hsep) as [o Ho]; [lia|].
    rewrite trim_walk_unfold, Ho. destruct o as [kept s1|f s1]; [|eauto].
    rewrite Hclass. unfold Live.Surveyor_trim_paths. simpl. eauto.
  - intros fuel f s' Ht.
    destruct (trim_class Hparking fuel Hclass Hsep Ht)
      as (_ & _ & _ & _ & _ & _ & Hr).
    simpl in Hr. destruct Hr as (Hpark & f0 & p & s0 & Heq & Hp);
      [eauto|].
    inversion Heq; subst f0.
    destruct Hpark as ([Hself _] & Ha & Hd & Hpk & He).
    split; [eauto|]. rewrite Hself. tauto.
Qed.
End LiveTrim.

(** ** What a tick leaves behind *)

Section LiveRound.
Variables Project Path ErrorRecord World Fault : Type.
Variable Path_errored : Path -> World -> list ErrorRecord.
Variable h : Live.Methods Project Path World Fault.

(** The state in which a tick that returns leaves the scheduler, in terms
    of the state [s1] at the end of its loop. *)
Lemma tick_ok_inv (fuel : nat) (s : Live.State Project Path World)
      (sv' : Live.Surveyor Project) (s' : Live.State Project Path World) :
  Live.tick Path_errored h fuel s = Some (Ok sv' s') ->
  exists new_active s1,
    Live.tick_loop Path_errored h fuel (Live.active (Live.self s)) 0 [] s
      = Some (Ok new_active s1) /\
    sv' = Live.self s' /\
    Live.env s' = Live.env s1 /\
    Live.heap s' = Live.heap s1 ++ [new_active] /\
    Live._project sv' = Live._project (Live.self s1) /\
    Live._max_concurrency sv' = Live._max_concurrency (Live.self s1) /\
    Live.active sv' = length (Live.heap s1) /\
    Live.deadended sv' = Live.deadended (Live.self s1) /\
    Live.trimmed sv' = Live.trimmed (Live.self s1) /\
    Live.errored sv' = Live.errored (Live.self s1) /\
    Live._current_tick sv' = Live._current_tick (Live.self s1) + 1 /\
    Live.deref (Live.active sv') s' = new_active /\
    (forall r, (r < length (Live.heap s1))%nat ->
               Live.deref r s' = Live.deref r s1).
Proof.
  rewrite tick_walk_unfold. intros H.
  destruct (Live.tick_loop Path_errored h fuel (Live.active (Live.self s))
                           0 [] s)
    as [[new_active s1|f1 s1]|]; try discriminate.
  cbv zeta in H. inversion H; subst sv' s'. clear H.
  exists new_active, s1. simpl.
  repeat match goal with |- _ /\ _ => split end; try reflexivity.
  - unfold Live.deref. simpl.
    rewrite app_nth2, Nat.sub_diag; [reflexivity|lia].
  - intros r Hr. unfold Live.deref. simpl. apply app_nth1, Hr.
Qed.

Lemma tick_walk_returns (bound : nat) (s : Live.State Project Path World) :
  Live.seeding h ->
  Live.settling h bound ->
  Live.separate s ->
  (forall p s0, returns (Live.tick_path h p s0) = true) ->
  exists new_active s1,
    Live.tick_loop Path_errored h
      (S (Nat.max bound
            (length (Live.deref (Live.active (Live.self s)) s))))
      (Live.active (Live.self s)) 0 [] s
    = Some (Ok new_active s1).
Proof.
  intros Hseeding Hsettling Hsep Hret.
  destruct (tick_walk_ends Path_errored Hseeding Hsettling
              (fuel := S (Nat.max bound
                 (length (Live.deref (Live.active (Live.self s)) s))))
              0 [] Hsep) as [o Ho]; [lia|].
  destruct o as [new_active s1|f s1]; [eauto|].
  destruct (tick_walk_fault _ _ _ _ _ _ _ Ho) as (p & s0 & Hp).
  specialize (Hret p s0). rewrite Hp in Hret. discriminate.
Qed.

Lemma tick_returns (bound : nat) (s : Live.State Project Path World) :
  Live.seeding h ->
  Live.settling h bound ->
  Live.separate s ->
  (forall p s0, returns (Live.tick_path h p s0) = true) ->
  exists sv' s',
    Live.tick Path_errored h
      (S (Nat.max bound
            (length (Live.deref (Live.active (Live.self s)) s)))) s
    = Some (Ok sv' s').
Proof.
  intros Hseeding Hsettling Hsep Hret.
  destruct (tick_walk_returns Hseeding Hsettling Hsep Hret)
    as (new_active & s1 & Hl).
  rewrite tick_walk_unfold, Hl. eauto.
Qed.


Lemma concat_steps_pure (f : Path -> list Path) (ps : list Path) :
  (forall p s0, Live.tick_path h p s0 = Ok (f p) s0) ->
  forall (s : Live.State Project Path World) obs s',
    Live.step_all Path_errored h ps s = Ok obs s' ->
    concat (map fst obs) = flat_map f ps.
Proof.
  intros Hf. induction ps as [|p rest IH]; intros s obs s' H.
  - inversion H. reflexivity.
  - rewrite steps_cons, Hf in H.
    destruct (Live.step_all Path_errored h rest
                (Live.record_path Path_errored p (f p) s))
      as [obs' s2|f2 s2] eqn:Hrest; [|discriminate].
    inversion H; subst. simpl. f_equal. exact (IH _ _ _ Hrest).
Qed.

Lemma untrim_counter (s : Live.State Project Path World) :
  Live._current_tick (Live.self (Live.untrim s))
    = Live._current_tick (Live.self s).
Proof.
  unfold Live.untrim. cbv zeta.
  destruct ((0 <? Live._max_concurrency (Live.self s)
                  - len (Live.deref (Live.active (Live.self s)) s))
            && (0 <? len (Live.deref (Live.trimmed (Live.self s)) s)));
    reflexivity.
Qed.

(** C2, as the code has it.  A tick that returns has bound [active] to a
    new list: the successors of the paths it stepped, path after path in
    the order in which it stepped them, each with its successors in the
    order the step returned them.  The stepped paths are the ones that were
    active at the start of the call and, behind them, the ones the steps
    appended to the active list during the call: none when the steps leave
    the list alone, and then the new list is [flat_map f] of the old one
    for a step function [f] without effects.  The stepped paths stay behind
    in the list that was walked; the tick counter goes up by one and the
    value returned is the scheduler of the final state.  Neither [trim] nor
    [untrim] changes the counter. *)
Theorem tick_makes_active_of_what_it_stepped
        (s : Live.State Project Path World) :
  Live.seeding h ->
  Live.separate s ->
  (forall fuel sv' s',
      Live.tick Path_errored h fuel s = Some (Ok sv' s') ->
      exists seeded obs s1,
        let start := Live.deref (Live.active (Live.self s)) s in
        Live.step_all Path_errored h (start ++ seeded) s = Ok obs s1 /\
        Live.env s' = Live.env s1 /\
        Live.heap s' = Live.heap s1 ++ [concat (map fst obs)] /\
        Live.deref (Live.active sv') s' = concat (map fst obs) /\
        Live.active sv' <> Live.active (Live.self s) /\
        Live.deref (Live.active (Live.self s)) s' = start ++ seeded /\
        (forall bound,
            Live.settling h bound ->
            (length (start ++ seeded) <= Nat.max bound (length start))%nat) /\
        (Live.settling h 0 -> seeded = []) /\
        Live._current_tick sv' = Live._current_tick (Live.self s) + 1 /\
        sv' = Live.self s') /\
  (forall f,
      (forall p s0, Live.tick_path h p s0 = Ok (f p) s0) ->
      exists sv' s',
        Live.tick Path_errored h
          (S (length (Live.deref (Live.active (Live.self s)) s))) s
        = Some (Ok sv' s') /\
        Live.deref (Live.active sv') s' =
          flat_map f (Live.deref (Live.active (Live.self s)) s) /\
        Live._current_tick sv' = Live._current_tick (Live.self s) + 1 /\
        sv' = Live.self s') /\
  (forall fuel o,
      Live.parking h ->
      Live.trim_paths h = Live.Surveyor_trim_paths (Fault := Fault) ->
      Live.trim h fuel s = Some o ->
      Live._current_tick (Live.self (final_state o))
        = Live._current_tick (Live.self s)) /\
  Live._current_tick (Live.self (Live.untrim s))
    = Live._current_tick (Live.self s).
Proof.
  intros Hseeding Hsep.
  assert (Hfirst :
    forall fuel sv' s',
      Live.tick Path_errored h fuel s = Some (Ok sv' s') ->
      exists seeded obs s1,
        let start := Live.deref (Live.active (Live.self s)) s in
        Live.step_all Path_errored h (start ++ seeded) s = Ok obs s1 /\
        Live.env s' = Live.env s1 /\
        Live.heap s' = Live.heap s1 ++ [concat (map fst obs)] /\
        Live.deref (Live.active sv') s' = concat (map fst obs) /\
        Live.active sv' <> Live.active (Live.self s) /\
        Live.deref (Live.active (Live.self s)) s' = start ++ seeded /\
        (forall bound,
            Live.settling h bound ->
            (length (start ++ seeded) <= Nat.max bound (length start))%nat) /\
        (Live.settling h 0 -> seeded = []) /\
        Live._current_tick sv' = Live._current_tick (Live.self s) + 1 /\
        sv' = Live.self s').
  { intros fuel sv' s' Ht.
    destruct (tick_ok_inv _ _ Ht)
      as (new_active & s1 & Hl & Hsv & Henv & Hheap & _ & _ & Ha & _ & _ & _
          & Hc & Hnew & Hold).
    destruct (tick_walk_ok Path_errored Hseeding _ _ _ Hsep Hl)
      as (seeded & obs & Hobj & Hact & Hobs & _ & _ & _ & Hacc).
    pose proof (separate_same_objects Hsep Hobj) as Hsep1.
    destruct Hobj as [Hself Hlen].
    unfold Live.separate in Hsep1. rewrite Hself in Hsep1, Hc.
    simpl in Hobs, Hacc. rewrite Hact in Hobs.
    rewrite Hacc in Hnew, Hheap.
    assert (Hbound : forall bound,
               Live.settling h bound ->
               (length (Live.deref (Live.active (Live.self s)) s ++ seeded)
                <= Nat.max bound
                     (length (Live.deref (Live.active (Live.self s)) s)))%nat).
    { intros bound Hsettling. rewrite <- Hact.
      exact (tick_walk_bound Path_errored Hseeding Hsettling _ _ _ Hsep Hl). }
    exists seeded, obs, s1. cbv zeta.
    split; [exact Hobs|]. split; [exact Henv|]. split; [exact Hheap|].
    split; [exact Hnew|].
    split; [rewrite Ha; lia|].
    split; [rewrite Hold by tauto; exact Hact|].
    split; [exact Hbound|].
    split; [|split; [exact Hc|exact Hsv]].
    intros H0. specialize (Hbound 0%nat H0).
    rewrite length_app in Hbound. simpl in Hbound.
    destruct seeded; [reflexivity|simpl in Hbound; lia]. }
  split; [exact Hfirst|]. split; [|split].
  - intros f Hf.
    assert (Hsettling : Live.settling h 0).
    { intros p s0 _. rewrite Hf. simpl. lia. }
    assert (Hret : forall p s0, returns (Live.tick_path h p s0) = true).
    { intros p s0. rewrite Hf. reflexivity. }
    destruct (tick_returns Hseeding Hsettling Hsep Hret)
      as (sv' & s' & Ht).
    simpl in Ht. exists sv', s'. split; [exact Ht|].
    destruct (Hfirst _ _ _ Ht)
      as (seeded & obs & s1 & Hobs & _ & _ & Ha & _ & _ & _ & Hnil & Hc
          & Hsv).
    rewrite (Hnil Hsettling), app_nil_r in Hobs.
    split; [|split; [exact Hc|exact Hsv]].
    rewrite Ha. exact (concat_steps_pure f _ Hf _ Hobs).
  - intros fuel o Hparking Hclass Ht.
    exact (proj1 (proj2 (proj2 (proj2 (proj2
             (proj2 (trim_class Hparking fuel Hclass Hsep Ht))))))).
  - apply untrim_counter.
Qed.

(** X5.  When a tick raises, the fault is that of the step of some path
    [p] of the list it was walking; the paths in front of [p] have been
    stepped, one after the other from the state at the start, and appended
    to [errored] and [deadended] as usual; the successors collected so far
    are dropped: [active] is still bound to the list that was walked, which
    holds the paths it held at the start and the ones the steps seeded, and
    the trimmed list and the tick counter are as before the call. *)
Theorem tick_that_raises_leaves_the_list_it_walked
        (fuel : nat) (s : Live.State Project Path World)
        (f : Fault) (s' : Live.State Project Path World) :
  Live.seeding h ->
  Live.separate s ->
  Live.tick Path_errored h fuel s = Some (Raise f s') ->
  exists seeded obs j p s0,
    Live.self s' = Live.self s /\
    Live.deref (Live.active (Live.self s')) s' =
      Live.deref (Live.active (Live.self s)) s ++ seeded /\
    nth_error (Live.deref (Live.active (Live.self s')) s') j = Some p /\
    Live.tick_path h p s0 = Raise f s' /\
    Live.step_all Path_errored h
                  (firstn j (Live.deref (Live.active (Live.self s')) s')) s
      = Ok obs s0 /\
    Live.deref (Live.errored (Live.self s')) s' =
      Live.deref (Live.errored (Live.self s)) s ++
      chosen had_errors
             (firstn j (Live.deref (Live.active (Live.self s')) s')) obs /\
    Live.deref (Live.deadended (Live.self s')) s' =
      Live.deref (Live.deadended (Live.self s)) s ++
      chosen no_successors
             (firstn j (Live.deref (Live.active (Live.self s')) s')) obs /\
    Live.deref (Live.trimmed (Live.self s')) s' =
      Live.deref (Live.trimmed (Live.self s)) s.
Proof.
  intros Hseeding Hsep. rewrite tick_walk_unfold. intros Ht.
  destruct (Live.tick_loop Path_errored h fuel (Live.active (Live.self s))
                           0 [] s)
    as [[new_active s1|f1 s1]|] eqn:Hl; try discriminate.
  inversion Ht; subst f1 s1. clear Ht.
  destruct (tick_walk_raise Path_errored Hseeding _ _ _ Hsep Hl)
    as (seeded & obs & j & p & s0 & [Hself _] & Hact & _ & Hp & Hraise
        & Hobs & Herr & Hdead & Htrim).
  rewrite Nat.sub_0_r in Hobs, Herr, Hdead. simpl in Hobs, Herr, Hdead.
  exists seeded, obs, j, p, s0. rewrite Hself. tauto.
Qed.
End LiveRound.

(** ** Faults *)

Section LiveFaults.
Variables Project Path ErrorRecord World Fault : Type.
Variable Path_errored : Path -> World -> list ErrorRecord.
Variable h : Live.Methods Project Path World Fault.
Variable pdb_set_trace : Call Fault (Live.State Project Path World) unit.

Lemma tick_fault_of_a_step (fuel : nat) (s : Live.State Project Path World)
      (f : Fault) (s' : Live.State Project Path World) :
  Live.tick Path_errored h fuel s = Some (Raise f s') ->
  exists p s0, Live.tick_path h p s0 = Raise f s'.
Proof.
  rewrite tick_walk_unfold. intros Ht.
  destruct (Live.tick_loop Path_errored h fuel (Live.active (Live.self s))
                           0 [] s)
    as [[new_active s1|f1 s1]|] eqn:Hl; try discriminate.
  inversion Ht; subst f1 s1.
  exact (tick_walk_fault _ _ _ _ _ _ _ Hl).
Qed.

Lemma tick_more_fuel (fuel fuel' : nat)
      (s : Live.State Project Path World)
      (o : Outcome Fault (Live.State Project Path World)
                   (Live.Surveyor Project)) :
  (fuel <= fuel')%nat ->
  Live.tick Path_errored h fuel s = Some o ->
  Live.tick Path_errored h fuel' s = Some o.
Proof.
  intros Hle. replace fuel' with (fuel + (fuel' - fuel))%nat by lia.
  rewrite !tick_walk_unfold.
  destruct (Live.tick_loop Path_errored h fuel (Live.active (Live.self s))
                           0 [] s) as [o'|] eqn:Hl; [|discriminate].
  rewrite (tick_walk_more_fuel Path_errored h _ _ _ _ _ (fuel' - fuel) Hl).
  intros H. exact H.
Qed.

Lemma trim_more_fuel (fuel fuel' : nat)
      (s : Live.State Project Path World)
      (o : Outcome Fault (Live.State Project Path World) unit) :
  (fuel <= fuel')%nat ->
  Live.trim h fuel s = Some o ->
  Live.trim h fuel' s = Some o.
Proof.
  intros Hle. replace fuel' with (fuel + (fuel' - fuel))%nat by lia.
  rewrite !trim_walk_unfold.
  destruct (Live.trim_each h fuel (Live.active (Live.self s)) 0 [] s)
    as [o'|] eqn:Hl; [|discriminate].
  rewrite (trim_walk_more_fuel h _ _ _ _ _ (fuel' - fuel) Hl).
  intros H. exact H.
Qed.

Lemma run_more_fuel (fuel : nat) :
  forall (fuel' : nat) (n : option Z) (s : Live.State Project Path World)
         (o : Outcome Fault (Live.State Project Path World)
                      (Live.Surveyor Project)),
    (fuel <= fuel')%nat ->
    Live.run Path_errored h pdb_set_trace fuel n s = Some o ->
    Live.run Path_errored h pdb_set_trace fuel' n s = Some o.
Proof.
  induction fuel as [|fuel IH]; intros fuel' n s o Hle H; [discriminate|].
  destruct fuel' as [|fuel']; [lia|].
  assert (Hle' : (fuel <= fuel')%nat) by lia.
  simpl in H |- *.
  destruct (Live.run_guard h n s) as [[|] s1|f1 s1]; try exact H.
  destruct (Live.tick Path_errored h fuel s1) as [ot|] eqn:Ht;
    [|discriminate].
  rewrite (@tick_more_fuel fuel fuel' s1 ot Hle' Ht).
  destruct ot as [sv s2|f2 s2]; [|exact H].
  destruct (Live.trim h fuel s2) as [otr|] eqn:Htr; [|discriminate].
  rewrite (@trim_more_fuel fuel fuel' s2 otr Hle' Htr).
  destruct otr as [u s3|f3 s3]; [|exact H].
  destruct (Live.round_end pdb_set_trace n (Live.untrim s3))
    as [[n'|] s4|f4 s4]; try exact H.
  apply IH; [lia|exact H].
Qed.

Lemma tick_never_returns (s : Live.State Project Path World)
      (fuel : nat) :
  Live.seeding h ->
  Live.restless h ->
  Live.separate s ->
  Live.deref (Live.active (Live.self s)) s <> [] ->
  Live.tick Path_errored h fuel s = None.
Proof.
  intros Hseeding Hrestless Hsep Hne. rewrite tick_walk_unfold.
  rewrite (tick_walk_never_ends Path_errored Hseeding Hrestless);
    [reflexivity|exact Hsep|].
  destruct (Live.deref (Live.active (Live.self s)) s);
    [congruence|simpl; lia].
Qed.

Lemma run_fault (fuel : nat) :
  forall (n : option Z) (s : Live.State Project Path World)
         (f : Fault) (s' : Live.State Project Path World),
    Live.run Path_errored h pdb_set_trace fuel n s = Some (Raise f s') ->
    exists s0,
      Live.done h s0 = Raise f s' \/
      (exists p, Live.tick_path h p s0 = Raise f s') \/
      (exists p, Live.trim_path h p s0 = Raise f s') \/
      (exists r, Live.trim_paths h r s0 = Raise f s') \/
      pdb_set_trace s0 = Raise f s'.
Proof.
  induction fuel as [|fuel IH]; intros n s f s' H; [discriminate|].
  simpl in H.
  destruct (Live.run_guard h n s) as [[|] s1|f1 s1] eqn:Hg.
  - destruct (Live.tick Path_errored h fuel s1)
      as [[sv s2|f2 s2]|] eqn:Ht; [| |discriminate].
    + destruct (Live.trim h fuel s2) as [[u s3|f3 s3]|] eqn:Htr;
        [| |discriminate].
      * destruct (Live.round_end pdb_set_trace n (Live.untrim s3))
          as [[n'|] s4|f4 s4] eqn:Hre.
        -- exact (IH _ _ _ _ H).
        -- discriminate.
        -- inversion H; subst f4 s4. clear H.
           unfold Live.round_end, bind, gets, ret in Hre.
           destruct (STOP_RUNS (Live.env (Live.untrim s3)));
             [discriminate|].
           destruct (PAUSE_RUNS (Live.env (Live.untrim s3)));
             [|discriminate].
           destruct (pdb_set_trace (Live.untrim s3)) as [u' s5|f5 s5] eqn:Hpdb;
             [discriminate|].
           inversion Hre; subst f5 s5.
           exists (Live.untrim s3). tauto.
      * inversion H; subst f3 s3.
        destruct (trim_fault _ _ _ Htr) as [(p & s0 & Hp)|(r & s0 & Hp)];
          exists s0; eauto 6.
    + inversion H; subst f2 s2.
      destruct (tick_fault_of_a_step _ _ Ht) as (p & s0 & Hp). exists s0. eauto.
  - discriminate.
  - inversion H; subst f1 s1.
    unfold Live.run_guard, bind, ret in Hg.
    destruct (Live.done h s) as [d s1|f1 s1] eqn:Hd; [discriminate|].
    inversion Hg; subst f1 s1. exists s. tauto.
Qed.

End LiveFaults.

(** ** Steps that seed, filters that park *)

Section Disciplines.
Variables Project Exit Path World Fault : Type.
Variable Path_new : Project -> Exit -> Path.

Lemma seeded_from_refl (s : Live.State Project Path World) :
  Live.seeded_from s s.
Proof.
  split; [apply same_objects_refl|].
  split; [exists []; rewrite app_nil_r; reflexivity|]. auto.
Qed.

(** A call that has no access to the scheduler leaves the scheduler and
    the store as they are. *)
Lemma outside_keeps {A : Type} (m : Call Fault (Env World) A)
      (s : Live.State Project Path World) :
  Live.self (final_state (Live.outside m s)) = Live.self s /\
  Live.heap (final_state (Live.outside m s)) = Live.heap s.
Proof.
  unfold Live.outside, lift. destruct (m (Live.env s)); simpl; auto.
Qed.

Lemma seeded_from_outside {A : Type} (m : Call Fault (Env World) A)
      (s s1 : Live.State Project Path World) :
  Live.seeded_from s s1 ->
  Live.seeded_from s (final_state (Live.outside m s1)).
Proof.
  destruct (outside_keeps m s1) as [Hs Hh].
  unfold Live.seeded_from, Live.same_objects, Live.deref.
  rewrite Hs, Hh. auto.
Qed.

Lemma parked_from_outside {A : Type} (m : Call Fault (Env World) A)
      (s s1 : Live.State Project Path World) :
  Live.parked_from s s1 ->
  Live.parked_from s (final_state (Live.outside m s1)).
Proof.
  destruct (outside_keeps m s1) as [Hs Hh].
  unfold Live.parked_from, Live.same_objects, Live.deref.
  rewrite Hs, Hh. auto.
Qed.

(** [analyze_exit] seeds one path. *)
Lemma analyze_exit_seeds (e : Exit) (s : Live.State Project Path World) :
  Live.separate s ->
  Live.seeded_from s (Live.analyze_exit Path_new e s) /\
  Live.deref (Live.active (Live.self s)) (Live.analyze_exit Path_new e s) =
    Live.deref (Live.active (Live.self s)) s
    ++ [Path_new (Live._project (Live.self s)) e].
Proof.
  intros Hsep. unfold Live.separate in Hsep. unfold Live.analyze_exit.
  assert (Ha : Live.deref (Live.active (Live.self s))
                 (Live.extend (Live.active (Live.self s))
                    [Path_new (Live._project (Live.self s)) e] s) =
               Live.deref (Live.active (Live.self s)) s
               ++ [Path_new (Live._project (Live.self s)) e])
    by (apply deref_extend_same; tauto).
  split; [|exact Ha].
  destruct (extend_same_objects (Live.active (Live.self s))
              [Path_new (Live._project (Live.self s)) e] s)
    as (Hs & _ & Hl).
  split; [split; [exact Hs|lia]|].
  split; [eexists; exact Ha|].
  repeat split; apply deref_extend_other; intuition congruence.
Qed.

(** Appending to the trimmed list parks. *)
Lemma extend_trimmed_parks (l : list Path)
      (s : Live.State Project Path World) :
  Live.separate s ->
  Live.parked_from s (Live.extend (Live.trimmed (Live.self s)) l s).
Proof.
  intros Hsep. unfold Live.separate in Hsep.
  destruct (extend_same_objects (Live.trimmed (Live.self s)) l s)
    as (Hs & _ & Hl).
  split; [split; [exact Hs|lia]|].
  split; [apply deref_extend_other; intuition congruence|].
  split; [apply deref_extend_other; intuition congruence|].
  split; [exists l; apply deref_extend_same; tauto|].
  apply deref_extend_other; intuition congruence.
Qed.
End Disciplines.

(** Methods that leave the scheduler alone seed nothing and park
    nothing. *)
Section Sealed.
Variables Project Path World Fault : Type.
Variable tp : Path -> Call Fault (Env World) (list Path).
Variable fp : Path -> Call Fault (Env World) bool.
Variable d : Surveyor Project Path -> Call Fault (Env World) bool.

Lemma sealed_seeding : Live.seeding (sealed tp fp d).
Proof.
  intros p s _. simpl. apply seeded_from_outside, seeded_from_refl.
Qed.

Lemma sealed_settling : Live.settling (sealed tp fp d) 0.
Proof.
  intros p s _. simpl. unfold Live.deref.
  rewrite (proj2 (outside_keeps (tp p) s)). lia.
Qed.

Lemma sealed_parking : Live.parking (sealed tp fp d).
Proof.
  intros p s _. simpl. apply parked_from_outside, parked_from_refl.
Qed.
End Sealed.

(** So do the methods of the class. *)
Section ClassMethods.
Variables Project Path World Fault : Type.
Variable cp : Path -> Call Fault (Env World) (list Path).

Lemma Surveyor_methods_seeding :
  Live.seeding (Live.Surveyor_methods (Project := Project) cp).
Proof.
  intros p s _. simpl. apply seeded_from_outside, seeded_from_refl.
Qed.

Lemma Surveyor_methods_settling :
  Live.settling (Live.Surveyor_methods (Project := Project) cp) 0.
Proof.
  intros p s _. simpl. unfold Live.Surveyor_tick_path, Live.deref.
  rewrite (proj2 (outside_keeps (cp p) s)). lia.
Qed.

Lemma Surveyor_methods_parking :
  Live.parking (Live.Surveyor_methods (Project := Project) cp).
Proof. intros p s _. simpl. apply parked_from_refl. Qed.

(** They are the methods of [Surveyor_hooks], call by call. *)
Lemma Surveyor_methods_sealed (s : Live.State Project Path World) :
  (forall p,
      Live.tick_path (Live.Surveyor_methods cp) p s =
      Live.tick_path
        (sealed (Surveyor_tick_path cp) Surveyor_trim_path Surveyor_done)
        p s) /\
  (forall p,
      Live.trim_path (Live.Surveyor_methods cp) p s =
      Live.trim_path
        (sealed (Surveyor_tick_path cp) Surveyor_trim_path Surveyor_done)
        p s) /\
  (forall r,
      Live.trim_paths (Live.Surveyor_methods cp) r s =
      Live.trim_paths
        (sealed (Surveyor_tick_path cp) Surveyor_trim_path Surveyor_done)
        r s) /\
  Live.done (Live.Surveyor_methods cp) s =
  Live.done
    (sealed (Surveyor_tick_path cp) Surveyor_trim_path Surveyor_done) s.
Proof. destruct s. repeat split. Qed.
End ClassMethods.

(** ** The overloads at work *)

Lemma seeding_methods_seeding (seed : Demo.Exit) :
  Live.seeding (Overloads.seeding_methods seed).
Proof.
  intros p s Hsep. simpl. unfold Overloads.seeding_tick_path.
  apply seeded_from_outside.
  destruct (Nat.eqb p 1); [|apply seeded_from_refl].
  apply analyze_exit_seeds, Hsep.
Qed.

Lemma parking_methods_parking : Live.parking Overloads.parking_methods.
Proof.
  intros p s Hsep. simpl. unfold Overloads.parking_trim_path.
  destruct (Nat.eqb p 9); [apply parked_from_refl|].
  destruct (Nat.even p); [|apply parked_from_refl].
  simpl. apply extend_trimmed_parks, Hsep.
Qed.

Lemma restless_methods_restless :
  Live.restless Overloads.restless_methods.
Proof.
  intros p s Hsep. split; [reflexivity|]. simpl.
  rewrite (proj2 (analyze_exit_seeds Demo.Path_new p Hsep)).
  rewrite length_app. simpl. lia.
Qed.

Lemma restless_methods_seeding :
  Live.seeding Overloads.restless_methods.
Proof.
  intros p s Hsep. simpl.
  exact (proj1 (analyze_exit_seeds Demo.Path_new p Hsep)).
Qed.

Ltac separate_by_evaluation :=
  unfold Live.separate; cbn;
  repeat match goal with |- _ /\ _ => split end;
  try discriminate; try lia.


(** The steps of that tick: path 1, then the path it seeded. *)
Example steps_of_a_seeding_tick :
  exists s1,
    Live.step_all Demo.Path_errored (Overloads.seeding_methods 0%nat)
                  [1; 0]%nat Overloads.one_path
    = Ok [([5; 9; 13]%nat, false); ([], true)] s1 /\
    Live.heap Overloads.after_seeding_0 = Live.heap s1 ++ [[5; 9; 13]%nat] /\
    Live.env Overloads.after_seeding_0 = Live.env s1.
Proof. eexists. split; [reflexivity|]. split; reflexivity. Qed.

(** The same tick with path 3 for the seed: the successors of the seeded
    path are in the new active list, behind those of the path that was
    active at the start. *)
Lemma tick_steps_a_path_seeded_during_the_call :
  Live.deref (Live.active (Live.self Overloads.one_path)) Overloads.one_path
    = [1]%nat /\
  (exists s1,
      Live.tick_path (Overloads.seeding_methods 3%nat) 1%nat
                     Overloads.one_path = Ok [5; 9; 13]%nat s1) /\
  Overloads.tick (Overloads.seeding_methods 3%nat) 3 Overloads.one_path
    = Some (Ok (Live.self Overloads.after_seeding_3)
               Overloads.after_seeding_3) /\
  Live.deref (Live.active (Live.self Overloads.after_seeding_3))
             Overloads.after_seeding_3 = [5; 9; 13; 7]%nat /\
  Live.deref (Live.active (Live.self Overloads.after_seeding_3))
             Overloads.after_seeding_3 <> [5; 9; 13]%nat.
Proof.
  split; [reflexivity|]. split; [eexists; reflexivity|].
  split; [reflexivity|]. split; [reflexivity|].
  cbn. discriminate.
Defined.

Lemma tick_makes_active_of_what_it_stepped_demo :
  Live.seeding (Overloads.seeding_methods 3%nat) /\
  Live.separate Overloads.one_path /\
  Overloads.tick (Overloads.seeding_methods 3%nat) 3 Overloads.one_path
    = Some (Ok (Live.self Overloads.after_seeding_3)
               Overloads.after_seeding_3) /\
  exists seeded obs s1,
    Live.step_all Demo.Path_errored (Overloads.seeding_methods 3%nat)
                  ([1]%nat ++ seeded) Overloads.one_path = Ok obs s1 /\
    [5; 9; 13; 7]%nat = concat (map fst obs) /\
    [1; 3]%nat = [1]%nat ++ seeded /\
    Live._current_tick (Live.self Overloads.after_seeding_3) = 0 + 1.
Proof.
  assert (Hsep : Live.separate Overloads.one_path)
    by separate_by_evaluation.
  split; [apply seeding_methods_seeding|]. split; [exact Hsep|].
  split; [reflexivity|].
  destruct (tick_makes_active_of_what_it_stepped
              Demo.Path_errored (seeding_methods_seeding 3%nat) Hsep)
    as (Hactive & _).
  destruct (Hactive 3%nat (Live.self Overloads.after_seeding_3)
                    Overloads.after_seeding_3 eq_refl)
    as (seeded & obs & s1 & Hobs & _ & _ & Hact & _ & Hold & _ & _ & Hc
        & _).
  exists seeded, obs, s1. auto.
Defined.

(** A step that binds [active] to another list seeds nothing: the loop
    walks the list it started with. *)
Example tick_does_not_step_a_rebound_list :
  Overloads.tick (Overloads.rebinding_methods 3%nat) 3 Overloads.one_path
    = Some (Ok (Live.self Overloads.after_rebinding)
               Overloads.after_rebinding) /\
  Live.deref (Live.active (Live.self Overloads.after_rebinding))
             Overloads.after_rebinding = [5; 9; 13]%nat.
Proof. split; reflexivity. Qed.


(** A seeded path whose step raises: the fault leaves the tick. *)
Lemma tick_that_raises_leaves_the_list_it_walked_demo :
  Live.seeding (Overloads.seeding_methods 2%nat) /\
  Live.separate Overloads.one_path /\
  Overloads.tick (Overloads.seeding_methods 2%nat) 3 Overloads.one_path
    = Some (Raise 2%nat Overloads.after_seeded_fault) /\
  Live.self Overloads.after_seeded_fault = Live.self Overloads.one_path /\
  exists seeded j p,
    [1; 2]%nat = [1]%nat ++ seeded /\
    nth_error [1; 2]%nat j = Some p /\
    exists s0,
      Live.tick_path (Overloads.seeding_methods 2%nat) p s0
      = Raise 2%nat Overloads.after_seeded_fault.
Proof.
  assert (Hsep : Live.separate Overloads.one_path)
    by separate_by_evaluation.
  split; [apply seeding_methods_seeding|]. split; [exact Hsep|].
  split; [reflexivity|].
  destruct (tick_that_raises_leaves_the_list_it_walked
              Demo.Path_errored 3
              (f := 2%nat) (s' := Overloads.after_seeded_fault)
              (seeding_methods_seeding 2%nat) Hsep eq_refl)
    as (seeded & obs & j & p & s0 & Hself & Hact & Hp & Hraise & _).
  split; [exact Hself|].
  exists seeded, j, p. split; [exact Hact|]. split; [exact Hp|].
  exists s0. exact Hraise.
Defined.

(** A filter that parks path 4 and raises on path 9. *)
Lemma trim_that_raises_keeps_what_was_parked_demo :
  Live.parking Overloads.parking_methods /\
  Live.separate Overloads.three_paths /\
  Overloads.trim Overloads.parking_methods 4 Overloads.three_paths
    = Some (Raise 99%nat Overloads.after_parking_fault) /\
  Live.deref (Live.active (Live.self Overloads.after_parking_fault))
             Overloads.after_parking_fault = [1; 4; 9]%nat /\
  Live.deref (Live.trimmed (Live.self Overloads.after_parking_fault))
             Overloads.after_parking_fault = [4]%nat /\
  exists p s0,
    Live.trim_path Overloads.parking_methods p s0
    = Raise 99%nat Overloads.after_parking_fault.
Proof.
  assert (Hsep : Live.separate Overloads.three_paths)
    by separate_by_evaluation.
  split; [apply parking_methods_parking|]. split; [exact Hsep|].
  split; [reflexivity|]. split; [reflexivity|]. split; [reflexivity|].
  destruct (trim_that_raises_keeps_what_was_parked
              parking_methods_parking eq_refl Hsep)
    as (_ & Hraise).
  destruct (Hraise 4%nat 99%nat Overloads.after_parking_fault eq_refl)
    as (Hp & _).
  exact Hp.
Defined.


(** ** Lists as values and lists as objects

    For an analysis whose step, filter and [done] leave the scheduler
    alone, the methods on the store do what the methods on lists as values
    do. *)

Section Agreement.
Variables Project Path ErrorRecord World Fault : Type.
Variable Path_errored : Path -> World -> list ErrorRecord.
Variable tp : Path -> Call Fault (Env World) (list Path).
Variable fp : Path -> Call Fault (Env World) bool.
Variable d : Surveyor Project Path -> Call Fault (Env World) bool.

Lemma view_set_env (e : Env World) (s : Live.State Project Path World) :
  view (Live.set_env e s) = set_env e (view s).
Proof. reflexivity. Qed.

Lemma view_record_path (p : Path) (successors : list Path)
      (s : Live.State Project Path World) :
  Live.separate s ->
  view (Live.record_path Path_errored p successors s)
  = recorded Path_errored p successors (view s).
Proof.
  intros Hsep.
  pose proof (record_path_spec Path_errored p successors Hsep) as Hrec.
  cbv zeta in Hrec.
  destruct Hrec as (Hself & Henv & _ & Ha & Ht & He & Hd).
  unfold view, view_self. rewrite Hself, Henv, Ha, Ht, He, Hd.
  unfold recorded. simpl.
  destruct (0 <? len (Path_errored p (world (Live.env s))));
    destruct (len successors =? 0); simpl; rewrite ?app_nil_r; reflexivity.
Qed.

Lemma tick_loop_cons (p : Path) (rest acc : list Path)
      (st : State Project Path World) :
  tick_loop Path_errored (overloading tp fp d) (p :: rest) acc st =
  match tp p (env st) with
  | Raise f e' => Raise f (set_env e' st)
  | Ok successors e' =>
      tick_loop Path_errored (overloading tp fp d) rest (acc ++ successors)
                (recorded Path_errored p successors (set_env e' st))
  end.
Proof.
  simpl. unfold bind at 1. unfold outside, lift.
  destruct (tp p (env st)) as [successors e'|f e']; [|reflexivity].
  unfold recorded, bind, gets, modify, ret. simpl.
  destruct (0 <? len (Path_errored p (world e')));
    destruct (len successors =? 0); reflexivity.
Qed.

Lemma tick_loop_agrees (fuel : nat) :
  forall (i : nat) (acc : list Path) (s : Live.State Project Path World),
    Live.separate s ->
    (length (Live.deref (Live.active (Live.self s)) s) - i < fuel)%nat ->
    exists o,
      Live.tick_loop Path_errored (sealed tp fp d) fuel
                     (Live.active (Live.self s)) i acc s = Some o /\
      agree eq o
            (tick_loop Path_errored (overloading tp fp d)
                       (skipn i (Live.deref (Live.active (Live.self s)) s))
                       acc (view s)) /\
      Live.same_objects s (final_state o).
Proof.
  induction fuel as [|fuel IH]; intros i acc s Hsep Hfuel; [lia|].
  cbn [Live.tick_loop].
  destruct (nth_error (Live.deref (Live.active (Live.self s)) s) i)
    as [p|] eqn:Hnth.
  - rewrite (skipn_nth_error _ _ Hnth), tick_loop_cons.
    assert (Hi : (i < length (Live.deref (Live.active (Live.self s)) s))%nat)
      by (apply nth_error_Some; congruence).
    cbn [Live.tick_path sealed]. unfold Live.outside, lift.
    change (env (view s)) with (Live.env s).
    destruct (tp p (Live.env s)) as [successors e'|f e'].
    + set (s1 := Live.set_env e' s).
      assert (Hobj1 : Live.same_objects s s1)
        by (split; [reflexivity|simpl; lia]).
      pose proof (separate_same_objects Hsep Hobj1) as Hsep1.
      pose proof (record_path_spec Path_errored p successors Hsep1) as Hrec.
      cbv zeta in Hrec.
      pose proof (view_record_path p successors Hsep1) as Hview.
      set (s2 := Live.record_path Path_errored p successors s1) in *.
      destruct Hrec as (Hself2 & _ & Hlen2 & Hact2 & _).
      assert (Hobj2 : Live.same_objects s s2)
        by (split; [exact Hself2|simpl in Hlen2; lia]).
      pose proof (separate_same_objects Hsep Hobj2) as Hsep2.
      assert (Ha : Live.active (Live.self s) = Live.active (Live.self s2))
        by (rewrite Hself2; reflexivity).
      assert (Hd : Live.deref (Live.active (Live.self s)) s
                   = Live.deref (Live.active (Live.self s2)) s2)
        by (rewrite <- Ha; symmetry; exact Hact2).
      destruct (IH (S i) (acc ++ successors) s2 Hsep2) as (o & Ho & Hag & Hobj).
      { rewrite <- Hd. lia. }
      rewrite <- Hd, Hview in Hag. rewrite <- Ha in Ho.
      exists o. split; [exact Ho|].
      split; [exact Hag|exact (same_objects_trans Hobj2 Hobj)].
    + exists (Raise f (Live.set_env e' s)).
      split; [reflexivity|]. split; [split; reflexivity|].
      split; [reflexivity|simpl; lia].
  - rewrite (skipn_nth_error_None _ _ Hnth). simpl.
    exists (Ok acc s). split; [reflexivity|].
    split; [split; reflexivity|apply same_objects_refl].
Qed.

(** After a tick of such an analysis the scheduler looks as it does after
    the tick on lists as values, and its lists are still separate
    objects. *)
Lemma tick_agrees (s : Live.State Project Path World) :
  Live.separate s ->
  exists o,
    Live.tick Path_errored (sealed tp fp d)
      (S (length (Live.deref (Live.active (Live.self s)) s))) s = Some o /\
    agree (fun _ _ => True) o
          (tick Path_errored (overloading tp fp d) (view s)) /\
    Live.separate (final_state o).
Proof.
  intros Hsep.
  destruct (tick_loop_agrees
              (fuel := S (length (Live.deref (Live.active (Live.self s)) s)))
              0 [] Hsep) as (o & Ho & Hag & Hobj); [lia|].
  rewrite tick_walk_unfold, Ho, tick_unfold.
  change (active (self (view s)))
    with (Live.deref (Live.active (Live.self s)) s).
  simpl skipn in Hag.
  pose proof (separate_same_objects Hsep Hobj) as Hsep1.
  destruct o as [new_active s1|f s1];
    destruct (tick_loop Path_errored (overloading tp fp d)
                        (Live.deref (Live.active (Live.self s)) s) []
                        (view s)) as [new_active' st1|f' st1];
    simpl in Hag; try contradiction; destruct Hag as [Hv Hst].
  - subst new_active' st1. cbv zeta. eexists. split; [reflexivity|].
    simpl in Hsep1. unfold Live.separate in Hsep1.
    split; [split; [exact I|]|].
    + unfold view, view_self, Live.deref. simpl.
      rewrite (app_nth2 (Live.heap s1) [new_active] []
                 (n := length (Live.heap s1))) by lia.
      rewrite Nat.sub_diag.
      rewrite !app_nth1 by tauto. reflexivity.
    + unfold Live.separate. simpl. rewrite length_app. simpl.
      intuition lia.
  - subst f' st1. eexists. split; [reflexivity|].
    split; [split; reflexivity|exact Hsep1].
Qed.

Lemma trim_each_cons (p : Path) (rest : list Path)
      (st : State Project Path World) :
  trim_each (overloading tp fp d) (p :: rest) st =
  match fp p (env st) with
  | Raise f e' => Raise f (set_env e' st)
  | Ok excluded e' =>
      match trim_each (overloading tp fp d) rest (set_env e' st) with
      | Ok kept st' => Ok (if excluded then kept else p :: kept) st'
      | Raise f st' => Raise f st'
      end
  end.
Proof.
  simpl. unfold bind at 1. unfold outside, lift.
  destruct (fp p (env st)) as [excluded e'|f e']; reflexivity.
Qed.

Lemma trim_each_agrees (fuel : nat) :
  forall (i : nat) (kept : list Path) (s : Live.State Project Path World),
    (length (Live.deref (Live.active (Live.self s)) s) - i < fuel)%nat ->
    exists o,
      Live.trim_each (sealed tp fp d) fuel
                     (Live.active (Live.self s)) i kept s = Some o /\
      agree (fun l l' => l = kept ++ l') o
            (trim_each (overloading tp fp d)
                       (skipn i (Live.deref (Live.active (Live.self s)) s))
                       (view s)) /\
      final_state o = Live.set_env (Live.env (final_state o)) s.
Proof.
  induction fuel as [|fuel IH]; intros i kept s Hfuel; [lia|].
  cbn [Live.trim_each].
  destruct (nth_error (Live.deref (Live.active (Live.self s)) s) i)
    as [p|] eqn:Hnth.
  - rewrite (skipn_nth_error _ _ Hnth), trim_each_cons.
    assert (Hi : (i < length (Live.deref (Live.active (Live.self s)) s))%nat)
      by (apply nth_error_Some; congruence).
    cbn [Live.trim_path sealed]. unfold Live.outside, lift.
    change (env (view s)) with (Live.env s).
    destruct (fp p (Live.env s)) as [excluded e'|f e'].
    + destruct (IH (S i) (if excluded then kept else kept ++ [p])
                   (Live.set_env e' s)) as (o & Ho & Hag & Hfin).
      { simpl. unfold Live.deref in *. simpl. lia. }
      exists o. split; [exact Ho|]. split; [|exact Hfin].
      change (view (Live.set_env e' s)) with (set_env e' (view s)) in Hag.
      change (Live.deref (Live.active (Live.self (Live.set_env e' s)))
                         (Live.set_env e' s))
        with (Live.deref (Live.active (Live.self s)) s) in Hag.
      destruct o as [l s1|f s1];
        destruct (trim_each (overloading tp fp d)
                    (skipn (S i) (Live.deref (Live.active (Live.self s)) s))
                    (set_env e' (view s))) as [l' st'|f' st'];
        simpl in Hag |- *; try contradiction; try exact Hag.
      destruct Hag as [Hl Hst]. split; [|exact Hst].
      subst l. destruct excluded; [reflexivity|].
      rewrite <- app_assoc. reflexivity.
    + exists (Raise f (Live.set_env e' s)).
      split; [reflexivity|]. split; [split; reflexivity|reflexivity].
  - rewrite (skipn_nth_error_None _ _ Hnth). simpl.
    exists (Ok kept s). split; [reflexivity|].
    split; [split; [rewrite app_nil_r; reflexivity|reflexivity]|].
    destruct s; reflexivity.
Qed.

(** The [trim_paths] of the class on the list object the filter pass
    made. *)
Lemma class_trim_paths_spec (kept : list Path)
      (s : Live.State Project Path World) :
  Live.separate s ->
  exists s',
    Live.Surveyor_trim_paths (Fault := Fault)
      (fst (Live.new_list kept s)) (snd (Live.new_list kept s))
    = Ok (S (length (Live.heap s))) s' /\
    Live.self s' = Live.self s /\
    Live.env s' = Live.env s /\
    length (Live.heap s') = S (S (length (Live.heap s))) /\
    Live.deref (S (length (Live.heap s))) s' =
      slice_to (Live._max_concurrency (Live.self s)) kept /\
    Live.deref (Live.trimmed (Live.self s)) s' =
      Live.deref (Live.trimmed (Live.self s)) s
      ++ slice_from (Live._max_concurrency (Live.self s)) kept /\
    Live.deref (Live.active (Live.self s)) s' =
      Live.deref (Live.active (Live.self s)) s /\
    Live.deref (Live.deadended (Live.self s)) s' =
      Live.deref (Live.deadended (Live.self s)) s /\
    Live.deref (Live.errored (Live.self s)) s' =
      Live.deref (Live.errored (Live.self s)) s.
Proof.
  intros Hsep. unfold Live.separate in Hsep.
  set (s0 := snd (Live.new_list kept s)).
  set (paths := fst (Live.new_list kept s)).
  assert (Hself0 : Live.self s0 = Live.self s) by reflexivity.
  assert (Hlen0 : length (Live.heap s0) = S (length (Live.heap s)))
    by (simpl; rewrite length_app; simpl; lia).
  assert (Hpaths : Live.deref paths s0 = kept)
    by apply deref_new_list.
  assert (Hold0 : forall r, (r < length (Live.heap s))%nat ->
                            Live.deref r s0 = Live.deref r s)
    by (intros r Hr; apply deref_new_list_old, Hr).
  set (l := slice_from (Live._max_concurrency (Live.self s0))
                       (Live.deref paths s0)).
  set (s1 := Live.extend (Live.trimmed (Live.self s0)) l s0).
  destruct (extend_same_objects (Live.trimmed (Live.self s0)) l s0)
    as (Hself1 & Henv1 & Hlen1).
  fold s1 in Hself1, Henv1, Hlen1.
  set (l' := slice_to (Live._max_concurrency (Live.self s1))
                      (Live.deref paths s1)).
  exists (snd (Live.new_list l' s1)).
  assert (Hpaths1 : Live.deref paths s1 = kept).
  { subst s1. rewrite deref_extend_other; [exact Hpaths|].
    rewrite Hself0. subst paths. simpl. lia. }
  assert (Htrim1 : Live.deref (Live.trimmed (Live.self s)) s1 =
                   Live.deref (Live.trimmed (Live.self s)) s
                   ++ slice_from (Live._max_concurrency (Live.self s)) kept).
  { subst s1. rewrite Hself0. rewrite deref_extend_same by lia.
    rewrite Hold0 by tauto. subst l. rewrite Hpaths, Hself0. reflexivity. }
  assert (Hother1 : forall r, r <> Live.trimmed (Live.self s) ->
                              (r < length (Live.heap s))%nat ->
                              Live.deref r s1 = Live.deref r s).
  { intros r Hne Hr. subst s1. rewrite Hself0.
    rewrite deref_extend_other by exact Hne. apply Hold0, Hr. }
  assert (Hnew : forall r, (r < length (Live.heap s1))%nat ->
                   Live.deref r (snd (Live.new_list l' s1)) = Live.deref r s1)
    by (intros r Hr; apply deref_new_list_old, Hr).
  split.
  { change (Live.Surveyor_trim_paths paths s0)
      with (Ok (Fault := Fault) (length (Live.heap s1))
               (snd (Live.new_list l' s1))).
    rewrite Hlen1, Hlen0. reflexivity. }
  split; [reflexivity|]. split; [reflexivity|].
  split.
  { unfold Live.new_list. cbn [snd Live.heap Live.set_heap].
    rewrite length_app, Hlen1, Hlen0. simpl. lia. }
  split.
  { replace (S (length (Live.heap s))) with (length (Live.heap s1))
      by (rewrite Hlen1, Hlen0; reflexivity).
    change (length (Live.heap s1)) with (fst (Live.new_list l' s1)).
    rewrite deref_new_list. subst l'. rewrite Hpaths1, Hself1, Hself0.
    reflexivity. }
  rewrite !Hnew by (rewrite Hlen1, Hlen0; lia).
  split; [exact Htrim1|].
  repeat split; apply Hother1; intuition congruence.
Qed.

Lemma trim_agrees (s : Live.State Project Path World) :
  Live.separate s ->
  exists o,
    Live.trim (sealed tp fp d)
      (S (length (Live.deref (Live.active (Live.self s)) s))) s = Some o /\
    agree (fun _ _ => True) o (trim (overloading tp fp d) (view s)) /\
    Live.separate (final_state o).
Proof.
  intros Hsep.
  destruct (trim_each_agrees
              (fuel := S (length (Live.deref (Live.active (Live.self s)) s)))
              0 [] s) as (o & Ho & Hag & Hfin); [lia|].
  rewrite trim_walk_unfold, Ho, trim_overloading.
  change (active (self (view s)))
    with (Live.deref (Live.active (Live.self s)) s).
  simpl skipn in Hag.
  assert (Hobj : Live.same_objects s (final_state o))
    by (rewrite Hfin; split; [reflexivity|simpl; lia]).
  pose proof (separate_same_objects Hsep Hobj) as Hsep1.
  destruct o as [kept s1|f s1];
    destruct (trim_each (overloading tp fp d)
                        (Live.deref (Live.active (Live.self s)) s)
                        (view s)) as [kept' st1|f' st1];
    simpl in Hag; try contradiction; destruct Hag as [Hv Hst].
  - subst kept st1. simpl in Hsep1.
    destruct (class_trim_paths_spec kept' Hsep1)
      as (s' & Heq & Hself & Henv & Hlen & Hnew & Htrim & Hact & Hdead
          & Herr).
    cbn [Live.trim_paths sealed].
    change (Live.Surveyor_trim_paths (length (Live.heap s1))
              (Live.set_heap (Live.heap s1 ++ [kept']) s1))
      with (Live.Surveyor_trim_paths (Fault := Fault)
              (fst (Live.new_list kept' s1)) (snd (Live.new_list kept' s1))).
    rewrite Heq. eexists. split; [reflexivity|].
    unfold Live.separate in Hsep1.
    split; [split; [exact I|]|].
    + unfold view, view_self. rewrite !deref_on_self.
      cbn [Live.self Live.env Live.on_self Live.set_active Live._project
           Live._max_concurrency Live.active Live.deadended Live.trimmed
           Live.errored Live._current_tick].
      rewrite Hself, Henv, Hnew, Htrim, Hdead, Herr. reflexivity.
    + unfold Live.separate.
      cbn [final_state Live.self Live.heap Live.on_self Live.set_active
           Live.active Live.deadended Live.trimmed Live.errored].
      rewrite Hself, Hlen. intuition lia.
  - subst f' st1. eexists. split; [reflexivity|].
    split; [split; reflexivity|exact Hsep1].
Qed.

Lemma untrim_agrees (s : Live.State Project Path World) :
  Live.separate s ->
  view (Live.untrim s) = on_self (@untrim_self Project Path) (view s) /\
  Live.separate (Live.untrim s).
Proof.
  intros Hsep. pose proof Hsep as Hsep'. unfold Live.separate in Hsep.
  unfold Live.untrim, untrim_self, on_self. cbv zeta.
  change (_max_concurrency (self (view s)))
    with (Live._max_concurrency (Live.self s)).
  change (active (self (view s)))
    with (Live.deref (Live.active (Live.self s)) s).
  change (trimmed (self (view s)))
    with (Live.deref (Live.trimmed (Live.self s)) s).
  set (available := Live._max_concurrency (Live.self s)
                    - len (Live.deref (Live.active (Live.self s)) s)).
  destruct ((0 <? available)
            && (0 <? len (Live.deref (Live.trimmed (Live.self s)) s)));
    [|split; [reflexivity|exact Hsep']].
  set (l := slice_to available (Live.deref (Live.trimmed (Live.self s)) s)).
  set (s1 := Live.extend (Live.active (Live.self s)) l s).
  destruct (extend_same_objects (Live.active (Live.self s)) l s)
    as (Hself1 & Henv1 & Hlen1).
  fold s1 in Hself1, Henv1, Hlen1.
  assert (Hact1 : Live.deref (Live.active (Live.self s)) s1 =
                  Live.deref (Live.active (Live.self s)) s ++ l)
    by (apply deref_extend_same; tauto).
  assert (Hother1 : forall r, r <> Live.active (Live.self s) ->
                              Live.deref r s1 = Live.deref r s)
    by (intros r Hr; apply deref_extend_other, Hr).
  set (l' := slice_from available
                        (Live.deref (Live.trimmed (Live.self s1)) s1)).
  change (let (r, s2) := Live.new_list l' s1 in
          Live.on_self (Live.set_trimmed r) s2)
    with (Live.on_self (Live.set_trimmed (fst (Live.new_list l' s1)))
                       (snd (Live.new_list l' s1))).
  assert (Hnew : forall r, (r < length (Live.heap s1))%nat ->
                   Live.deref r (snd (Live.new_list l' s1)) = Live.deref r s1)
    by (intros r Hr; apply deref_new_list_old, Hr).
  pose proof (deref_new_list l' s1) as Hfresh.
  split.
  - unfold view, view_self.
    change (Live.deref
              (Live.trimmed
                 (Live.self
                    (Live.on_self
                       (Live.set_trimmed (fst (Live.new_list l' s1)))
                       (snd (Live.new_list l' s1)))))
              (Live.on_self (Live.set_trimmed (fst (Live.new_list l' s1)))
                            (snd (Live.new_list l' s1))))
      with (Live.deref (fst (Live.new_list l' s1))
                       (snd (Live.new_list l' s1))).
    rewrite Hfresh.
    change (Live.deref
              (Live.active
                 (Live.self
                    (Live.on_self
                       (Live.set_trimmed (fst (Live.new_list l' s1)))
                       (snd (Live.new_list l' s1)))))
              (Live.on_self (Live.set_trimmed (fst (Live.new_list l' s1)))
                            (snd (Live.new_list l' s1))))
      with (Live.deref (Live.active (Live.self s))
                       (snd (Live.new_list l' s1))).
    change (Live.deref
              (Live.deadended
                 (Live.self
                    (Live.on_self
                       (Live.set_trimmed (fst (Live.new_list l' s1)))
                       (snd (Live.new_list l' s1)))))
              (Live.on_self (Live.set_trimmed (fst (Live.new_list l' s1)))
                            (snd (Live.new_list l' s1))))
      with (Live.deref (Live.deadended (Live.self s))
                       (snd (Live.new_list l' s1))).
    change (Live.deref
              (Live.errored
                 (Live.self
                    (Live.on_self
                       (Live.set_trimmed (fst (Live.new_list l' s1)))
                       (snd (Live.new_list l' s1)))))
              (Live.on_self (Live.set_trimmed (fst (Live.new_list l' s1)))
                            (snd (Live.new_list l' s1))))
      with (Live.deref (Live.errored (Live.self s))
                       (snd (Live.new_list l' s1))).
    rewrite !Hnew by (rewrite Hlen1; tauto).
    rewrite Hact1, !Hother1 by intuition congruence.
    subst l'. rewrite Hself1, Hother1 by intuition congruence.
    reflexivity.
  - unfold Live.separate.
    change (Live.self
              (Live.on_self (Live.set_trimmed (fst (Live.new_list l' s1)))
                            (snd (Live.new_list l' s1))))
      with (Live.set_trimmed (length (Live.heap s1)) (Live.self s)).
    change (Live.heap
              (Live.on_self (Live.set_trimmed (fst (Live.new_list l' s1)))
                            (snd (Live.new_list l' s1))))
      with (Live.heap s1 ++ [l']).
    cbn [Live.set_trimmed Live.active Live.deadended Live.trimmed
         Live.errored].
    rewrite length_app, Hlen1. simpl length. intuition lia.
Qed.

Variable pdb_set_trace : Call Fault (Env World) unit.

Lemma round_end_agrees (n : option Z) (s : Live.State Project Path World) :
  agree eq (Live.round_end (Live.outside pdb_set_trace) n s)
        (after_round pdb_set_trace n (view s)) /\
  Live.same_objects
    s (final_state (Live.round_end (Live.outside pdb_set_trace) n s)).
Proof.
  unfold Live.round_end, after_round, bind, gets, ret, Live.outside, lift.
  change (env (view s)) with (Live.env s).
  destruct (STOP_RUNS (Live.env s));
    [split; [split; reflexivity|apply same_objects_refl]|].
  destruct (PAUSE_RUNS (Live.env s));
    [|split; [split; reflexivity|apply same_objects_refl]].
  destruct (pdb_set_trace (Live.env s)) as [u e'|f e'];
    (split; [split; reflexivity|split; [reflexivity|simpl; lia]]).
Qed.

(** A run of such an analysis on lists as values is a run on the store:
    with fuel enough for its loops, [run] on the store ends the same way,
    with the same scheduler and in the same environment. *)
Lemma run_agrees (fuel : nat) :
  forall (n : option Z) (s : Live.State Project Path World)
         (o' : Outcome Fault (State Project Path World)
                       (Surveyor Project Path)),
    Live.separate s ->
    run Path_errored pdb_set_trace (overloading tp fp d) fuel n (view s)
    = Some o' ->
    exists fuel' o,
      Live.run Path_errored (sealed tp fp d) (Live.outside pdb_set_trace)
               fuel' n s = Some o /\
      agree (fun _ _ => True) o o'.
Proof.
  induction fuel as [|fuel IH]; intros n s o' Hsep H; [discriminate|].
  rewrite run_unfold, run_guard_unfold in H.
  cbn [done overloading] in H.
  change (self (view s)) with (view_self s) in H.
  change (env (view s)) with (Live.env s) in H.
  assert (Hguard :
    Live.run_guard (sealed tp fp d) n s =
    match d (view_self s) (Live.env s) with
    | Ok b e' =>
        Ok (negb b && match n with None => true | Some k => 0 <? k end)
           (Live.set_env e' s)
    | Raise f e' => Raise f (Live.set_env e' s)
    end).
  { unfold Live.run_guard, bind, ret. cbn [Live.done sealed].
    unfold Live.outside, lift.
    destruct (d (view_self s) (Live.env s)); reflexivity. }
  destruct (d (view_self s) (Live.env s)) as [b e'|f e'].
  2: { inversion H; subst o'. exists 1%nat, (Raise f (Live.set_env e' s)).
       split; [simpl; rewrite Hguard; reflexivity|split; reflexivity]. }
  set (s1 := Live.set_env e' s) in *.
  change (mkState (view_self s) e') with (view s1) in H.
  assert (Hsep1 : Live.separate s1) by exact Hsep.
  destruct (negb b && match n with None => true | Some k => 0 <? k end).
  2: { inversion H; subst o'. exists 1%nat, (Ok (Live.self s1) s1).
       split; [simpl; rewrite Hguard; reflexivity|].
       split; [exact I|reflexivity]. }
  unfold one_round, bind in H.
  destruct (tick_agrees Hsep1) as (ot & Hot & Hagt & Hsep2).
  destruct ot as [sv2 s2|f2 s2];
    destruct (tick Path_errored (overloading tp fp d) (view s1))
      as [sv2' st2|f2' st2];
    simpl in Hagt; try contradiction; destruct Hagt as [Hv2 Hst2].
  2: { subst f2' st2. inversion H; subst o'.
       exists (S (S (length (Live.deref (Live.active (Live.self s1)) s1)))).
       exists (Raise f2 s2).
       split; [|split; reflexivity].
       cbn [Live.run]. rewrite Hguard, Hot. reflexivity. }
  subst st2. simpl in Hsep2.
  destruct (trim_agrees Hsep2) as (otr & Hotr & Hagtr & Hsep3).
  destruct otr as [u3 s3|f3 s3];
    destruct (trim (overloading tp fp d) (view s2)) as [u3' st3|f3' st3];
    simpl in Hagtr; try contradiction; destruct Hagtr as [Hv3 Hst3].
  2: { subst f3' st3. inversion H; subst o'.
       set (k := Nat.max
                   (S (length (Live.deref (Live.active (Live.self s1)) s1)))
                   (S (length (Live.deref (Live.active (Live.self s2)) s2)))).
       assert (Hk1 : (S (length (Live.deref (Live.active (Live.self s1)) s1))
                      <= k)%nat) by (subst k; lia).
       assert (Hk2 : (S (length (Live.deref (Live.active (Live.self s2)) s2))
                      <= k)%nat) by (subst k; lia).
       exists (S k), (Raise f3 s3). split; [|split; reflexivity].
       cbn [Live.run]. rewrite Hguard.
       rewrite (tick_more_fuel Path_errored (sealed tp fp d) s1 Hk1 Hot).
       rewrite (trim_more_fuel (sealed tp fp d) s2 Hk2 Hotr).
       reflexivity. }
  subst st3. simpl in Hsep3.
  unfold untrim, modify in H.
  destruct (untrim_agrees Hsep3) as [Hun Hsep4].
  rewrite <- Hun in H.
  destruct (round_end_agrees n (Live.untrim s3)) as [Hagr Hobj].
  pose proof (separate_same_objects Hsep4 Hobj) as Hsep5.
  set (k := Nat.max
              (S (length (Live.deref (Live.active (Live.self s1)) s1)))
              (S (length (Live.deref (Live.active (Live.self s2)) s2)))).
  assert (Hround :
    forall extra,
      Live.run Path_errored (sealed tp fp d) (Live.outside pdb_set_trace)
               (S (k + extra)) n s =
      match Live.round_end (Live.outside pdb_set_trace) n (Live.untrim s3)
      with
      | Raise f s4 => Some (Raise f s4)
      | Ok None s4 => Some (Ok (Live.self s4) s4)
      | Ok (Some n') s4 =>
          Live.run Path_errored (sealed tp fp d)
                   (Live.outside pdb_set_trace) (k + extra) n' s4
      end).
  { intros extra.
    assert (Hk1 : (S (length (Live.deref (Live.active (Live.self s1)) s1))
                   <= k + extra)%nat) by (subst k; lia).
    assert (Hk2 : (S (length (Live.deref (Live.active (Live.self s2)) s2))
                   <= k + extra)%nat) by (subst k; lia).
    cbn [Live.run]. rewrite Hguard.
    rewrite (tick_more_fuel Path_errored (sealed tp fp d) s1 Hk1 Hot).
    rewrite (trim_more_fuel (sealed tp fp d) s2 Hk2 Hotr).
    reflexivity. }
  destruct (Live.round_end (Live.outside pdb_set_trace) n (Live.untrim s3))
    as [[n'|] s4|f4 s4];
    destruct (after_round pdb_set_trace n (view (Live.untrim s3)))
      as [[n''|] st4|f4' st4];
    simpl in Hagr; try contradiction; destruct Hagr as [Hv4 Hst4];
    try discriminate.
  - inversion Hv4; subst n'' st4. simpl in Hsep5.
    destruct (IH _ _ _ Hsep5 H) as (fuel_r & o & Ho & Hag).
    exists (S (k + fuel_r)), o. split; [|exact Hag].
    rewrite Hround.
    apply (run_more_fuel Path_errored (sealed tp fp d)
             (Live.outside pdb_set_trace) (fuel := fuel_r)); [lia|exact Ho].
  - subst st4. inversion H; subst o'.
    exists (S (k + 0)), (Ok (Live.self s4) s4).
    split; [rewrite Hround; reflexivity|split; [exact I|reflexivity]].
  - subst f4' st4. inversion H; subst o'.
    exists (S (k + 0)), (Raise f4 s4).
    split; [rewrite Hround; reflexivity|split; reflexivity].
Qed.
End Agreement.


(** The constructor makes four separate lists, and the scheduler it makes
    looks like the one made with lists as values. *)
Section LiveInit.
Variables Project Exit Path World : Type.
Variable Path_new : Project -> Exit -> Path.
Variable initial_exit : Project -> Exit.

Lemma analyze_exits_seed (es : list Exit) :
  forall s : Live.State Project Path World,
    Live.separate s ->
    let s' := fold_left (fun s0 e => Live.analyze_exit Path_new e s0) es s in
    Live.same_objects s s' /\
    Live.env s' = Live.env s /\
    Live.deref (Live.active (Live.self s)) s' =
      Live.deref (Live.active (Live.self s)) s
      ++ map (Path_new (Live._project (Live.self s))) es /\
    Live.deref (Live.deadended (Live.self s)) s' =
      Live.deref (Live.deadended (Live.self s)) s /\
    Live.deref (Live.trimmed (Live.self s)) s' =
      Live.deref (Live.trimmed (Live.self s)) s /\
    Live.deref (Live.errored (Live.self s)) s' =
      Live.deref (Live.errored (Live.self s)) s.
Proof.
  induction es as [|e rest IH]; intros s Hsep; cbv zeta; simpl.
  - rewrite app_nil_r. split; [apply same_objects_refl|]. auto.
  - destruct (analyze_exit_seeds Path_new e Hsep)
      as [(Hobj & _ & Hd & Ht & He) Ha].
    pose proof (separate_same_objects Hsep Hobj) as Hsep1.
    specialize (IH _ Hsep1). cbv zeta in IH.
    destruct Hobj as [Hself Hlen]. rewrite Hself in IH.
    destruct IH as (Hobj' & Henv' & Ha' & Hd' & Ht' & He').
    split; [exact (same_objects_trans (conj Hself Hlen) Hobj')|].
    split; [rewrite Henv'; reflexivity|].
    split; [rewrite Ha', Ha, <- app_assoc; reflexivity|].
    split; [congruence|]. split; congruence.
Qed.

Lemma init_agrees (project : Project) (start : option Exit)
      (starts : option (list Exit)) (max_concurrency : option Z)
      (hp : list (list Path)) (e : Env World) :
  view (Live.init Path_new initial_exit project start starts
                  max_concurrency hp e)
  = mkState (init Path_new initial_exit project start starts
                  max_concurrency) e /\
  Live.separate (Live.init Path_new initial_exit project start starts
                           max_concurrency hp e).
Proof.
  rewrite init_fields. unfold Live.init. cbv zeta.
  set (limit := match max_concurrency with None => 10 | Some m => m end).
  set (s0 := Live.mkState
               (Live.mkSurveyor project limit (length hp) (S (length hp))
                                (S (S (length hp))) (S (S (S (length hp))))
                                0)
               (hp ++ [[]; []; []; []]) e).
  assert (Hsep0 : Live.separate s0).
  { unfold Live.separate. simpl. rewrite length_app. simpl.
    repeat split; lia. }
  assert (Hnil : Live.deref (Live.active (Live.self s0)) s0 = [] /\
                 Live.deref (Live.deadended (Live.self s0)) s0 = [] /\
                 Live.deref (Live.trimmed (Live.self s0)) s0 = [] /\
                 Live.deref (Live.errored (Live.self s0)) s0 = []).
  { unfold Live.deref. simpl. rewrite !app_nth2 by lia.
    replace (length hp - length hp)%nat with 0%nat by lia.
    replace (S (length hp) - length hp)%nat with 1%nat by lia.
    replace (S (S (length hp)) - length hp)%nat with 2%nat by lia.
    replace (S (S (S (length hp))) - length hp)%nat with 3%nat by lia.
    repeat split. }
  assert (Hmany :
    forall es,
      let s' := fold_left (fun s1 e0 => Live.analyze_exit Path_new e0 s1)
                          es s0 in
      view s' = mkState (mkSurveyor project limit (map (Path_new project) es)
                                    [] [] [] 0) e /\
      Live.separate s').
  { intros es. cbv zeta.
    destruct (analyze_exits_seed es Hsep0)
      as (Hobj & Henv & Ha & Hd & Ht & He).
    split; [|exact (separate_same_objects Hsep0 Hobj)].
    destruct Hnil as (Ha0 & Hd0 & Ht0 & He0).
    unfold view, view_self. rewrite (proj1 Hobj), Henv, Ha, Hd, Ht, He.
    rewrite Ha0, Hd0, Ht0, He0. reflexivity. }
  destruct start as [e1|]; destruct starts as [es|].
  - rewrite app_nil_r. exact (Hmany (e1 :: es)).
  - rewrite app_nil_r. exact (Hmany [e1]).
  - rewrite app_nil_r. exact (Hmany es).
  - exact (Hmany [initial_exit project]).
Qed.
End LiveInit.
